(** * Oracle CONNECT BY to recursive CTE converter: a shallow embedding

    This development embeds [oracle2databricks/connect_by_converter.py] in
    Rocq and proves properties of the embedded functions.

    Modelling conventions.
    - A Python [str] is a [list ascii].  The alphabet of the model is 7-bit
      ASCII: code points above 127 are treated as characters that are neither
      whitespace nor word characters and that have no case.
    - The regular expressions of the source are terms of [regex], run by a
      backtracking matcher [exec] that follows the priorities of Python's
      [re] module (greedy and lazy repetition, ordered alternation,
      look-ahead, capture groups).
    - Exceptions are modelled by the error monad [result]; the only mutable
      state of the converter, [cte_counter], is threaded explicitly. *)

From Stdlib Require Import Ascii String List Bool Arith Lia NArith ZArith.
From Stdlib Require DecimalString DecimalN DecimalNat.
Import ListNotations.

Set Implicit Arguments.

(** ** Strings *)

Definition str := list ascii.

Coercion list_ascii_of_string : string >-> list.

Local Open Scope string_scope.
Local Open Scope list_scope.
Local Open Scope nat_scope.

Definition code (c : ascii) : nat := nat_of_ascii c.

Definition between (lo hi : nat) (c : ascii) : bool :=
  (lo <=? code c) && (code c <=? hi).

(** [str.isspace] on ASCII: TAB..CR, the separators FS..US and the blank. *)
Definition is_space (c : ascii) : bool :=
  between 9 13 c || between 28 32 c.

Definition is_digit (c : ascii) : bool := between 48 57 c.
Definition is_upper (c : ascii) : bool := between 65 90 c.
Definition is_lower (c : ascii) : bool := between 97 122 c.

(** [\w] on ASCII. *)
Definition is_word (c : ascii) : bool :=
  is_digit c || is_upper c || is_lower c || Ascii.eqb c "_".

Definition upper_char (c : ascii) : ascii :=
  if is_lower c then ascii_of_nat (code c - 32) else c.

Definition lower_char (c : ascii) : ascii :=
  if is_upper c then ascii_of_nat (code c + 32) else c.

Definition upper (s : str) : str := map upper_char s.
Definition lower (s : str) : str := map lower_char s.

Fixpoint str_eqb (a b : str) : bool :=
  match a, b with
  | [], [] => true
  | x :: a', y :: b' => Ascii.eqb x y && str_eqb a' b'
  | _, _ => false
  end.

Fixpoint starts_with (p s : str) : bool :=
  match p, s with
  | [], _ => true
  | x :: p', y :: s' => Ascii.eqb x y && starts_with p' s'
  | _ :: _, [] => false
  end.

(** [needle in s] *)
Fixpoint contains (needle s : str) : bool :=
  starts_with needle s ||
  match s with
  | [] => false
  | _ :: s' => contains needle s'
  end.

(** [s.lstrip()], [s.rstrip()], [s.strip()] *)
Fixpoint lstrip (s : str) : str :=
  match s with
  | c :: s' => if is_space c then lstrip s' else s
  | [] => []
  end.

Definition rstrip (s : str) : str := rev (lstrip (rev s)).
Definition strip (s : str) : str := rstrip (lstrip s).

(** [s.split()]: maximal runs of non-whitespace characters. *)
Fixpoint split_ws_aux (cur : str) (s : str) : list str :=
  match s with
  | [] => match cur with [] => [] | _ => [rev cur] end
  | c :: s' =>
      if is_space c
      then match cur with
           | [] => split_ws_aux [] s'
           | _ => rev cur :: split_ws_aux [] s'
           end
      else split_ws_aux (c :: cur) s'
  end.

Definition split_ws (s : str) : list str := split_ws_aux [] s.

(** [sep.join(l)] *)
Fixpoint join (sep : str) (l : list str) : str :=
  match l with
  | [] => []
  | [x] => x
  | x :: l' => x ++ sep ++ join sep l'
  end.

(** [s.split(c)[-1]]: the text after the last occurrence of [c]. *)
Fixpoint last_segment_aux (c : ascii) (cur : str) (s : str) : str :=
  match s with
  | [] => rev cur
  | x :: s' =>
      if Ascii.eqb x c then last_segment_aux c [] s'
      else last_segment_aux c (x :: cur) s'
  end.

Definition last_segment (c : ascii) (s : str) : str :=
  last_segment_aux c [] s.

(** [s.isdigit()] on ASCII. *)
Definition isdigit (s : str) : bool :=
  match s with
  | [] => false
  | _ => forallb is_digit s
  end.

(** [int(s)] for a string of ASCII digits. *)
Definition int_of_digits (s : str) : N :=
  fold_left (fun acc c => (10 * acc + N.of_nat (code c - 48))%N) s 0%N.

(** [str(n)] *)
Definition str_of_N (n : N) : str :=
  list_ascii_of_string (DecimalString.NilZero.string_of_uint (N.to_uint n)).

Definition str_of_nat (n : nat) : str :=
  list_ascii_of_string (DecimalString.NilZero.string_of_uint (Nat.to_uint n)).

(** Python truthiness of an optional string: [None] and [""] are false. *)
Definition truthy (o : option str) : bool :=
  match o with
  | Some (_ :: _) => true
  | _ => false
  end.

(** [o or d] for an optional string. *)
Definition or_default (o : option str) (d : str) : str :=
  match o with
  | Some (c :: s) => c :: s
  | _ => d
  end.

(** [s.rfind(t)]: start of the last occurrence of [t] in [s]. *)
Fixpoint rfind_aux (t : str) (s : str) (i : nat) (best : option nat)
  : option nat :=
  let best' := if starts_with t s then Some i else best in
  match s with
  | [] => best'
  | _ :: s' => rfind_aux t s' (S i) best'
  end.

Definition rfind (s t : str) : option nat := rfind_aux t s 0 None.

(** ** Regular expressions *)

Inductive regex : Type :=
| Eps
| Chr (p : ascii -> bool)
| Cat (r1 r2 : regex)
| Alt (r1 r2 : regex)
| Star (greedy : bool) (r : regex)
| Group (n : nat) (r : regex)
| Look (positive : bool) (r : regex)
| Bol
| Eol
| WordB.

(** A matcher state: the character before the cursor, the text after it,
    and the groups closed so far (most recent first). *)
Record mstate : Type := MState {
  prev : option ascii;
  rest : str;
  caps : list (nat * str)
}.

Definition word_before (st : mstate) : bool :=
  match prev st with Some c => is_word c | None => false end.

Definition word_after (st : mstate) : bool :=
  match rest st with c :: _ => is_word c | [] => false end.

Definition newline : ascii := ascii_of_nat 10.

(** [$] without MULTILINE: at the end, or before a final newline. *)
Definition at_eol (st : mstate) : bool :=
  match rest st with
  | [] => true
  | [c] => Ascii.eqb c newline
  | _ => false
  end.

Definition consumed (st st' : mstate) : str :=
  firstn (length (rest st) - length (rest st')) (rest st).

(** One repetition loop.  [body] runs one iteration; an iteration has to
    consume at least one character, so [fuel], the number of characters
    left when the loop is entered, is never exhausted. *)
Fixpoint star_loop (body : mstate -> (mstate -> option mstate) -> option mstate)
  (greedy : bool) (k : mstate -> option mstate) (fuel : nat) (st0 : mstate)
  {struct fuel} : option mstate :=
  let again :=
    fun _ : unit =>
      match fuel with
      | 0 => None
      | S fuel' =>
          body st0 (fun st1 =>
            if length (rest st1) <? length (rest st0)
            then star_loop body greedy k fuel' st1 else None)
      end in
  if greedy
  then match again tt with
       | Some res => Some res
       | None => k st0
       end
  else match k st0 with
       | Some res => Some res
       | None => again tt
       end.

(** The backtracking matcher, in continuation-passing style.  [exec r st k]
    tries the ways of matching [r] at [st] in Python's priority order and
    returns the first one that the continuation [k] accepts. *)
Fixpoint exec (r : regex) (st : mstate) (k : mstate -> option mstate)
  {struct r} : option mstate :=
  match r with
  | Eps => k st
  | Chr p =>
      match rest st with
      | c :: t => if p c then k (MState (Some c) t (caps st)) else None
      | [] => None
      end
  | Cat r1 r2 => exec r1 st (fun st1 => exec r2 st1 k)
  | Alt r1 r2 =>
      match exec r1 st k with
      | Some res => Some res
      | None => exec r2 st k
      end
  | Star greedy r1 => star_loop (exec r1) greedy k (length (rest st)) st
  | Group n r1 =>
      exec r1 st (fun st1 =>
        k (MState (prev st1) (rest st1) ((n, consumed st st1) :: caps st1)))
  | Look positive r1 =>
      match exec r1 st (fun st1 => Some st1) with
      | Some _ => if positive then k st else None
      | None => if positive then None else k st
      end
  | Bol => match prev st with None => k st | Some _ => None end
  | Eol => if at_eol st then k st else None
  | WordB => if xorb (word_before st) (word_after st) then k st else None
  end.

(** A successful match: the text before it, the matched text (group 0), the
    text after it, and the capture groups. *)
Record rmatch : Type := RMatch {
  m_pre : str;
  m_text : str;
  m_post : str;
  m_caps : list (nat * str)
}.

Fixpoint assoc (n : nat) (l : list (nat * str)) : option str :=
  match l with
  | [] => None
  | (i, s) :: l' => if Nat.eqb i n then Some s else assoc n l'
  end.

(** [m.group(n)] for [n >= 1]; [None] when the group did not take part. *)
Definition group (n : nat) (m : rmatch) : option str := assoc n (m_caps m).

(** [m.lastindex]: the index of the group closed last. *)
Definition lastindex (m : rmatch) : option nat :=
  match m_caps m with
  | [] => None
  | (i, _) :: _ => Some i
  end.

Definition match_at (r : regex) (pre_rev : str) (s : str) : option rmatch :=
  let st := MState (hd_error pre_rev) s [] in
  match exec r st (fun st1 => Some st1) with
  | Some st1 =>
      Some (RMatch (rev pre_rev) (consumed st st1) (rest st1) (caps st1))
  | None => None
  end.

(** [re.match(r, s)] *)
Definition re_match (r : regex) (s : str) : option rmatch :=
  match_at r [] s.

Fixpoint search_from (r : regex) (pre_rev : str) (s : str)
  : option rmatch :=
  match match_at r pre_rev s with
  | Some m => Some m
  | None =>
      match s with
      | [] => None
      | c :: s' => search_from r (c :: pre_rev) s'
      end
  end.

(** [re.search(r, s)] *)
Definition re_search (r : regex) (s : str) : option rmatch :=
  search_from r [] s.

(** [re.sub(r, repl, s)] for a replacement text without back-references.
    The scan restarts after each match; after an empty match it copies one
    character, as Python does.  (No pattern of this program matches the
    empty string.) *)
Fixpoint sub_go (r : regex) (repl : str) (fuel : nat) (pre_rev : str)
  (s : str) : str :=
  match fuel with
  | 0 => s
  | S fuel' =>
      match match_at r pre_rev s with
      | Some m =>
          match m_text m with
          | _ :: _ =>
              repl ++ sub_go r repl fuel' (rev (m_text m) ++ pre_rev) (m_post m)
          | [] =>
              match s with
              | [] => repl
              | c :: s' => repl ++ c :: sub_go r repl fuel' (c :: pre_rev) s'
              end
          end
      | None =>
          match s with
          | [] => []
          | c :: s' => c :: sub_go r repl fuel' (c :: pre_rev) s'
          end
      end
  end.

Definition re_sub (r : regex) (repl : str) (s : str) : str :=
  sub_go r repl (S (length s)) [] s.

(** [re.split(r, s)] for a pattern without groups; a position where the
    pattern matches only the empty string is not a separator. *)
Fixpoint split_go (r : regex) (fuel : nat) (pre_rev cur_rev : str)
  (s : str) : list str :=
  match fuel with
  | 0 => [rev cur_rev ++ s]
  | S fuel' =>
      let step :=
        fun _ : unit =>
          match s with
          | [] => [rev cur_rev]
          | c :: s' => split_go r fuel' (c :: pre_rev) (c :: cur_rev) s'
          end in
      match match_at r pre_rev s with
      | Some m =>
          match m_text m with
          | _ :: _ =>
              rev cur_rev
              :: split_go r fuel' (rev (m_text m) ++ pre_rev) [] (m_post m)
          | [] => step tt
          end
      | None => step tt
      end
  end.

Definition re_split (r : regex) (s : str) : list str :=
  split_go r (S (length s)) [] [] s.

(** *** Pattern combinators *)

Fixpoint seq (l : list regex) : regex :=
  match l with
  | [] => Eps
  | [r] => r
  | r :: l' => Cat r (seq l')
  end.

Fixpoint alts (r : regex) (l : list regex) : regex :=
  match l with
  | [] => r
  | r' :: l' => Alt r (alts r' l')
  end.

Definition star (r : regex) : regex := Star true r.
Definition plus (r : regex) : regex := Cat r (Star true r).
Definition lazy_star (r : regex) : regex := Star false r.
Definition lazy_plus (r : regex) : regex := Cat r (Star false r).
Definition opt (r : regex) : regex := Alt r Eps.

(** A literal, case-sensitive ([cs]) or under IGNORECASE ([ci]). *)
Definition cs (s : str) : regex :=
  seq (map (fun x => Chr (Ascii.eqb x)) s).

Definition same_letter (x c : ascii) : bool :=
  Ascii.eqb (upper_char c) (upper_char x).

Definition ci (s : str) : regex :=
  seq (map (fun x => Chr (same_letter x)) s).

Definition ws : regex := Chr is_space.          (* \s *)
Definition wordc : regex := Chr is_word.        (* \w *)
Definition digit : regex := Chr is_digit.       (* \d *)
Definition dot_any : regex := Chr (fun _ => true).                    (* . with DOTALL *)
Definition dot_line : regex := Chr (fun c => negb (Ascii.eqb c newline)). (* . *)

Definition is_word_or_dot (c : ascii) : bool := is_word c || Ascii.eqb c ".".
Definition ident_char : regex := Chr is_word_or_dot.   (* [\w.] *)

Definition is_cmp_char (c : ascii) : bool :=
  Ascii.eqb c "<" || Ascii.eqb c ">" || Ascii.eqb c "=" || Ascii.eqb c "!".
Definition cmp_char : regex := Chr is_cmp_char.        (* [<>=!] *)

(** *** The patterns of the source, in source order *)

Definition kw2 (a b : string) : regex := seq [ci a; plus ws; ci b].
Definition kw3 (a b c : string) : regex :=
  seq [ci a; plus ws; ci b; plus ws; ci c].

(** [\bFROM\s+DUAL\b.*\bCONNECT\s+BY\s+LEVEL\s*<=\s*(\d+|\w+)], no flags *)
Definition re_dual : regex :=
  seq [WordB; cs "FROM"; plus ws; cs "DUAL"; WordB; star dot_line;
       WordB; cs "CONNECT"; plus ws; cs "BY"; plus ws; cs "LEVEL";
       star ws; cs "<="; star ws; Group 1 (Alt (plus digit) (plus wordc))].

(** [^\s*SELECT\s+(.*?)\s+FROM\s+] *)
Definition re_select : regex :=
  seq [Bol; star ws; ci "SELECT"; plus ws; Group 1 (lazy_star dot_any);
       plus ws; ci "FROM"; plus ws].

(** [\bFROM\s+([\w.]+)(?:\s+(?:AS\s+)?(\w+))?(?=\s+(?:WHERE|START|CONNECT|ORDER|GROUP|HAVING|$))] *)
Definition re_from : regex :=
  seq [WordB; ci "FROM"; plus ws; Group 1 (plus ident_char);
       opt (seq [plus ws; opt (seq [ci "AS"; plus ws]); Group 2 (plus wordc)]);
       Look true
         (seq [plus ws;
               alts (ci "WHERE")
                 [ci "START"; ci "CONNECT"; ci "ORDER"; ci "GROUP";
                  ci "HAVING"; Eol]])].

(** [\bFROM\s+([\w.]+)] *)
Definition re_from_simple : regex :=
  seq [WordB; ci "FROM"; plus ws; Group 1 (plus ident_char)].

Definition before (r : regex) : regex := Cat (star ws) r.   (* \s*r *)

(** [\bSTART\s+WITH\s+(.*?)(?=\s*CONNECT\s+BY|\s*ORDER\s+SIBLINGS\s+BY|\s*ORDER\s+BY|\s*GROUP\s+BY|\s*$)] *)
Definition re_start_with : regex :=
  seq [WordB; kw2 "START" "WITH"; plus ws; Group 1 (lazy_star dot_any);
       Look true
         (alts (before (kw2 "CONNECT" "BY"))
            [before (kw3 "ORDER" "SIBLINGS" "BY"); before (kw2 "ORDER" "BY");
             before (kw2 "GROUP" "BY"); before Eol])].

(** [\bCONNECT\s+BY\s+(NOCYCLE\s+)?(.*?)(?=\s*START\s+WITH|\s*ORDER\s+SIBLINGS\s+BY|\s*ORDER\s+BY|\s*GROUP\s+BY|\s*HAVING|\s*$)] *)
Definition re_connect_by : regex :=
  seq [WordB; kw2 "CONNECT" "BY"; plus ws;
       opt (Group 1 (seq [ci "NOCYCLE"; plus ws]));
       Group 2 (lazy_star dot_any);
       Look true
         (alts (before (kw2 "START" "WITH"))
            [before (kw3 "ORDER" "SIBLINGS" "BY"); before (kw2 "ORDER" "BY");
             before (kw2 "GROUP" "BY"); before (ci "HAVING"); before Eol])].

(** [\bWHERE\s+(.*?)(?=\s*START\s+WITH|\s*CONNECT\s+BY|\s*ORDER\s+BY|\s*GROUP\s+BY|\s*$)] *)
Definition re_where : regex :=
  seq [WordB; ci "WHERE"; plus ws; Group 1 (lazy_star dot_any);
       Look true
         (alts (before (kw2 "START" "WITH"))
            [before (kw2 "CONNECT" "BY"); before (kw2 "ORDER" "BY");
             before (kw2 "GROUP" "BY"); before Eol])].

(** [\bORDER\s+SIBLINGS\s+BY\s+(.*?)(?=\s*ORDER\s+BY|\s*$)] *)
Definition re_order_siblings : regex :=
  seq [WordB; kw3 "ORDER" "SIBLINGS" "BY"; plus ws;
       Group 1 (lazy_star dot_any);
       Look true (alts (before (kw2 "ORDER" "BY")) [before Eol])].

(** [\bORDER\s+SIBLINGS\s+BY\s+.*?\s+ORDER\s+BY\s+(.*?)(?=\s*$)] *)
Definition re_order_by_after_siblings : regex :=
  seq [WordB; kw3 "ORDER" "SIBLINGS" "BY"; plus ws; lazy_star dot_any;
       plus ws; kw2 "ORDER" "BY"; plus ws; Group 1 (lazy_star dot_any);
       Look true (before Eol)].

(** [\bORDER\s+BY\s+(.*?)(?=\s*$)], with DOTALL *)
Definition re_order_by : regex :=
  seq [WordB; kw2 "ORDER" "BY"; plus ws; Group 1 (lazy_star dot_any);
       Look true (before Eol)].

(** [\bGROUP\s+BY\s+(.*?)(?=\s*HAVING|\s*ORDER|\s*$)] *)
Definition re_group_by : regex :=
  seq [WordB; kw2 "GROUP" "BY"; plus ws; Group 1 (lazy_star dot_any);
       Look true
         (alts (before (ci "HAVING")) [before (ci "ORDER"); before Eol])].

(** [^\s*SELECT\s+(.*?)\s+FROM\s+DUAL] *)
Definition re_select_dual : regex :=
  seq [Bol; star ws; ci "SELECT"; plus ws; Group 1 (lazy_star dot_any);
       plus ws; ci "FROM"; plus ws; ci "DUAL"].

(** [\bCONNECT\s+BY\s+LEVEL\s*<=\s*(\d+|\w+)] *)
Definition re_level_limit : regex :=
  seq [WordB; kw3 "CONNECT" "BY" "LEVEL"; star ws; cs "<="; star ws;
       Group 1 (Alt (plus digit) (plus wordc))].

(** [\bORDER\s+BY\s+(.*?)(?=\s*$)], without DOTALL *)
Definition re_order_by_line : regex :=
  seq [WordB; kw2 "ORDER" "BY"; plus ws; Group 1 (lazy_star dot_line);
       Look true (before Eol)].

(** [\bLEVEL\b(?!\s*\()] *)
Definition re_level_not_call : regex :=
  seq [WordB; ci "LEVEL"; WordB; Look false (seq [star ws; cs "("])].

(** [\bLEVEL\b] *)
Definition re_level_token : regex := seq [WordB; ci "LEVEL"; WordB].

(** [\bCONNECT_BY_ISLEAF\b] *)
Definition re_isleaf_token : regex :=
  seq [WordB; ci "CONNECT_BY_ISLEAF"; WordB].

(** [\bLEVEL\s*[<>=!]+\s*\d+\s*(?:AND\s{0,})?], the last [\s{0,}] written [\s] star in the source *)
Definition re_level_cmp_and : regex :=
  seq [WordB; ci "LEVEL"; star ws; plus cmp_char; star ws; plus digit;
       star ws; opt (seq [ci "AND"; star ws])].

(** [\s+AND\s*$] *)
Definition re_trailing_and : regex :=
  seq [plus ws; ci "AND"; star ws; Eol].

(** [\bLEVEL\s*([<>=!]+)\s*(\d+)] *)
Definition re_level_cmp : regex :=
  seq [WordB; ci "LEVEL"; star ws; Group 1 (plus cmp_char); star ws;
       Group 2 (plus digit)].

(** [\s*PRIOR\s+([\w.]+)\s*=\s*([\w.]+)\s*$] *)
Definition re_prior_left : regex :=
  seq [star ws; ci "PRIOR"; plus ws; Group 1 (plus ident_char); star ws;
       cs "="; star ws; Group 2 (plus ident_char); star ws; Eol].

(** [\s*([\w.]+)\s*=\s*PRIOR\s+([\w.]+)\s*$] *)
Definition re_prior_right : regex :=
  seq [star ws; Group 1 (plus ident_char); star ws; cs "="; star ws;
       ci "PRIOR"; plus ws; Group 2 (plus ident_char); star ws; Eol].

(** [\s+AND\s+] *)
Definition re_and : regex := seq [plus ws; ci "AND"; plus ws].

(** [^\s*LEVEL\s*$] *)
Definition re_level_only : regex :=
  seq [Bol; star ws; ci "LEVEL"; star ws; Eol].

Definition opt_as : regex := opt (seq [ci "AS"; plus ws]).   (* (?:AS\s+)? *)

(** [^\s*LEVEL\s+(?:AS\s+)?(\w+)\s*$] *)
Definition re_level_alias : regex :=
  seq [Bol; star ws; ci "LEVEL"; plus ws; opt_as; Group 1 (plus wordc);
       star ws; Eol].

(** [^\s*SYS_CONNECT_BY_PATH\s*\(\s*(.+?)\s*,\s*'(.+?)'\s*\)\s*(?:AS\s+)?(\w+)?\s*$] *)
Definition re_path : regex :=
  seq [Bol; star ws; ci "SYS_CONNECT_BY_PATH"; star ws; cs "("; star ws;
       Group 1 (lazy_plus dot_line); star ws; cs ","; star ws; cs "'";
       Group 2 (lazy_plus dot_line); cs "'"; star ws; cs ")"; star ws;
       opt_as; opt (Group 3 (plus wordc)); star ws; Eol].

(** [^\s*CONNECT_BY_ROOT\s+(\w+)\s+(?:AS\s+)?(\w+)?\s*$] *)
Definition re_root : regex :=
  seq [Bol; star ws; ci "CONNECT_BY_ROOT"; plus ws; Group 1 (plus wordc);
       plus ws; opt_as; opt (Group 2 (plus wordc)); star ws; Eol].

(** [^\s*CONNECT_BY_ISLEAF\s*(?:AS\s+)?(\w+)?\s*$] *)
Definition re_isleaf : regex :=
  seq [Bol; star ws; ci "CONNECT_BY_ISLEAF"; star ws; opt_as;
       opt (Group 1 (plus wordc)); star ws; Eol].

(** [^\s*CONNECT_BY_ISLEAF\s+(?:AS\s+)?(\w+)?\s*$] *)
Definition re_isleaf_alias : regex :=
  seq [Bol; star ws; ci "CONNECT_BY_ISLEAF"; plus ws; opt_as;
       opt (Group 1 (plus wordc)); star ws; Eol].

(** [\s+(?:AS\s+)?(\w+)\s*$] *)
Definition re_alias : regex :=
  seq [plus ws; opt_as; Group 1 (plus wordc); star ws; Eol].

(** ** Exceptions *)

Inductive result (A : Type) : Type :=
| Ok (a : A)
| Raise (msg : str).

Arguments Ok {A} a.
Arguments Raise {A} msg.

Definition bind {A B : Type} (x : result A) (f : A -> result B) : result B :=
  match x with
  | Ok a => f a
  | Raise msg => Raise msg
  end.

Notation "x <- e ;; k" := (bind e (fun x => k))
  (at level 61, e at next level, right associativity).

(** A [str] method called on a group: [AttributeError] when the group did
    not take part in the match. *)
Definition attr_error : str := "'NoneType' object has no attribute".

Definition req (o : option str) : result str :=
  match o with
  | Some s => Ok s
  | None => Raise attr_error
  end.

(** A group interpolated in an f-string: [None] prints as ["None"]. *)
Definition fmt (o : option str) : str :=
  match o with
  | Some s => s
  | None => "None"
  end.

(** ** The data model *)

Record ConnectByComponents : Type := Components {
  select_clause : str;
  from_clause : str;
  where_clause : option str;
  start_with_clause : option str;
  connect_by_clause : option str;
  order_siblings_by : option str;
  order_by_clause : option str;
  group_by_clause : option str;
  having_clause : option str;
  has_prior : bool;
  has_nocycle : bool;
  has_level : bool;
  has_sys_connect_by_path : bool;
  has_connect_by_root : bool;
  has_connect_by_isleaf : bool;
  is_sequence_generator : bool;
  level_limit : option str;
  table_alias : option str
}.

Record ConversionResult : Type := Result {
  success : bool;
  converted_sql : str;
  original_sql : str;
  warnings : list str;
  notes : list str
}.

(** The converter object: its only attribute is the CTE counter. *)
Record ConnectByConverter : Type := Converter { cte_counter : nat }.

Definition nl : str := [newline].

(** ** The extractor *)

(** [_is_connect_by_query] *)
Definition _is_connect_by_query (sql : str) : bool :=
  let sql_upper := upper sql in
  contains "CONNECT BY" sql_upper || contains "CONNECT_BY" sql_upper.

(** [has_connect_by] *)
Definition has_connect_by (sql : str) : bool :=
  contains "CONNECT BY" (upper sql).

(** [m.group(1).strip() if m else None] *)
Definition group1_strip (m : option rmatch) : result (option str) :=
  match m with
  | Some m' => s <- req (group 1 m') ;; Ok (Some (strip s))
  | None => Ok None
  end.

(** [_parse_sequence_generator] *)
Definition _parse_sequence_generator (sql : str)
  : result ConnectByComponents :=
  select_clause0 <-
    match re_match re_select_dual sql with
    | Some m => s <- req (group 1 m) ;; Ok (strip s)
    | None => Ok ("LEVEL" : str)
    end ;;
  let level_limit0 :=
    match re_search re_level_limit sql with
    | Some m => group 1 m
    | None => Some ("10" : str)
    end in
  order_by0 <- group1_strip (re_search re_order_by_line sql) ;;
  Ok (Components select_clause0 "DUAL" None None None None order_by0 None None
        false false true false false false true level_limit0 None).

Definition type_error : str :=
  "'>=' not supported between instances of 'NoneType' and 'int'".

Definition is_clause_keyword (s : str) : bool :=
  existsb (str_eqb (upper s))
    [ ("START" : str); ("CONNECT" : str); ("WHERE" : str); ("ORDER" : str);
      ("GROUP" : str); ("HAVING" : str) ].

(** The FROM target of [_parse_connect_by_query]: table text and alias;
    [None] when neither pattern finds a table. *)
Definition parse_from (sql_normalized : str)
  : result (option (str * option str)) :=
  match re_search re_from sql_normalized with
  | None =>
      match re_search re_from_simple sql_normalized with
      | None => Ok None
      | Some m => t <- req (group 1 m) ;; Ok (Some (strip t, None))
      end
  | Some m =>
      t <- req (group 1 m) ;;
      match lastindex m with
      | None => Raise type_error
      | Some i =>
          let alias :=
            if (2 <=? i) && truthy (group 2 m) then group 2 m else None in
          let alias :=
            match alias with
            | Some a =>
                if truthy alias && is_clause_keyword a then None else alias
            | None => None
            end in
          Ok (Some (strip t, alias))
      end
  end.

(** [_parse_connect_by_query] *)
Definition _parse_connect_by_query (sql : str)
  : result (option ConnectByComponents) :=
  let sql_normalized := join " " (split_ws sql) in
  let sql_upper := upper sql_normalized in
  match re_search re_dual sql_upper with
  | Some _ =>
      c <- _parse_sequence_generator sql_normalized ;; Ok (Some c)
  | None =>
  match re_match re_select sql_normalized with
  | None => Ok None
  | Some select_match =>
  sel <- req (group 1 select_match) ;;
  let select_clause0 := strip sel in
  ft <- parse_from sql_normalized ;;
  match ft with
  | None => Ok None
  | Some (from_clause0, table_alias0) =>
  start_with0 <- group1_strip (re_search re_start_with sql_normalized) ;;
  match re_search re_connect_by sql_normalized with
  | None => Ok None
  | Some connect_by_match =>
  let has_nocycle0 :=
    match group 1 connect_by_match with Some _ => true | None => false end in
  cb <- req (group 2 connect_by_match) ;;
  let connect_by0 := strip cb in
  let has_prior0 := contains "PRIOR" (upper connect_by0) in
  where0 <- group1_strip (re_search re_where sql_normalized) ;;
  order_siblings0 <-
    group1_strip (re_search re_order_siblings sql_normalized) ;;
  order_by0 <-
    group1_strip
      (if truthy order_siblings0
       then re_search re_order_by_after_siblings sql_normalized
       else re_search re_order_by sql_normalized) ;;
  group_by0 <- group1_strip (re_search re_group_by sql_normalized) ;;
  let has_level0 :=
    contains "LEVEL" sql_upper && contains "CONNECT BY" sql_upper in
  Ok (Some
        (Components select_clause0 from_clause0 where0 start_with0
           (Some connect_by0) order_siblings0 order_by0 group_by0 None
           has_prior0 has_nocycle0 has_level0
           (contains "SYS_CONNECT_BY_PATH" sql_upper)
           (contains "CONNECT_BY_ROOT" sql_upper)
           (contains "CONNECT_BY_ISLEAF" sql_upper)
           false None table_alias0))
  end end end end.

(** ** The sequence-generator special case *)

(** [_convert_sequence_generator]; [int] cannot fail on a string accepted
    by [isdigit], so the [except] branch is never taken. *)
Definition _convert_sequence_generator (components : ConnectByComponents)
  : str :=
  let level_limit0 := or_default (level_limit components) "10" in
  let select_converted :=
    re_sub re_level_not_call "id" (select_clause components) in
  let range_expr : str :=
    if isdigit level_limit0
    then "RANGE(1, " ++ str_of_N (int_of_digits level_limit0 + 1) ++ ")"
    else "RANGE(1, " ++ level_limit0 ++ " + 1)" in
  let result0 : str := "SELECT " ++ select_converted ++ nl ++ "FROM " ++ range_expr in
  if truthy (order_by_clause components)
  then result0 ++ nl ++ "ORDER BY "
       ++ re_sub re_level_token "id" (fmt (order_by_clause components))
  else result0.

(** ** Join inference *)

(** [col.split('.')[-1]] *)
Definition unqualified (col : str) : str := last_segment "." col.

Definition join_text (table_alias0 cte_name child_col parent_col : str)
  : str :=
  table_alias0 ++ "." ++ unqualified child_col ++ " = "
  ++ cte_name ++ "." ++ unqualified parent_col.

(** [_parse_connect_by_condition].  The recursion of the source is on the
    pieces of its argument, which are shorter than the argument; [fuel]
    bounds its depth. *)
Fixpoint parse_condition (fuel : nat) (connect_by : str)
  (table_alias0 cte_name : str) : result (option str) :=
  match connect_by with
  | [] => Ok None
  | _ :: _ =>
  match re_match re_prior_left connect_by with
  | Some m =>
      parent_col <- req (group 1 m) ;;
      child_col <- req (group 2 m) ;;
      Ok (Some (join_text table_alias0 cte_name child_col parent_col))
  | None =>
  match re_match re_prior_right connect_by with
  | Some m =>
      child_col <- req (group 1 m) ;;
      parent_col <- req (group 2 m) ;;
      Ok (Some (join_text table_alias0 cte_name child_col parent_col))
  | None =>
      if contains " AND " (upper connect_by)
      then
        match fuel with
        | 0 => Ok None
        | S fuel' =>
            converted_conditions <-
              fold_left
                (fun acc cond =>
                   l <- acc ;;
                   converted <-
                     parse_condition fuel' (strip cond) table_alias0 cte_name ;;
                   Ok (if truthy converted then l ++ [fmt converted] else l))
                (re_split re_and connect_by) (Ok []) ;;
            match converted_conditions with
            | [] => Ok None
            | _ :: _ => Ok (Some (join " AND " converted_conditions))
            end
        end
      else Ok None
  end end end.

Definition _parse_connect_by_condition (connect_by : option str)
  (table_alias0 cte_name : str) : result (option str) :=
  match connect_by with
  | None => Ok None
  | Some cb => parse_condition (length cb) cb table_alias0 cte_name
  end.

(** ** Column classification *)

(** [_split_select_columns] *)
Fixpoint split_columns_go (s : str) (cur_rev : str) (paren_depth : Z)
  : list str :=
  match s with
  | [] =>
      match strip (rev cur_rev) with
      | [] => []
      | c :: t => [c :: t]
      end
  | ch :: s' =>
      if Ascii.eqb ch "(" then split_columns_go s' (ch :: cur_rev) (paren_depth + 1)
      else if Ascii.eqb ch ")" then split_columns_go s' (ch :: cur_rev) (paren_depth - 1)
      else if Ascii.eqb ch "," && Z.eqb paren_depth 0
      then strip (rev cur_rev) :: split_columns_go s' [] paren_depth
      else split_columns_go s' (ch :: cur_rev) paren_depth
  end.

Definition _split_select_columns (select_clause0 : str) : list str :=
  split_columns_go select_clause0 [] 0%Z.

(** The three lists that [_build_column_lists] fills. *)
Record col_lists : Type := ColLists {
  anchor_cols : list str;
  recursive_cols : list str;
  output_cols : list str
}.

Definition push (l : col_lists) (a r o : str) : col_lists :=
  ColLists (anchor_cols l ++ [a]) (recursive_cols l ++ [r])
           (output_cols l ++ [o]).

Definition isleaf_placeholder (alias : str) : str :=
  "-- CONNECT_BY_ISLEAF needs manual implementation AS " ++ alias.

(** [col[:col.rfind(t)]]; [rfind] gives -1 when [t] does not occur. *)
Definition before_last (col t : str) : str :=
  match rfind col t with
  | Some i => firstn i col
  | None => removelast col
  end.

(** One iteration of the loop of [_build_column_lists]. *)
Definition classify_column (table_alias0 cte_name : str) (l : col_lists)
  (col0 : str) : col_lists :=
  let col := strip col0 in
  match col with
  | [] => l
  | _ :: _ =>
  match re_match re_level_only col with
  | Some _ => push l "1 AS level" (cte_name ++ ".level + 1 AS level") "level"
  | None =>
  match re_match re_level_alias col with
  | Some m =>
      let alias := fmt (group 1 m) in
      push l ("1 AS " ++ alias)
        (cte_name ++ "." ++ alias ++ " + 1 AS " ++ alias) alias
  | None =>
  match re_match re_path col with
  | Some m =>
      let path_expr := fmt (group 1 m) in
      let delimiter := fmt (group 2 m) in
      let alias := or_default (group 3 m) "path" in
      push l
        ("CONCAT('" ++ delimiter ++ "', CAST(" ++ path_expr
         ++ " AS STRING)) AS " ++ alias)
        ("CONCAT(" ++ cte_name ++ "." ++ alias ++ ", '" ++ delimiter
         ++ "', CAST(" ++ table_alias0 ++ "." ++ path_expr
         ++ " AS STRING)) AS " ++ alias)
        alias
  | None =>
  match re_match re_root col with
  | Some m =>
      let root_col := fmt (group 1 m) in
      let alias := or_default (group 2 m) ("root_" ++ root_col) in
      push l (root_col ++ " AS " ++ alias)
        (cte_name ++ "." ++ alias ++ " AS " ++ alias) alias
  | None =>
  match re_match re_isleaf col with
  | Some _ =>
      let alias :=
        match re_match re_isleaf_alias col with
        | Some am => or_default (group 1 am) "is_leaf"
        | None => "is_leaf"
        end in
      ColLists (anchor_cols l) (recursive_cols l)
               (output_cols l ++ [isleaf_placeholder alias])
  | None =>
  if contains "LEVEL" (upper col)
  then
    let anchor_col := re_sub re_level_token "1" col in
    let recursive_col := re_sub re_level_token (cte_name ++ ".level + 1") col in
    match re_search re_alias col with
    | Some am => push l anchor_col recursive_col (fmt (group 1 am))
    | None =>
        let alias := "level_expr_" ++ str_of_nat (length (anchor_cols l)) in
        push l (anchor_col ++ " AS " ++ alias)
          (recursive_col ++ " AS " ++ alias) alias
    end
  else
    match re_search re_alias col with
    | Some am =>
        let alias := fmt (group 1 am) in
        let col_base := before_last col (m_text am) in
        push l col (table_alias0 ++ "." ++ strip col_base ++ " AS " ++ alias)
          alias
    | None =>
        let col_name := strip (unqualified col) in
        push l col (table_alias0 ++ "." ++ col_name) col_name
    end
  end end end end end end.

(** The loop of [_build_column_lists] over the split select list. *)
Definition classify_columns (table_alias0 cte_name : str)
  (columns : list str) : col_lists :=
  fold_left (classify_column table_alias0 cte_name) columns
    (ColLists [] [] []).

(** The depth column added after the loop when no anchor column mentions
    [level]. *)
Definition ensure_level (has_level0 : bool) (cte_name : str) (l : col_lists)
  : col_lists :=
  let has_level1 :=
    existsb (fun c => contains "level" (lower c)) (anchor_cols l) in
  if negb has_level1 && has_level0
  then push l "1 AS level" (cte_name ++ ".level + 1 AS level") "level"
  else l.

(** The lists of [_build_column_lists] before they are joined. *)
Definition column_lists (components : ConnectByComponents)
  (table_alias0 cte_name : str) : col_lists :=
  let columns := _split_select_columns (select_clause components) in
  ensure_level (has_level components) cte_name
    (classify_columns table_alias0 cte_name columns).

(** [_build_column_lists] *)
Definition _build_column_lists (components : ConnectByComponents)
  (table_alias0 cte_name : str) : str * str * str :=
  let l := column_lists components table_alias0 cte_name in
  (join ", " (anchor_cols l), join ", " (recursive_cols l),
   join ", " (output_cols l)).

(** ** The assembler *)

(** [_extract_level_filter] *)
Definition _extract_level_filter (components : ConnectByComponents)
  : option str :=
  if truthy (where_clause components)
  then
    match re_search re_level_cmp (fmt (where_clause components)) with
    | Some m => Some ("level " ++ fmt (group 1 m) ++ " " ++ fmt (group 2 m))
    | None => None
    end
  else None.

(** [_convert_pseudo_columns] *)
Definition _convert_pseudo_columns (clause cte_name : str) : str :=
  re_sub re_isleaf_token "is_leaf" (re_sub re_level_token "level" clause).

Definition index_error_string : str := "string index out of range".
Definition index_error_list : str := "list index out of range".

(** [_generate_alias]: [name[0]] raises [IndexError] on an empty name. *)
Definition _generate_alias (table_name : str) : result str :=
  match unqualified table_name with
  | c :: _ => Ok [lower_char c]
  | [] => Raise index_error_string
  end.

(** The [WHERE] of the anchor member, lines 412 to 428. *)
Definition anchor_where_of (components : ConnectByComponents) : str :=
  let anchor_where := or_default (start_with_clause components) "1=1" in
  if truthy (where_clause components)
  then
    let where_without_level :=
      strip (re_sub re_level_cmp_and "" (fmt (where_clause components))) in
    let where_without_level :=
      strip (re_sub re_trailing_and "" where_without_level) in
    if truthy (Some where_without_level)
       && negb (str_eqb (upper where_without_level) "AND")
    then "(" ++ anchor_where ++ ") AND (" ++ where_without_level ++ ")"
    else anchor_where
  else anchor_where.

Definition join_placeholder : str := "1=0  -- TODO: Fix join condition".

Definition warn_join : str :=
  "Could not parse CONNECT BY condition - may need manual review".

(** The statement text built at lines 431 to 445. *)
Definition cte_text (cte_name table_name table_alias0 anchor_columns
  anchor_where recursive_columns join_condition output_columns : str) : str :=
  "WITH RECURSIVE " ++ cte_name ++ " AS (" ++ nl
  ++ "    -- Anchor member: root nodes (START WITH condition)" ++ nl
  ++ "    SELECT " ++ anchor_columns ++ nl
  ++ "    FROM " ++ table_name ++ " AS " ++ table_alias0 ++ nl
  ++ "    WHERE " ++ anchor_where ++ nl
  ++ "    " ++ nl
  ++ "    UNION ALL" ++ nl
  ++ "    " ++ nl
  ++ "    -- Recursive member: child nodes (CONNECT BY condition)" ++ nl
  ++ "    SELECT " ++ recursive_columns ++ nl
  ++ "    FROM " ++ table_name ++ " AS " ++ table_alias0 ++ nl
  ++ "    INNER JOIN " ++ cte_name ++ " ON " ++ join_condition ++ nl
  ++ ")" ++ nl
  ++ "SELECT " ++ output_columns ++ nl
  ++ "FROM " ++ cte_name.

(** The clauses appended after the statement text, lines 447 to 465. *)
Definition outer_where_text (components : ConnectByComponents) : str :=
  match _extract_level_filter components with
  | Some level_filter => nl ++ "WHERE " ++ level_filter
  | None => []
  end.

Definition group_by_text (components : ConnectByComponents)
  (cte_name : str) : str :=
  if truthy (group_by_clause components)
  then nl ++ "GROUP BY "
       ++ _convert_pseudo_columns (fmt (group_by_clause components)) cte_name
  else [].

Definition order_by_text (components : ConnectByComponents)
  (cte_name : str) : str :=
  if truthy (order_by_clause components)
  then nl ++ "ORDER BY "
       ++ _convert_pseudo_columns (fmt (order_by_clause components)) cte_name
  else if truthy (order_siblings_by components)
  then nl ++ "ORDER BY level, "
       ++ _convert_pseudo_columns (fmt (order_siblings_by components)) cte_name
  else [].

Definition order_warnings (components : ConnectByComponents) : list str :=
  if negb (truthy (order_by_clause components))
     && truthy (order_siblings_by components)
  then [("ORDER SIBLINGS BY approximated - may not preserve exact sibling order" : str)]
  else [].

Definition order_notes (components : ConnectByComponents) : list str :=
  if negb (truthy (order_by_clause components))
     && truthy (order_siblings_by components)
  then [("Consider adding path-based ordering for exact sibling order" : str)]
  else [].

Definition note_isleaf : str :=
  "CONNECT_BY_ISLEAF approximated - uses NOT EXISTS subquery".
Definition warn_isleaf : str :=
  "CONNECT_BY_ISLEAF may need manual verification".

Definition feature_notes (components : ConnectByComponents) : list str :=
  (if has_sys_connect_by_path components
   then [("SYS_CONNECT_BY_PATH converted to path concatenation in recursive CTE" : str)]
   else [])
  ++ (if has_connect_by_root components
      then [("CONNECT_BY_ROOT tracked via root_* columns in CTE" : str)]
      else [])
  ++ (if has_connect_by_isleaf components then [note_isleaf] else [])
  ++ (if has_nocycle components
      then [("NOCYCLE ignored - Databricks handles cycles with MAXRECURSION" : str)]
      else []).

Definition feature_warnings (components : ConnectByComponents) : list str :=
  if has_connect_by_isleaf components then [warn_isleaf] else [].

(** What [_build_recursive_cte] leaves behind when it returns: the text it
    returns and the two lists it has appended to. *)
Record built : Type := Built {
  b_sql : str;
  b_warnings : list str;
  b_notes : list str
}.

Definition cte_name_of (n : nat) : str := "hierarchy_cte_" ++ str_of_nat n.

(** [_build_recursive_cte].  The counter is incremented before anything can
    raise, so the new converter state is returned beside the outcome. *)
Definition _build_recursive_cte (self : ConnectByConverter)
  (components : ConnectByComponents) (warnings0 notes0 : list str)
  : ConnectByConverter * result built :=
  let self' := Converter (cte_counter self + 1) in
  let cte_name := cte_name_of (cte_counter self') in
  (self',
   table_name <-
     match split_ws (from_clause components) with
     | t :: _ => Ok t
     | [] => Raise index_error_list
     end ;;
   table_alias0 <-
     (if truthy (table_alias components)
      then Ok (fmt (table_alias components))
      else _generate_alias table_name) ;;
   parsed <-
     _parse_connect_by_condition (connect_by_clause components)
       table_alias0 cte_name ;;
   let unresolved := negb (truthy parsed) in
   let warnings1 := if unresolved then warnings0 ++ [warn_join] else warnings0 in
   let join_condition := if unresolved then join_placeholder else fmt parsed in
   let '(anchor_columns, recursive_columns, output_columns) :=
     _build_column_lists components table_alias0 cte_name in
   let cte_sql :=
     cte_text cte_name table_name table_alias0 anchor_columns
       (anchor_where_of components) recursive_columns join_condition
       output_columns
     ++ outer_where_text components
     ++ group_by_text components cte_name
     ++ order_by_text components cte_name in
   Ok (Built cte_sql
         (warnings1 ++ order_warnings components
          ++ feature_warnings components)
         (notes0 ++ order_notes components ++ feature_notes components))).

(** ** The entry point *)

Definition warn_not_connect_by : str := "Not a CONNECT BY query".
Definition warn_parse_failed : str :=
  "Failed to parse CONNECT BY query structure".
Definition note_sequence : str :=
  "Converted CONNECT BY LEVEL sequence generator to SEQUENCE function".

(** [ConnectByConverter.convert].  Exceptions of the extractor and of the
    sequence-generator case are outside the [try] and reach the caller;
    those of [_build_recursive_cte] are caught. *)
Definition convert (self : ConnectByConverter) (sql : str)
  : ConnectByConverter * result ConversionResult :=
  if negb (_is_connect_by_query sql)
  then (self, Ok (Result false sql sql [warn_not_connect_by] []))
  else
    match _parse_connect_by_query sql with
    | Raise msg => (self, Raise msg)
    | Ok None => (self, Ok (Result false sql sql [warn_parse_failed] []))
    | Ok (Some components) =>
        if is_sequence_generator components
        then (self,
              Ok (Result true (_convert_sequence_generator components) sql
                    [] [note_sequence]))
        else
          match _build_recursive_cte self components [] [] with
          | (self', Ok b) =>
              (self', Ok (Result true (b_sql b) sql (b_warnings b) (b_notes b)))
          | (self', Raise e) =>
              (self',
               Ok (Result false sql sql [("Conversion error: " : str) ++ e] []))
          end
    end.

(** [convert_connect_by]: a fresh converter for one statement. *)
Definition convert_connect_by (sql : str) : result ConversionResult :=
  snd (convert (Converter 0) sql).

(** ** A declarative reading of the patterns

    [matches r st st'] says that [r] can consume the text between the
    cursors of [st] and [st'], closing the groups recorded in [st'].  It
    ignores priorities: the matcher [exec] picks one of these ways. *)

Inductive star_closure (R : mstate -> mstate -> Prop)
  : mstate -> mstate -> Prop :=
| SC_done : forall st, star_closure R st st
| SC_step : forall st st1 st2,
    R st st1 ->
    length (rest st1) < length (rest st) ->
    star_closure R st1 st2 ->
    star_closure R st st2.

Fixpoint matches (r : regex) (st st' : mstate) {struct r} : Prop :=
  match r with
  | Eps => st' = st
  | Chr p =>
      exists c t,
        rest st = c :: t /\ p c = true /\ st' = MState (Some c) t (caps st)
  | Cat r1 r2 => exists st1, matches r1 st st1 /\ matches r2 st1 st'
  | Alt r1 r2 => matches r1 st st' \/ matches r2 st st'
  | Star _ r1 => star_closure (matches r1) st st'
  | Group n r1 =>
      exists st1,
        matches r1 st st1 /\
        st' = MState (prev st1) (rest st1) ((n, consumed st st1) :: caps st1)
  | Look true r1 => st' = st /\ exists st1, matches r1 st st1
  | Look false r1 => st' = st /\ ~ exists st1, matches r1 st st1
  | Bol => st' = st /\ prev st = None
  | Eol => st' = st /\ at_eol st = true
  | WordB => st' = st /\ xorb (word_before st) (word_after st) = true
  end.

(** [sets n r]: every way of matching [r] closes group [n]. *)
Fixpoint sets (n : nat) (r : regex) : bool :=
  match r with
  | Cat r1 r2 => sets n r1 || sets n r2
  | Alt r1 r2 => sets n r1 && sets n r2
  | Group i r1 => Nat.eqb i n || sets n r1
  | _ => false
  end.

(** The character before the cursor once it has moved over [w]. *)
Definition prev_after (w : str) (p : option ascii) : option ascii :=
  match rev w with
  | c :: _ => Some c
  | [] => p
  end.

(** [parses r p w t l]: after the character [p], the pattern [r] can
    consume exactly [w] when the text [t] follows, closing the groups [l]. *)
Definition parses (r : regex) (p : option ascii) (w t : str)
  (l : list (nat * str)) : Prop :=
  matches r (MState p (w ++ t) []) (MState (prev_after w p) t l).

Definition is_word_opt (p : option ascii) : bool :=
  match p with Some c => is_word c | None => false end.

Definition word_start (t : str) : bool :=
  match t with c :: _ => is_word c | [] => false end.

(** No character of [f] at the start of [t]. *)
Definition stops (f : ascii -> bool) (t : str) : bool :=
  match t with c :: _ => negb (f c) | [] => true end.

(** [a] occurs in [b] as a contiguous piece. *)
Definition substring (a b : str) : Prop := exists u v, b = u ++ a ++ v.

(** [w] matches the literal [s] character by character under [f]. *)
Fixpoint lit_ok (f : ascii -> ascii -> bool) (s w : str) : bool :=
  match s, w with
  | [], [] => true
  | x :: s', c :: w' => f x c && lit_ok f s' w'
  | _, _ => false
  end.

(** ** Vocabulary of the statements *)

(** A column identifier, optionally dot-qualified: a non-empty run of
    characters of the class [[\w.]]. *)
Definition is_identifier (s : str) : bool :=
  match s with
  | [] => false
  | _ :: _ => forallb is_word_or_dot s
  end.

(** A text without the qualifier separator. *)
Definition dot_free (s : str) : bool :=
  forallb (fun c => negb (Ascii.eqb c ".")) s.


(** The result for an input that is not a CONNECT BY query. *)
Definition not_applicable (sql : str) : ConversionResult :=
  Result false sql sql [warn_not_connect_by] [].

(** ** Join inference, read off the two shapes

    [resolve_conjunct] is the part of [_parse_connect_by_condition] that
    recognises one conjunct of the shape [PRIOR a = b] or [b = PRIOR a]. *)
Definition resolve_conjunct (c table_alias0 cte_name : str) : option str :=
  match re_match re_prior_left c with
  | Some m =>
      Some (join_text table_alias0 cte_name (fmt (group 2 m))
              (fmt (group 1 m)))
  | None =>
      match re_match re_prior_right c with
      | Some m =>
          Some (join_text table_alias0 cte_name (fmt (group 1 m))
                  (fmt (group 2 m)))
      | None => None
      end
  end.

(** The conjuncts of a predicate: the pieces between the separators
    [\s+AND\s+], stripped. *)
Definition conjuncts (connect_by : str) : list str :=
  map strip (re_split re_and connect_by).

Fixpoint resolved (l : list str) (table_alias0 cte_name : str) : list str :=
  match l with
  | [] => []
  | c :: l' =>
      match resolve_conjunct c table_alias0 cte_name with
      | Some j => j :: resolved l' table_alias0 cte_name
      | None => resolved l' table_alias0 cte_name
      end
  end.

(** The outcome of join inference: the whole predicate if it has one of the
    two shapes; otherwise the conjuncts that have, joined by [AND]; [None]
    (unresolved) when there is none. *)
Definition infer_join (connect_by : option str) (table_alias0 cte_name : str)
  : option str :=
  match connect_by with
  | None => None
  | Some cb =>
      match resolve_conjunct cb table_alias0 cte_name with
      | Some j => Some j
      | None =>
          if contains " AND " (upper cb)
          then
            match resolved (conjuncts cb) table_alias0 cte_name with
            | [] => None
            | j :: js => Some (join " AND " (j :: js))
            end
          else None
      end
  end.

(** The text starts with a separator written with blanks: [" AND "],
    in any case. *)
Definition starts_and (s : str) : bool :=
  lit_ok same_letter " AND " (firstn 5 s).

(** The longest prefix of [f]-characters, and what follows it. *)
Fixpoint run (f : ascii -> bool) (s : str) : str :=
  match s with
  | c :: s' => if f c then c :: run f s' else []
  | [] => []
  end.

Fixpoint rest_after (f : ascii -> bool) (s : str) : str :=
  match s with
  | c :: s' => if f c then rest_after f s' else s
  | [] => []
  end.


(** ** The WHERE clauses of the assembled statement *)






(** Components used to illustrate the statements: a hierarchy over [emp]
    with two [LEVEL] comparisons in its WHERE text. *)
Definition sample_components : ConnectByComponents :=
  Components "id, name" "emp"
    (Some ("LEVEL <= 3 AND x = 1 AND LEVEL > 1" : str))
    (Some ("mgr IS NULL" : str)) (Some ("PRIOR id = mgr" : str))
    None None None None true false true false false false false None
    (Some ("e" : str)).

(** ** Tokens of the sequence-generator case *)

(** After the character [p], the text [s] starts with the word [LEVEL],
    in any case, as a whole word. *)
Definition level_word_at (p : option ascii) (s : str) : bool :=
  negb (is_word_opt p)
  && lit_ok same_letter "LEVEL" (firstn 5 s)
  && negb (word_start (skipn 5 s)).


(** [replace_tokens tok repl skip p s]: the text [s], read after the
    character [p], in which every five-letter token recognised by [tok] is
    replaced by [repl]; [skip] counts the letters of the token being
    replaced that are still to be passed. *)
Fixpoint replace_tokens (tok : option ascii -> str -> bool) (repl : str)
  (skip : nat) (p : option ascii) (s : str) : str :=
  match s with
  | [] => []
  | c :: s' =>
      match skip with
      | S k => replace_tokens tok repl k (Some c) s'
      | 0 =>
          if tok p s
          then repl ++ replace_tokens tok repl 4 (Some c) s'
          else c :: replace_tokens tok repl 0 (Some c) s'
      end
  end.


(** ** Select items *)

(** The name under which a select item is output, read off the item as the
    source does for a regular column: the word after the last whitespace
    (and an optional [AS]), else the text after the last qualifier. *)
Definition select_item_alias (item : str) : str :=
  match re_search re_alias item with
  | Some m => fmt (group 1 m)
  | None => strip (unqualified item)
  end.

(** A select item that the classifier takes for [CONNECT_BY_ISLEAF]. *)
Definition is_isleaf_item (col : str) : bool :=
  match re_match re_isleaf (strip col) with
  | Some _ => true
  | None => false
  end.

(** A text without a line break. *)
Definition single_line (s : str) : bool :=
  forallb (fun c => negb (Ascii.eqb c newline)) s.

(** A nonempty text of word characters. *)
Definition is_alias_word (a : str) : bool :=
  match a with
  | [] => false
  | _ :: _ => forallb is_word a
  end.

(** The part of a comma-joined list that follows one of its entries. *)
Definition listed_after (later : list str) : str :=
  concat (map (fun o => ", " ++ o) later).

(** Components of a hierarchy over [emp] whose select list holds a
    [CONNECT_BY_ISLEAF] item between two plain columns. *)
Definition isleaf_components : ConnectByComponents :=
  Components "name, CONNECT_BY_ISLEAF AS leaf, dept" "emp" None
    (Some ("mgr IS NULL" : str)) (Some ("PRIOR id = mgr" : str))
    None None None None true false false false false true false None
    (Some ("e" : str)).

(** ** Items of a select list *)

(** Scanned from the parenthesis depth [d], the text [s] has no comma at
    depth zero and ends at depth zero. *)
Fixpoint closed_item (s : str) (d : Z) : bool :=
  match s with
  | [] => Z.eqb d 0
  | ch :: s' =>
      if Ascii.eqb ch "(" then closed_item s' (d + 1)
      else if Ascii.eqb ch ")" then closed_item s' (d - 1)
      else if Ascii.eqb ch "," then negb (Z.eqb d 0) && closed_item s' d
      else closed_item s' d
  end.

(** A select item as the splitter returns it: not empty, without
    surrounding whitespace, its commas inside parentheses. *)
Definition is_select_item (s : str) : bool :=
  negb (str_eqb s []) && str_eqb (strip s) s && closed_item s 0.

(** A text without an opening parenthesis. *)
Definition no_open_paren (s : str) : bool :=
  forallb (fun c => negb (Ascii.eqb c "(")) s.

(** Components whose table name ends with a dot and that carry no alias. *)
Definition dotted_components : ConnectByComponents :=
  Components "a" "t." None None (Some ("PRIOR a = b" : str))
    None None None None true false false false false false false None None.

(** * Properties of the matcher *)

Unset Implicit Arguments.

Section StarLoop.

Variable body : mstate -> (mstate -> option mstate) -> option mstate.
Variable R : mstate -> mstate -> Prop.

Hypothesis body_ext :
  forall st k1 k2, (forall s, k1 s = k2 s) -> body st k1 = body st k2.
Hypothesis body_sound :
  forall st k res,
    body st k = Some res -> exists st', R st st' /\ k st' = Some res.
Hypothesis body_complete :
  forall st st' k, R st st' -> k st' <> None -> body st k <> None.

Lemma body_none : forall st, body st (fun _ => None) = None.
Proof.
  intros st. destruct (body st (fun _ => None)) eqn:E; [|reflexivity].
  apply body_sound in E. destruct E as (st' & _ & E). discriminate.
Qed.

Lemma star_loop_ext : forall g k1 k2 fuel st,
    (forall s, k1 s = k2 s) ->
    star_loop body g k1 fuel st = star_loop body g k2 fuel st.
Proof.
  intros g k1 k2 fuel. induction fuel as [|fuel IH]; intros st Hk; simpl.
  - rewrite (Hk st). reflexivity.
  - rewrite (Hk st).
    rewrite (body_ext st
               (fun st1 => if length (rest st1) <? length (rest st)
                           then star_loop body g k1 fuel st1 else None)
               (fun st1 => if length (rest st1) <? length (rest st)
                           then star_loop body g k2 fuel st1 else None)).
    + reflexivity.
    + intros s. destruct (length (rest s) <? length (rest st)); auto.
Qed.

(** Any fuel that covers the remaining text gives the same answer. *)
Lemma star_loop_fuel : forall g k f1 f2 st,
    length (rest st) <= f1 -> length (rest st) <= f2 ->
    star_loop body g k f1 st = star_loop body g k f2 st.
Proof.
  intros g k f1. induction f1 as [|f1 IH]; intros f2 st H1 H2.
  - destruct f2 as [|f2]; [reflexivity|]. simpl.
    rewrite (body_ext st _ (fun _ => None)).
    + rewrite body_none. reflexivity.
    + intros s. destruct (length (rest s) <? length (rest st)) eqn:E; auto.
      apply Nat.ltb_lt in E. lia.
  - destruct f2 as [|f2].
    + simpl. rewrite (body_ext st _ (fun _ => None)).
      * rewrite body_none. reflexivity.
      * intros s. destruct (length (rest s) <? length (rest st)) eqn:E; auto.
        apply Nat.ltb_lt in E. lia.
    + simpl.
      rewrite (body_ext st
                 (fun st1 => if length (rest st1) <? length (rest st)
                             then star_loop body g k f1 st1 else None)
                 (fun st1 => if length (rest st1) <? length (rest st)
                             then star_loop body g k f2 st1 else None)).
      * reflexivity.
      * intros s. destruct (length (rest s) <? length (rest st)) eqn:E; auto.
        apply Nat.ltb_lt in E. apply IH; lia.
Qed.

Lemma star_loop_sound : forall g k fuel st res,
    star_loop body g k fuel st = Some res ->
    exists st', star_closure R st st' /\ k st' = Some res.
Proof.
  intros g k fuel. induction fuel as [|fuel IH]; intros st res H.
  - simpl in H. exists st. split; [constructor|].
    destruct g; destruct (k st); congruence.
  - simpl in H.
    assert (Hagain :
              body st (fun st1 => if length (rest st1) <? length (rest st)
                                  then star_loop body g k fuel st1 else None)
              = Some res ->
              exists st', star_closure R st st' /\ k st' = Some res).
    { intros E. apply body_sound in E. destruct E as (st1 & HR & E).
      destruct (length (rest st1) <? length (rest st)) eqn:Hlt;
        [|discriminate].
      apply Nat.ltb_lt in Hlt. apply IH in E.
      destruct E as (st' & Hc & Hk). exists st'. split; [|exact Hk].
      econstructor; eauto. }
    destruct g.
    + destruct (body st _) eqn:E.
      * inversion H; subst. apply Hagain. reflexivity.
      * exists st. split; [constructor|exact H].
    + destruct (k st) eqn:E.
      * exists st. split; [constructor|congruence].
      * apply Hagain. exact H.
Qed.

Lemma star_loop_complete : forall g k st st',
    star_closure R st st' -> k st' <> None ->
    star_loop body g k (length (rest st)) st <> None.
Proof.
  intros g k st st' Hc. induction Hc as [st|st st1 st2 HR Hlt Hc IH];
    intros Hk.
  - destruct (length (rest st)); simpl.
    + destruct g; destruct (k st); congruence.
    + destruct g.
      * destruct (body st _); [discriminate|exact Hk].
      * destruct (k st); [discriminate|congruence].
  - specialize (IH Hk).
    destruct (length (rest st)) as [|fuel] eqn:Hlen; [lia|]. simpl.
    assert (Hagain :
              body st (fun s => if length (rest s) <? S fuel
                                then star_loop body g k fuel s else None)
              <> None).
    { apply body_complete with (st' := st1); [exact HR|].
      replace (length (rest st1) <? S fuel) with true
        by (symmetry; apply Nat.ltb_lt; lia).
      rewrite (star_loop_fuel g k fuel (length (rest st1)) st1) by lia.
      exact IH. }
    rewrite Hlen.
    destruct g.
    + destruct (body st _); [discriminate|contradiction].
    + destruct (k st); [discriminate|exact Hagain].
Qed.

End StarLoop.

Lemma exec_ext : forall r st k1 k2,
    (forall s, k1 s = k2 s) -> exec r st k1 = exec r st k2.
Proof.
  induction r as [|p|r1 IH1 r2 IH2|r1 IH1 r2 IH2|g r1 IH|n r1 IH|b r1 IH| | |];
    intros st k1 k2 Hk; simpl.
  - apply Hk.
  - destruct (rest st) as [|c t]; [reflexivity|].
    destruct (p c); [apply Hk|reflexivity].
  - apply IH1. intros s. apply IH2. exact Hk.
  - rewrite (IH1 st k1 k2 Hk), (IH2 st k1 k2 Hk). reflexivity.
  - apply star_loop_ext; [exact IH|exact Hk].
  - apply IH. intros s. apply Hk.
  - rewrite (Hk st). reflexivity.
  - rewrite (Hk st). reflexivity.
  - rewrite (Hk st). reflexivity.
  - rewrite (Hk st). reflexivity.
Qed.

(** The matcher agrees with the declarative reading: what it returns is a
    way of matching that the continuation accepts, and it finds one
    whenever one exists. *)
Lemma exec_sound_complete : forall r,
    (forall st k res,
        exec r st k = Some res ->
        exists st', matches r st st' /\ k st' = Some res) /\
    (forall st st' k,
        matches r st st' -> k st' <> None -> exec r st k <> None).
Proof.
  induction r as [|p|r1 IH1 r2 IH2|r1 IH1 r2 IH2|g r1 IH|n r1 IH|b r1 IH| | |].
  - split.
    + intros st k res H. exists st. split; [reflexivity|exact H].
    + intros st st' k H Hk. simpl in *. subst. exact Hk.
  - split.
    + intros st k res H. simpl in H.
      destruct (rest st) as [|c t] eqn:E; [discriminate|].
      destruct (p c) eqn:Hp; [|discriminate].
      exists (MState (Some c) t (caps st)). split; [|exact H].
      simpl. exists c, t. auto.
    + intros st st' k (c & t & E & Hp & ->) Hk. simpl. rewrite E, Hp.
      exact Hk.
  - destruct IH1 as [S1 C1]. destruct IH2 as [S2 C2]. split.
    + intros st k res H. simpl in H. apply S1 in H.
      destruct H as (st1 & H1 & H). apply S2 in H.
      destruct H as (st2 & H2 & H). exists st2. split; [|exact H].
      simpl. exists st1. auto.
    + intros st st' k (st1 & H1 & H2) Hk. simpl.
      apply C1 with (st' := st1); [exact H1|].
      apply C2 with (st' := st'); assumption.
  - destruct IH1 as [S1 C1]. destruct IH2 as [S2 C2]. split.
    + intros st k res H. simpl in H. destruct (exec r1 st k) eqn:E.
      * inversion H; subst. apply S1 in E. destruct E as (st' & H1 & E).
        exists st'. split; [left; exact H1|exact E].
      * apply S2 in H. destruct H as (st' & H2 & H).
        exists st'. split; [right; exact H2|exact H].
    + intros st st' k [H|H] Hk; simpl.
      * specialize (C1 st st' k H Hk). destruct (exec r1 st k);
          [discriminate|contradiction].
      * specialize (C2 st st' k H Hk). destruct (exec r1 st k);
          [discriminate|exact C2].
  - destruct IH as [S1 C1]. split.
    + intros st k res H. simpl in H.
      apply star_loop_sound with (R := matches r1) in H; [exact H|exact S1].
    + intros st st' k H Hk. simpl.
      apply star_loop_complete with (R := matches r1) (st' := st');
        auto using exec_ext.
  - destruct IH as [S1 C1]. split.
    + intros st k res H. simpl in H. apply S1 in H.
      destruct H as (st1 & H1 & H).
      exists (MState (prev st1) (rest st1) ((n, consumed st st1) :: caps st1)).
      split; [|exact H]. simpl. exists st1. auto.
    + intros st st' k (st1 & H1 & ->) Hk. simpl.
      apply C1 with (st' := st1); assumption.
  - destruct IH as [S1 C1]. split.
    + intros st k res H. simpl in H.
      destruct (exec r1 st (fun st1 => Some st1)) eqn:E.
      * destruct b; [|discriminate]. exists st. split; [|exact H].
        simpl. split; [reflexivity|]. apply S1 in E.
        destruct E as (st1 & H1 & _). exists st1. exact H1.
      * destruct b; [discriminate|]. exists st. split; [|exact H].
        simpl. split; [reflexivity|]. intros (st1 & H1).
        apply (C1 st st1 (fun s => Some s) H1); [discriminate|exact E].
    + intros st st' k H Hk. simpl. destruct b; simpl in H.
      * destruct H as (-> & st1 & H1).
        specialize (C1 st st1 (fun s => Some s) H1).
        destruct (exec r1 st (fun s => Some s)); [exact Hk|].
        exfalso. apply C1; [discriminate|reflexivity].
      * destruct H as (-> & Hn).
        destruct (exec r1 st (fun s => Some s)) eqn:E; [|exact Hk].
        exfalso. apply Hn. apply S1 in E. destruct E as (st1 & H1 & _).
        exists st1. exact H1.
  - split.
    + intros st k res H. simpl in H. destruct (prev st) eqn:E;
        [discriminate|]. exists st. simpl. auto.
    + intros st st' k (-> & E) Hk. simpl. rewrite E. exact Hk.
  - split.
    + intros st k res H. simpl in H. destruct (at_eol st) eqn:E;
        [|discriminate]. exists st. simpl. auto.
    + intros st st' k (-> & E) Hk. simpl. rewrite E. exact Hk.
  - split.
    + intros st k res H. simpl in H.
      destruct (xorb (word_before st) (word_after st)) eqn:E;
        [|discriminate]. exists st. simpl. auto.
    + intros st st' k (-> & E) Hk. simpl. rewrite E. exact Hk.
Qed.

Lemma exec_sound : forall r st k res,
    exec r st k = Some res ->
    exists st', matches r st st' /\ k st' = Some res.
Proof. intros r. apply (proj1 (exec_sound_complete r)). Qed.

Lemma exec_complete : forall r st st' k,
    matches r st st' -> k st' <> None -> exec r st k <> None.
Proof. intros r. apply (proj2 (exec_sound_complete r)). Qed.

Lemma exec_top_sound : forall r st res,
    exec r st (fun s => Some s) = Some res -> matches r st res.
Proof.
  intros r st res H. apply exec_sound in H. destruct H as (st' & Hm & E).
  inversion E; subst. exact Hm.
Qed.

Lemma exec_top_none : forall r st,
    exec r st (fun s => Some s) = None -> forall st', ~ matches r st st'.
Proof.
  intros r st H st' Hm.
  apply (exec_complete r st st' (fun s => Some s) Hm); [discriminate|exact H].
Qed.

(** ** From cursors to words *)

Lemma prev_after_nil : forall p, prev_after [] p = p.
Proof. reflexivity. Qed.

Lemma prev_after_app : forall w1 w2 p,
    prev_after (w1 ++ w2) p = prev_after w2 (prev_after w1 p).
Proof.
  intros w1 w2 p. unfold prev_after. rewrite rev_app_distr.
  destruct (rev w2); reflexivity.
Qed.

Lemma prev_after_cons_last : forall w c p,
    prev_after (w ++ [c]) p = Some c.
Proof.
  intros. unfold prev_after. rewrite rev_app_distr. reflexivity.
Qed.

Lemma consumed_app : forall p p' w t c c',
    consumed (MState p (w ++ t) c) (MState p' t c') = w.
Proof.
  intros. unfold consumed. simpl. rewrite length_app.
  replace (length w + length t - length t) with (length w) by lia.
  rewrite firstn_app, firstn_all, Nat.sub_diag. simpl.
  apply app_nil_r.
Qed.

(** A match moves the cursor forward over some text [w], adds groups on
    top of those already closed, and does not depend on the latter. *)
Lemma matches_moves : forall r p s c st',
    matches r (MState p s c) st' ->
    exists w t l,
      s = w ++ t /\
      st' = MState (prev_after w p) t (l ++ c) /\
      forall c', matches r (MState p s c')
                   (MState (prev_after w p) t (l ++ c')).
Proof.
  induction r as [|f|r1 IH1 r2 IH2|r1 IH1 r2 IH2|g r1 IH|n r1 IH|b r1 IH| | |];
    intros p s c st' H.
  - simpl in H. subst. exists [], s, []. simpl. auto.
  - simpl in H. destruct H as (x & t & E & Hf & ->). simpl in E. subst.
    exists [x], t, []. simpl. repeat split; auto.
    intros c'. exists x, t. auto.
  - simpl in H. destruct H as (st1 & H1 & H2).
    apply IH1 in H1. destruct H1 as (w1 & t1 & l1 & E1 & -> & K1).
    apply IH2 in H2. destruct H2 as (w2 & t2 & l2 & E2 & -> & K2).
    exists (w1 ++ w2), t2, (l2 ++ l1). subst.
    rewrite <- !app_assoc. rewrite prev_after_app. repeat split; auto.
    intros c'. simpl. rewrite <- app_assoc. eexists. split; [apply K1|].
    apply K2.
  - simpl in H. destruct H as [H|H].
    + apply IH1 in H. destruct H as (w & t & l & E & E' & K).
      exists w, t, l. repeat split; auto. intros c'. left. apply K.
    + apply IH2 in H. destruct H as (w & t & l & E & E' & K).
      exists w, t, l. repeat split; auto. intros c'. right. apply K.
  - simpl in H. remember (MState p s c) as st eqn:Est.
    revert p s c Est. induction H as [st|st st1 st2 HR Hlt Hc IHc];
      intros p s c Est; subst.
    + exists [], s, []. simpl. repeat split; auto. intros c'. constructor.
    + apply IH in HR. destruct HR as (w1 & t1 & l1 & E1 & -> & K1).
      simpl in Hlt.
      destruct (IHc _ _ _ eq_refl) as (w2 & t2 & l2 & E2 & -> & K2).
      exists (w1 ++ w2), t2, (l2 ++ l1). subst.
      rewrite <- !app_assoc. rewrite prev_after_app.
      repeat split; auto.
      intros c'. simpl. rewrite <- app_assoc.
      econstructor; [apply K1| |apply K2].
      simpl. exact Hlt.
  - simpl in H. destruct H as (st1 & H1 & ->).
    apply IH in H1. destruct H1 as (w & t & l & E & -> & K).
    simpl in *. subst s. rewrite consumed_app.
    exists w, t, ((n, w) :: l).
    split; [reflexivity|split; [reflexivity|]].
    intros c'. eexists. split; [apply K|]. simpl.
    rewrite consumed_app. reflexivity.
  - destruct b; simpl in H.
    + destruct H as (-> & st1 & H1). exists [], s, []. simpl.
      split; [reflexivity|split; [reflexivity|]].
      intros c'. split; [reflexivity|].
      apply IH in H1. destruct H1 as (w & t & l & E & E' & K).
      eexists. apply K.
    + destruct H as (-> & Hn). exists [], s, []. simpl.
      split; [reflexivity|split; [reflexivity|]].
      intros c'. split; [reflexivity|].
      intros (st1 & H1). apply Hn.
      apply IH in H1. destruct H1 as (w & t & l & E & E' & K).
      eexists. apply K.
  - simpl in H. destruct H as (-> & E). exists [], s, []. simpl. auto.
  - simpl in H. destruct H as (-> & E). exists [], s, []. simpl. auto.
  - simpl in H. destruct H as (-> & E). exists [], s, []. simpl. auto.
Qed.

Lemma parses_of_matches : forall r p s c st',
    matches r (MState p s c) st' ->
    exists w t l,
      s = w ++ t /\
      st' = MState (prev_after w p) t (l ++ c) /\
      parses r p w t l.
Proof.
  intros r p s c st' H. apply matches_moves in H.
  destruct H as (w & t & l & E & E' & K). exists w, t, l. repeat split; auto.
  unfold parses. specialize (K []). rewrite app_nil_r in K.
  rewrite <- E. exact K.
Qed.

Lemma matches_of_parses : forall r p w t l c,
    parses r p w t l ->
    matches r (MState p (w ++ t) c) (MState (prev_after w p) t (l ++ c)).
Proof.
  intros r p w t l c H. unfold parses in H. apply matches_moves in H.
  destruct H as (w' & t' & l' & E & E' & K). inversion E'. subst t'.
  apply app_inv_tail in E. subst w'.
  rewrite app_nil_r in *. subst l'. apply K.
Qed.

Lemma app_eq_self_tail : forall (w t : str), t = w ++ t -> w = [].
Proof.
  intros w t H. apply (f_equal (@length ascii)) in H.
  rewrite length_app in H. destruct w; [reflexivity|simpl in H; lia].
Qed.

Lemma parses_eps : forall p w t l,
    parses Eps p w t l <-> w = [] /\ l = [].
Proof.
  intros. unfold parses. simpl. split.
  - intros H. inversion H as [[H1 H2 H3]]. apply app_eq_self_tail in H2.
    auto.
  - intros (-> & ->). reflexivity.
Qed.

Lemma parses_chr : forall f p w t l,
    parses (Chr f) p w t l <-> exists c, w = [c] /\ f c = true /\ l = [].
Proof.
  intros. unfold parses. simpl. split.
  - intros (c & t' & E & Hf & E'). inversion E' as [[H1 H2 H3]]. subst t'.
    exists c. repeat split; auto.
    change (c :: t) with ([c] ++ t) in E. apply app_inv_tail in E. exact E.
  - intros (c & -> & Hf & ->). exists c, t. auto.
Qed.

Lemma parses_cat : forall r1 r2 p w t l,
    parses (Cat r1 r2) p w t l <->
    exists w1 w2 l1 l2,
      w = w1 ++ w2 /\ l = l2 ++ l1 /\
      parses r1 p w1 (w2 ++ t) l1 /\
      parses r2 (prev_after w1 p) w2 t l2.
Proof.
  intros. split.
  - unfold parses at 1. simpl. intros (st1 & H1 & H2).
    apply parses_of_matches in H1.
    destruct H1 as (w1 & t1 & l1 & E1 & -> & P1).
    apply parses_of_matches in H2.
    destruct H2 as (w2 & t2 & l2 & E2 & E2' & P2).
    inversion E2' as [[Hp Ht Hl]]. subst t2 t1.
    rewrite app_nil_r in Hl. rewrite app_assoc in E1.
    apply app_inv_tail in E1. exists w1, w2, l1, l2.
    rewrite ?app_nil_r in *. auto.
  - intros (w1 & w2 & l1 & l2 & -> & -> & P1 & P2).
    unfold parses. simpl. exists (MState (prev_after w1 p) (w2 ++ t) l1).
    split.
    + rewrite <- app_assoc. exact P1.
    + rewrite prev_after_app.
      apply (matches_of_parses r2 (prev_after w1 p) w2 t l2 l1) in P2.
      exact P2.
Qed.

Lemma parses_alt : forall r1 r2 p w t l,
    parses (Alt r1 r2) p w t l <-> parses r1 p w t l \/ parses r2 p w t l.
Proof. intros. unfold parses. simpl. tauto. Qed.

Lemma parses_group : forall n r p w t l,
    parses (Group n r) p w t l <->
    exists l1, l = (n, w) :: l1 /\ parses r p w t l1.
Proof.
  intros. split.
  - unfold parses at 1. simpl. intros (st1 & H1 & E).
    apply parses_of_matches in H1.
    destruct H1 as (w1 & t1 & l1 & E1 & -> & P1). simpl in E.
    inversion E as [[Hp Ht Hl]]. subst t1. apply app_inv_tail in E1.
    subst w1. rewrite consumed_app, app_nil_r. exists l1. auto.
  - intros (l1 & -> & P1). unfold parses. simpl.
    exists (MState (prev_after w p) t l1). split; [exact P1|].
    simpl. rewrite consumed_app. reflexivity.
Qed.

Lemma parses_look_pos : forall r p w t l,
    parses (Look true r) p w t l <->
    w = [] /\ l = [] /\
    exists w' t' l', t = w' ++ t' /\ parses r p w' t' l'.
Proof.
  intros. split.
  - unfold parses at 1. simpl. intros (E & st1 & H1).
    inversion E as [[Hp Ht Hl]]. apply app_eq_self_tail in Ht. subst w.
    simpl in H1. apply parses_of_matches in H1.
    destruct H1 as (w' & t' & l' & E1 & _ & P1).
    repeat split; auto. exists w', t', l'. auto.
  - intros (-> & -> & w' & t' & l' & -> & P). unfold parses. simpl.
    split; [reflexivity|]. eexists. exact P.
Qed.


Lemma parses_bol : forall p w t l,
    parses Bol p w t l <-> w = [] /\ l = [] /\ p = None.
Proof.
  intros. unfold parses. simpl. split.
  - intros (E & Hp). injection E as H1 H2 H3.
    apply app_eq_self_tail in H2. auto.
  - intros (-> & -> & ->). auto.
Qed.

Lemma parses_eol : forall p w t l,
    parses Eol p w t l <-> w = [] /\ l = [] /\ (t = [] \/ t = [newline]).
Proof.
  intros. unfold parses. simpl. split.
  - intros (E & Hp). injection E as H1 H2 H3.
    apply app_eq_self_tail in H2. subst w. repeat split; auto.
    unfold at_eol in Hp. simpl in Hp. destruct t as [|c [|c' t]]; auto;
      [|discriminate].
    right. apply Ascii.eqb_eq in Hp. subst. reflexivity.
  - intros (-> & -> & [-> | ->]); auto.
Qed.

Lemma parses_wordb : forall p w t l,
    parses WordB p w t l <->
    w = [] /\ l = [] /\ xorb (is_word_opt p) (word_start t) = true.
Proof.
  intros. unfold parses. simpl. split.
  - intros (E & Hp). injection E as H1 H2 H3.
    apply app_eq_self_tail in H2. subst w. repeat split; auto.
  - intros (-> & -> & H). auto.
Qed.

Lemma star_closure_inv : forall R st st',
    star_closure R st st' ->
    st' = st \/
    exists st1,
      R st st1 /\ length (rest st1) < length (rest st) /\
      star_closure R st1 st'.
Proof. intros R st st' H. destruct H; eauto. Qed.

Lemma parses_star : forall g r p w t l,
    parses (Star g r) p w t l <->
    (w = [] /\ l = []) \/
    exists w1 w2 l1 l2,
      w1 <> [] /\ w = w1 ++ w2 /\ l = l2 ++ l1 /\
      parses r p w1 (w2 ++ t) l1 /\
      parses (Star g r) (prev_after w1 p) w2 t l2.
Proof.
  intros. split.
  - unfold parses at 1. simpl. intros H. apply star_closure_inv in H.
    destruct H as [E | (st1 & HR & Hlt & Hc)].
    + left. injection E as Hp Ht Hl. apply app_eq_self_tail in Ht. auto.
    + right. apply parses_of_matches in HR.
      destruct HR as (w1 & t1 & l1 & E1 & -> & P1). simpl in Hlt.
      assert (Hc' : matches (Star g r) (MState (prev_after w1 p) t1 (l1 ++ []))
                      (MState (prev_after w p) t l)) by exact Hc.
      apply parses_of_matches in Hc'.
      destruct Hc' as (w2 & t2 & l2 & E2 & E2' & P2).
      injection E2' as Hp Ht Hl. subst t2 t1. rewrite app_nil_r in Hl.
      rewrite app_assoc in E1. apply app_inv_tail in E1.
      exists w1, w2, l1, l2. repeat split; auto.
      intros ->. rewrite E1 in Hlt. simpl in Hlt. rewrite !length_app in Hlt.
      lia.
  - intros [(-> & ->) | (w1 & w2 & l1 & l2 & Hne & -> & -> & P1 & P2)].
    + unfold parses. simpl. constructor.
    + unfold parses. simpl.
      apply SC_step with (st1 := MState (prev_after w1 p) (w2 ++ t) l1).
      * rewrite <- app_assoc. exact P1.
      * simpl. rewrite !length_app. destruct w1; [congruence|simpl; lia].
      * rewrite prev_after_app.
        apply (matches_of_parses (Star g r) (prev_after w1 p) w2 t l2 l1)
          in P2. exact P2.
Qed.

Lemma parses_star_chr : forall g f p w t l,
    parses (Star g (Chr f)) p w t l <-> forallb f w = true /\ l = [].
Proof.
  intros g f p w. revert p.
  induction w as [|c w IH]; intros p t l; split.
  - intros H. apply parses_star in H.
    destruct H as [(_ & ->) | (w1 & w2 & l1 & l2 & Hne & E & _)]; auto.
    symmetry in E. apply app_eq_nil in E. destruct E. congruence.
  - intros (_ & ->). apply parses_star. left. auto.
  - intros H. apply parses_star in H.
    destruct H as [(E & _) | (w1 & w2 & l1 & l2 & Hne & E & -> & P1 & P2)];
      [discriminate|].
    apply parses_chr in P1. destruct P1 as (x & -> & Hf & ->).
    simpl in E. inversion E; subst. apply IH in P2. destruct P2 as (Hw & ->).
    simpl. rewrite Hf, Hw. auto.
  - intros (Hf & ->). simpl in Hf. apply andb_true_iff in Hf.
    destruct Hf as (Hc & Hw). apply parses_star. right.
    exists [c], w, [], []. repeat split; auto; try discriminate.
    + apply parses_chr. exists c. auto.
    + apply IH. auto.
Qed.

Lemma parses_seq_cons : forall r rs p w t l,
    parses (seq (r :: rs)) p w t l <-> parses (Cat r (seq rs)) p w t l.
Proof.
  intros r rs p w t l. destruct rs as [|r' rs]; [|reflexivity].
  simpl. rewrite parses_cat. split.
  - intros H. exists w, [], l, []. rewrite app_nil_r. simpl.
    repeat split; auto; apply parses_eps; auto.
  - intros (w1 & w2 & l1 & l2 & -> & -> & P1 & P2).
    apply parses_eps in P2. destruct P2 as (-> & ->).
    rewrite app_nil_r. simpl in *. exact P1.
Qed.

Lemma parses_lit : forall f s p w t l,
    parses (seq (map (fun x => Chr (f x)) s)) p w t l <->
    lit_ok f s w = true /\ l = [].
Proof.
  intros f s. induction s as [|x s IH]; intros p w t l.
  - simpl. rewrite parses_eps. destruct w; simpl; split; intros (H1 & H2);
      auto; discriminate.
  - change (map (fun x0 => Chr (f x0)) (x :: s))
      with (Chr (f x) :: map (fun x0 => Chr (f x0)) s).
    rewrite parses_seq_cons, parses_cat. split.
    + intros (w1 & w2 & l1 & l2 & -> & -> & P1 & P2).
      apply parses_chr in P1. destruct P1 as (c & -> & Hf & ->).
      apply IH in P2. destruct P2 as (Hw & ->). simpl.
      rewrite Hf, Hw. auto.
    + intros (Hw & ->). destruct w as [|c w]; [discriminate|]. simpl in Hw.
      apply andb_true_iff in Hw. destruct Hw as (Hf & Hw).
      exists [c], w, [], []. repeat split; auto.
      * apply parses_chr. exists c. auto.
      * apply IH. auto.
Qed.

Lemma parses_ci : forall s p w t l,
    parses (ci s) p w t l <-> lit_ok same_letter s w = true /\ l = [].
Proof. intros. unfold ci. apply parses_lit. Qed.

Lemma lit_ok_eqb : forall s w, lit_ok Ascii.eqb s w = true <-> w = s.
Proof.
  induction s as [|x s IH]; intros [|c w]; simpl; split; intros H;
    try discriminate; auto.
  - apply andb_true_iff in H. destruct H as (H1 & H2).
    apply Ascii.eqb_eq in H1. apply IH in H2. subst. reflexivity.
  - inversion H; subst. rewrite Ascii.eqb_refl. simpl. apply IH. reflexivity.
Qed.

Lemma parses_cs : forall s p w t l,
    parses (cs s) p w t l <-> w = s /\ l = [].
Proof.
  intros. unfold cs. rewrite parses_lit, lit_ok_eqb. reflexivity.
Qed.

Lemma parses_plus_chr : forall f p w t l,
    parses (plus (Chr f)) p w t l <->
    forallb f w = true /\ w <> [] /\ l = [].
Proof.
  intros. unfold plus. rewrite parses_cat. split.
  - intros (w1 & w2 & l1 & l2 & -> & -> & P1 & P2).
    apply parses_chr in P1. destruct P1 as (c & -> & Hf & ->).
    apply parses_star_chr in P2. destruct P2 as (Hw & ->). simpl.
    rewrite Hf, Hw. repeat split; auto. discriminate.
  - intros (Hw & Hne & ->). destruct w as [|c w]; [congruence|].
    simpl in Hw. apply andb_true_iff in Hw. destruct Hw as (Hf & Hw).
    exists [c], w, [], []. repeat split; auto.
    + apply parses_chr. exists c. auto.
    + apply parses_star_chr. auto.
Qed.

Lemma parses_lazy_plus_chr : forall f p w t l,
    parses (lazy_plus (Chr f)) p w t l <->
    forallb f w = true /\ w <> [] /\ l = [].
Proof.
  intros. unfold lazy_plus. rewrite parses_cat. split.
  - intros (w1 & w2 & l1 & l2 & -> & -> & P1 & P2).
    apply parses_chr in P1. destruct P1 as (c & -> & Hf & ->).
    apply parses_star_chr in P2. destruct P2 as (Hw & ->). simpl.
    rewrite Hf, Hw. repeat split; auto. discriminate.
  - intros (Hw & Hne & ->). destruct w as [|c w]; [congruence|].
    simpl in Hw. apply andb_true_iff in Hw. destruct Hw as (Hf & Hw).
    exists [c], w, [], []. repeat split; auto.
    + apply parses_chr. exists c. auto.
    + apply parses_star_chr. auto.
Qed.

Lemma parses_opt : forall r p w t l,
    parses (opt r) p w t l <-> parses r p w t l \/ (w = [] /\ l = []).
Proof. intros. unfold opt. rewrite parses_alt, parses_eps. reflexivity. Qed.

(** ** What [re.match] and [re.search] return *)

Lemma match_at_some : forall r pre_rev s m,
    match_at r pre_rev s = Some m ->
    exists w t l,
      s = w ++ t /\ m = RMatch (rev pre_rev) w t l /\
      parses r (hd_error pre_rev) w t l.
Proof.
  intros r pre_rev s m H. unfold match_at in H.
  destruct (exec r _ _) as [st1|] eqn:E; [|discriminate].
  apply exec_top_sound in E. apply parses_of_matches in E.
  destruct E as (w & t & l & Es & -> & P). inversion H; subst.
  exists w, t, l. rewrite consumed_app, app_nil_r. auto.
Qed.

Lemma match_at_none : forall r pre_rev w t l,
    match_at r pre_rev (w ++ t) = None ->
    ~ parses r (hd_error pre_rev) w t l.
Proof.
  intros r pre_rev w t l H P. unfold match_at in H.
  destruct (exec r _ _) as [st1|] eqn:E; [discriminate|].
  exact (exec_top_none r _ E _ P).
Qed.

Lemma match_at_complete : forall r pre_rev w t l,
    parses r (hd_error pre_rev) w t l ->
    match_at r pre_rev (w ++ t) <> None.
Proof.
  intros r pre_rev w t l P H. exact (match_at_none r pre_rev w t l H P).
Qed.

Lemma hd_error_rev_app : forall u pre_rev,
    hd_error (rev u ++ pre_rev) = prev_after u (hd_error pre_rev).
Proof.
  intros. unfold prev_after. destruct (rev u); reflexivity.
Qed.

Lemma search_from_some : forall r s pre_rev m,
    search_from r pre_rev s = Some m ->
    exists u w t l,
      s = u ++ w ++ t /\ m = RMatch (rev pre_rev ++ u) w t l /\
      parses r (prev_after u (hd_error pre_rev)) w t l /\
      forall u1 u2, u = u1 ++ u2 -> u2 <> [] ->
                    match_at r (rev u1 ++ pre_rev) (u2 ++ w ++ t) = None.
Proof.
  intros r s. induction s as [|c s IH]; intros pre_rev m H; simpl in H.
  - destruct (match_at r pre_rev []) eqn:E; [|discriminate].
    inversion H; subst. apply match_at_some in E.
    destruct E as (w & t & l & Es & -> & P). exists [], w, t, l.
    rewrite app_nil_r. repeat split; auto.
    intros u1 u2 Hu Hne. symmetry in Hu. apply app_eq_nil in Hu.
    destruct Hu. congruence.
  - destruct (match_at r pre_rev (c :: s)) eqn:E.
    + inversion H; subst. apply match_at_some in E.
      destruct E as (w & t & l & Es & -> & P). exists [], w, t, l.
      rewrite app_nil_r. repeat split; auto.
      intros u1 u2 Hu Hne. symmetry in Hu. apply app_eq_nil in Hu.
      destruct Hu. congruence.
    + apply IH in H. destruct H as (u & w & t & l & Es & -> & P & Hl).
      exists (c :: u), w, t, l. subst s. simpl.
      rewrite <- app_assoc. simpl. repeat split; auto.
      * rewrite <- hd_error_rev_app. rewrite <- hd_error_rev_app in P.
        simpl. rewrite <- app_assoc. exact P.
      * intros u1 u2 Hu Hne. destruct u1 as [|c1 u1].
        -- simpl in Hu. subst u2. simpl. exact E.
        -- simpl in Hu. inversion Hu; subst. simpl. rewrite <- app_assoc.
           simpl. apply Hl; auto.
Qed.

Lemma search_from_none : forall r s pre_rev,
    search_from r pre_rev s = None ->
    forall u v, s = u ++ v -> match_at r (rev u ++ pre_rev) v = None.
Proof.
  intros r s. induction s as [|c s IH]; intros pre_rev H u v Hs; simpl in H.
  - symmetry in Hs. apply app_eq_nil in Hs. destruct Hs; subst. simpl.
    destruct (match_at r pre_rev []); [discriminate|reflexivity].
  - destruct (match_at r pre_rev (c :: s)) eqn:E; [discriminate|].
    destruct u as [|c1 u]; simpl in Hs.
    + subst v. exact E.
    + inversion Hs; subst. simpl. rewrite <- app_assoc. simpl.
      apply IH; auto.
Qed.

Lemma re_match_some : forall r s m,
    re_match r s = Some m ->
    exists w t l, s = w ++ t /\ m = RMatch [] w t l /\ parses r None w t l.
Proof. intros r s m H. apply match_at_some in H. exact H. Qed.

Lemma re_match_none : forall r w t l,
    re_match r (w ++ t) = None -> ~ parses r None w t l.
Proof. intros r w t l H. exact (match_at_none r [] w t l H). Qed.

Lemma re_search_some : forall r s m,
    re_search r s = Some m ->
    exists u w t l,
      s = u ++ w ++ t /\ m = RMatch u w t l /\
      parses r (prev_after u None) w t l.
Proof.
  intros r s m H. apply search_from_some in H.
  destruct H as (u & w & t & l & Es & -> & P & _). exists u, w, t, l. auto.
Qed.

Lemma re_search_none : forall r u w t l,
    re_search r (u ++ w ++ t) = None -> ~ parses r (prev_after u None) w t l.
Proof.
  intros r u w t l H P.
  apply search_from_none with (u := u) (v := w ++ t) in H; [|reflexivity].
  apply (match_at_none r (rev u ++ []) w t l H).
  rewrite hd_error_rev_app. exact P.
Qed.

(** ** Groups that every match closes *)

Lemma assoc_app : forall n l2 l1,
    assoc n (l2 ++ l1) =
    match assoc n l2 with Some s => Some s | None => assoc n l1 end.
Proof.
  intros n l2 l1. induction l2 as [|[i s] l2 IH]; simpl; [reflexivity|].
  destruct (Nat.eqb i n); auto.
Qed.

Lemma parses_sets : forall n r p w t l,
    parses r p w t l -> sets n r = true -> assoc n l <> None.
Proof.
  intros n r.
  induction r as [|f|r1 IH1 r2 IH2|r1 IH1 r2 IH2|g r1 IH|i r1 IH|b r1 IH| | |];
    intros p w t l P Hs; simpl in Hs; try discriminate.
  - apply parses_cat in P.
    destruct P as (w1 & w2 & l1 & l2 & -> & -> & P1 & P2).
    rewrite assoc_app. apply orb_true_iff in Hs. destruct Hs as [Hs|Hs].
    + destruct (assoc n l2); [discriminate|]. eapply IH1; eauto.
    + specialize (IH2 _ _ _ _ P2 Hs). destruct (assoc n l2);
        [discriminate|contradiction].
  - apply parses_alt in P. apply andb_true_iff in Hs.
    destruct Hs as (Hs1 & Hs2). destruct P as [P|P]; eauto.
  - apply parses_group in P. destruct P as (l1 & -> & P). simpl.
    destruct (Nat.eqb i n) eqn:E; [discriminate|]. simpl in Hs.
    eapply IH; eauto.
Qed.

Lemma search_group : forall n r s m,
    re_search r s = Some m -> sets n r = true ->
    exists g, group n m = Some g.
Proof.
  intros n r s m H Hs. apply re_search_some in H.
  destruct H as (u & w & t & l & _ & -> & P). unfold group. simpl.
  pose proof (parses_sets n r _ _ _ _ P Hs) as Hn.
  destruct (assoc n l) as [g|]; [exists g; reflexivity|contradiction].
Qed.

Lemma match_group : forall n r s m,
    re_match r s = Some m -> sets n r = true ->
    exists g, group n m = Some g.
Proof.
  intros n r s m H Hs. apply re_match_some in H.
  destruct H as (w & t & l & _ & -> & P). unfold group. simpl.
  pose proof (parses_sets n r _ _ _ _ P Hs) as Hn.
  destruct (assoc n l) as [g|]; [exists g; reflexivity|contradiction].
Qed.

Lemma span_unique_gen : forall f (u v x y : str),
    forallb f u = true -> forallb f v = true ->
    stops f x = true -> stops f y = true ->
    u ++ x = v ++ y -> u = v /\ x = y.
Proof.
  intros f. induction u as [|c u IH]; intros [|d v] x y Hu Hv Hx Hy E;
    simpl in *.
  - auto.
  - subst x. simpl in Hx. apply andb_true_iff in Hv. destruct Hv as (Hd & _).
    rewrite Hd in Hx. discriminate.
  - subst y. simpl in Hy. apply andb_true_iff in Hu. destruct Hu as (Hc & _).
    rewrite Hc in Hy. discriminate.
  - injection E as -> E. apply andb_true_iff in Hu, Hv.
    destruct Hu as (_ & Hu). destruct Hv as (_ & Hv).
    destruct (IH v x y Hu Hv Hx Hy E) as (-> & ->). auto.
Qed.

(** ** Following the matcher through a sequence *)

Lemma exec_cat_peel : forall r1 r2 p s c k res,
    exec (Cat r1 r2) (MState p s c) k = Some res ->
    exists w t l,
      s = w ++ t /\ parses r1 p w t l /\
      exec r2 (MState (prev_after w p) t (l ++ c)) k = Some res.
Proof.
  intros r1 r2 p s c k res H. simpl in H. apply exec_sound in H.
  destruct H as (st1 & Hm & H). apply parses_of_matches in Hm.
  destruct Hm as (w & t & l & -> & -> & P). exists w, t, l. auto.
Qed.

Lemma run_rest_after : forall f s, s = run f s ++ rest_after f s.
Proof.
  intros f. induction s as [|c s IH]; simpl; [reflexivity|].
  destruct (f c); simpl; [f_equal; exact IH|reflexivity].
Qed.

Lemma run_forallb : forall f s, forallb f (run f s) = true.
Proof.
  intros f. induction s as [|c s IH]; simpl; [reflexivity|].
  destruct (f c) eqn:E; simpl; [rewrite E; exact IH|reflexivity].
Qed.

Lemma rest_after_stops : forall f s, stops f (rest_after f s) = true.
Proof.
  intros f. induction s as [|c s IH]; simpl; [reflexivity|].
  destruct (f c) eqn:E; [exact IH|simpl; rewrite E; reflexivity].
Qed.

Lemma run_unique : forall f w t,
    forallb f w = true -> stops f t = true ->
    run f (w ++ t) = w /\ rest_after f (w ++ t) = t.
Proof.
  intros f w t Hw Ht.
  apply (span_unique_gen f); auto using run_forallb, rest_after_stops.
  symmetry. apply run_rest_after.
Qed.

Lemma prev_after_cons : forall c w p,
    prev_after (c :: w) p = prev_after w (Some c).
Proof.
  intros c w p. change (c :: w) with ([c] ++ w). apply prev_after_app.
Qed.

(** A greedy repetition of a character class takes the whole run when
    what follows accepts it. *)
Lemma star_loop_greedy : forall f k fuel st res,
    length (rest st) <= fuel ->
    k (MState (prev_after (run f (rest st)) (prev st))
         (rest_after f (rest st)) (caps st)) = Some res ->
    star_loop (exec (Chr f)) true k fuel st = Some res.
Proof.
  intros f k fuel. induction fuel as [|fuel IH]; intros [p s c] res Hl Hk.
  - destruct s; [|simpl in Hl; lia]. cbn. exact Hk.
  - cbn [star_loop]. destruct s as [|x s].
    + cbn. exact Hk.
    + cbn [exec rest caps prev]. cbn [run rest_after rest prev caps] in Hk.
      destruct (f x) eqn:E.
      * assert (Hlt : (length s <? length (x :: s)) = true)
          by (apply Nat.ltb_lt; simpl; lia).
        rewrite Hlt.
        assert (H' : star_loop (exec (Chr f)) true k fuel
                       (MState (Some x) s c) = Some res).
        { apply IH.
          - simpl in Hl |- *. lia.
          - cbn [rest prev caps]. rewrite prev_after_cons in Hk. exact Hk. }
        cbn [exec] in H'. rewrite H'. reflexivity.
      * exact Hk.
Qed.

Lemma exec_star_greedy : forall f k st res,
    k (MState (prev_after (run f (rest st)) (prev st))
         (rest_after f (rest st)) (caps st)) = Some res ->
    exec (Star true (Chr f)) st k = Some res.
Proof. intros. simpl. apply star_loop_greedy; auto. Qed.

(** A closing group [(f+)] at the end of a pattern captures the whole
    run. *)
Lemma exec_last_group : forall n f p s c res,
    exec (Group n (plus (Chr f))) (MState p s c) (fun st => Some st)
    = Some res ->
    run f s <> [] /\
    res = MState (prev_after (run f s) p) (rest_after f s)
            ((n, run f s) :: c).
Proof.
  intros n f p s c res H. unfold plus in H. cbn [exec rest caps prev] in H.
  destruct s as [|x s]; [discriminate|]. cbn [run rest_after].
  destruct (f x) eqn:E; [|discriminate].
  split; [discriminate|].
  match type of H with
  | context [star_loop _ true ?K ?fu ?st0] =>
      assert (H' : exists res',
                 star_loop (exec (Chr f)) true K fu st0 = Some res' /\
                 K (MState (prev_after (run f (rest st0)) (prev st0))
                      (rest_after f (rest st0)) (caps st0)) = Some res')
  end.
  { eexists. split; [|reflexivity].
    apply star_loop_greedy; [cbn; lia|reflexivity]. }
  destruct H' as (res' & H1 & H2). cbn [exec] in H1. rewrite H1 in H.
  injection H as <-. cbn [rest prev caps] in H2. injection H2 as <-.
  rewrite prev_after_cons. f_equal. f_equal. f_equal.
  rewrite (run_rest_after f s) at 1.
  change (x :: run f s ++ rest_after f s)
    with ((x :: run f s) ++ rest_after f s).
  apply consumed_app.
Qed.

(** ** What [re.sub] returns *)



(** * Characters and strings *)

Ltac all_ascii c :=
  destruct c as [[|] [|] [|] [|] [|] [|] [|] [|]].

Lemma word_not_space : forall c, is_word c = true -> is_space c = false.
Proof. intros c. all_ascii c; vm_compute; congruence. Qed.

Lemma ident_not_space : forall c,
    is_word_or_dot c = true -> is_space c = false.
Proof. intros c. all_ascii c; vm_compute; congruence. Qed.

Lemma digit_is_word : forall c, is_digit c = true -> is_word c = true.
Proof. intros c. all_ascii c; vm_compute; congruence. Qed.

Lemma word_is_ident : forall c, is_word c = true -> is_word_or_dot c = true.
Proof. intros c H. unfold is_word_or_dot. rewrite H. reflexivity. Qed.

Lemma is_word_upper : forall c, is_word (upper_char c) = is_word c.
Proof. intros c. all_ascii c; vm_compute; congruence. Qed.

Lemma is_space_upper : forall c, is_space (upper_char c) = is_space c.
Proof. intros c. all_ascii c; vm_compute; congruence. Qed.

Lemma upper_char_idem : forall c, upper_char (upper_char c) = upper_char c.
Proof. intros c. all_ascii c; vm_compute; congruence. Qed.

Lemma same_letter_upper : forall x c,
    same_letter x c = true -> upper_char c = upper_char x.
Proof. intros x c H. apply Ascii.eqb_eq in H. exact H. Qed.

Lemma same_letter_word : forall x c,
    same_letter x c = true -> is_word c = is_word x.
Proof.
  intros x c H. apply same_letter_upper in H.
  rewrite <- (is_word_upper c), H. apply is_word_upper.
Qed.

Lemma same_letter_space : forall x c,
    same_letter x c = true -> is_space c = is_space x.
Proof.
  intros x c H. apply same_letter_upper in H.
  rewrite <- (is_space_upper c), H. apply is_space_upper.
Qed.

Lemma lit_ok_length : forall f s w,
    lit_ok f s w = true -> length w = length s.
Proof.
  induction s as [|x s IH]; intros [|c w] H; simpl in *; try discriminate;
    auto.
  apply andb_true_iff in H. destruct H as (_ & H). f_equal. auto.
Qed.

Lemma lit_ok_upper : forall s w,
    lit_ok same_letter s w = true -> upper w = upper s.
Proof.
  induction s as [|x s IH]; intros [|c w] H; simpl in *; try discriminate;
    auto.
  apply andb_true_iff in H. destruct H as (H1 & H2).
  apply same_letter_upper in H1. rewrite H1. f_equal. auto.
Qed.

Lemma lit_ok_refl : forall s, lit_ok same_letter s s = true.
Proof.
  induction s as [|x s IH]; simpl; auto.
  rewrite IH. unfold same_letter. rewrite Ascii.eqb_refl. reflexivity.
Qed.

(** Two ways of cutting a text after a run of [f]-characters, both at a
    place where the run cannot go on, are the same. *)
Lemma span_unique : forall f u v x y,
    forallb f u = true -> forallb f v = true ->
    stops f x = true -> stops f y = true ->
    u ++ x = v ++ y -> u = v /\ x = y.
Proof. exact span_unique_gen. Qed.

Lemma stops_app : forall f u x,
    u <> [] -> stops f u = true -> stops f (u ++ x) = true.
Proof. intros f [|c u] x Hne H; [congruence|exact H]. Qed.

Lemma stops_class : forall f g u,
    (forall c, g c = true -> f c = false) ->
    forallb g u = true -> u <> [] -> stops f u = true.
Proof.
  intros f g [|c u] Hfg Hu Hne; [congruence|]. simpl in *.
  apply andb_true_iff in Hu. destruct Hu as (Hc & _).
  rewrite (Hfg c Hc). reflexivity.
Qed.

(** After a run of [g]-characters that may be empty, followed by a text
    that stops [f], the whole stops [f] when no [g]-character is in [f]. *)
Lemma stops_skip : forall f g u x,
    (forall c, g c = true -> f c = false) ->
    forallb g u = true -> stops f x = true -> stops f (u ++ x) = true.
Proof.
  intros f g [|c u] x Hfg Hu Hx; [exact Hx|]. simpl in *.
  apply andb_true_iff in Hu. destruct Hu as (Hc & _).
  rewrite (Hfg c Hc). reflexivity.
Qed.

Lemma forallb_app_iff : forall (f : ascii -> bool) u v,
    forallb f (u ++ v) = true <-> forallb f u = true /\ forallb f v = true.
Proof. intros. rewrite forallb_app, andb_true_iff. reflexivity. Qed.

Lemma is_identifier_spec : forall s,
    is_identifier s = true <-> s <> [] /\ forallb is_word_or_dot s = true.
Proof.
  intros [|c s]; simpl; split.
  - discriminate.
  - intros (H & _). congruence.
  - intros H. split; [discriminate|exact H].
  - intros (_ & H). exact H.
Qed.

(** ** Decimal numerals *)

Lemma digits_of_uint : forall d,
    forallb is_digit
      (list_ascii_of_string (DecimalString.NilEmpty.string_of_uint d)) = true.
Proof. induction d; simpl; auto. Qed.

Lemma isdigit_of_uint : forall d,
    isdigit (list_ascii_of_string (DecimalString.NilZero.string_of_uint d))
    = true.
Proof.
  intros d. unfold DecimalString.NilZero.string_of_uint.
  destruct d; try reflexivity; unfold isdigit;
    pose proof (digits_of_uint) as H;
    match goal with
    | |- context [DecimalString.NilEmpty.string_of_uint ?u] =>
        specialize (H u)
    end;
    simpl in *; exact H.
Qed.

Lemma isdigit_str_of_nat : forall n, isdigit (str_of_nat n) = true.
Proof. intros n. apply isdigit_of_uint. Qed.



(** ** Substrings *)

Lemma starts_with_iff : forall p s,
    starts_with p s = true <-> exists t, s = p ++ t.
Proof.
  induction p as [|x p IH]; intros s; simpl.
  - split; [intros _; exists s; reflexivity|auto].
  - destruct s as [|y s].
    + split; [discriminate|intros (t & E); discriminate].
    + rewrite andb_true_iff, IH. split.
      * intros (E & t & ->). apply Ascii.eqb_eq in E. subst. exists t.
        reflexivity.
      * intros (t & E). injection E as -> ->. split;
          [apply Ascii.eqb_refl|exists t; reflexivity].
Qed.

Lemma contains_iff : forall needle s,
    contains needle s = true <-> exists u v, s = u ++ needle ++ v.
Proof.
  intros needle s. induction s as [|c s IH].
  - simpl. rewrite orb_false_r, starts_with_iff. split.
    + intros (t & E). exists [], t. exact E.
    + intros (u & v & E). destruct u; simpl in E.
      * exists v. exact E.
      * discriminate.
  - simpl. rewrite orb_true_iff, starts_with_iff, IH. split.
    + intros [(t & E) | (u & v & E)].
      * exists [], t. exact E.
      * exists (c :: u), v. simpl. rewrite E. reflexivity.
    + intros (u & v & E). destruct u as [|d u]; simpl in E.
      * left. exists v. exact E.
      * right. injection E as -> E. exists u, v. exact E.
Qed.

Lemma contains_substring : forall needle a b,
    substring a b -> contains needle a = true -> contains needle b = true.
Proof.
  intros needle a b (u & v & ->) H. apply contains_iff in H.
  destruct H as (x & y & ->). apply contains_iff.
  exists (u ++ x), (y ++ v). rewrite <- !app_assoc. reflexivity.
Qed.

Lemma substring_refl : forall a, substring a a.
Proof. intros a. exists [], []. rewrite app_nil_r. reflexivity. Qed.

Lemma substring_trans : forall a b c,
    substring a b -> substring b c -> substring a c.
Proof.
  intros a b c (u & v & ->) (x & y & ->).
  exists (x ++ u), (v ++ y). rewrite <- !app_assoc. reflexivity.
Qed.

Lemma lstrip_suffix : forall s, exists u, s = u ++ lstrip s.
Proof.
  induction s as [|c s (u & IH)]; simpl.
  - exists []. reflexivity.
  - destruct (is_space c).
    + exists (c :: u). simpl. rewrite <- IH. reflexivity.
    + exists []. reflexivity.
Qed.

Lemma rstrip_prefix : forall s, exists v, s = rstrip s ++ v.
Proof.
  intros s. unfold rstrip. destruct (lstrip_suffix (rev s)) as (u & E).
  exists (rev u). rewrite <- rev_app_distr, <- E, rev_involutive.
  reflexivity.
Qed.

Lemma strip_substring : forall s, substring (strip s) s.
Proof.
  intros s. unfold strip. destruct (lstrip_suffix s) as (u & E).
  destruct (rstrip_prefix (lstrip s)) as (v & E').
  exists u, v. rewrite <- E'. exact E.
Qed.

Lemma upper_app : forall a b, upper (a ++ b) = upper a ++ upper b.
Proof. intros. apply map_app. Qed.

Lemma upper_substring : forall a b,
    substring a b -> substring (upper a) (upper b).
Proof.
  intros a b (u & v & ->). exists (upper u), (upper v).
  rewrite !upper_app. reflexivity.
Qed.

Lemma upper_split : forall s x y,
    upper s = x ++ y ->
    exists a b, s = a ++ b /\ upper a = x /\ upper b = y.
Proof.
  intros s x. revert s. induction x as [|c x IH]; intros s y E.
  - exists [], s. auto.
  - destruct s as [|d s]; [discriminate|]. simpl in E.
    injection E as Hc E. apply IH in E. destruct E as (a & b & -> & <- & <-).
    exists (d :: a), b. simpl. rewrite Hc. auto.
Qed.

Lemma upper_lit_ok : forall s w,
    upper w = upper s -> lit_ok same_letter s w = true.
Proof.
  induction s as [|x s IH]; intros [|c w] E; simpl in *; try discriminate;
    auto.
  injection E as E1 E2. rewrite (IH w E2). unfold same_letter.
  rewrite E1, Ascii.eqb_refl. reflexivity.
Qed.

Lemma contains_length : forall needle s,
    contains needle s = true -> length needle <= length s.
Proof.
  intros needle s H. apply contains_iff in H. destruct H as (u & v & ->).
  rewrite !length_app. lia.
Qed.

(** * Join inference *)

(** Breaking a [parses] hypothesis into facts about words. *)
Ltac unfold_atoms :=
  unfold ws, wordc, digit, ident_char, cmp_char, dot_any, dot_line, opt_as,
    before, kw2, kw3, star, lazy_star in *.

Ltac inv_parses_step :=
  match goal with
  | H : parses (seq _) _ _ _ _ |- _ => progress cbn [seq] in H
  | H : parses Eps _ _ _ _ |- _ =>
      apply parses_eps in H; destruct H as (? & ?)
  | H : parses (Cat _ _) _ _ _ _ |- _ =>
      apply parses_cat in H; destruct H as (? & ? & ? & ? & ? & ? & ? & ?)
  | H : parses (Star _ (Chr _)) _ _ _ _ |- _ =>
      apply parses_star_chr in H; destruct H as (? & ?)
  | H : parses (plus (Chr _)) _ _ _ _ |- _ =>
      apply parses_plus_chr in H; destruct H as (? & ? & ?)
  | H : parses (lazy_plus (Chr _)) _ _ _ _ |- _ =>
      apply parses_lazy_plus_chr in H; destruct H as (? & ? & ?)
  | H : parses (Chr _) _ _ _ _ |- _ =>
      apply parses_chr in H; destruct H as (? & ? & ? & ?)
  | H : parses (ci _) _ _ _ _ |- _ =>
      apply parses_ci in H; destruct H as (? & ?)
  | H : parses (cs _) _ _ _ _ |- _ =>
      apply parses_cs in H; destruct H as (? & ?)
  | H : parses (Group _ _) _ _ _ _ |- _ =>
      apply parses_group in H; destruct H as (? & ? & ?)
  | H : parses Eol _ _ _ _ |- _ =>
      apply parses_eol in H; destruct H as (? & ? & ?)
  | H : parses Bol _ _ _ _ |- _ =>
      apply parses_bol in H; destruct H as (? & ? & ?)
  | H : parses WordB _ _ _ _ |- _ =>
      apply parses_wordb in H; destruct H as (? & ? & ?)
  | H : parses (opt _) _ _ _ _ |- _ =>
      apply parses_opt in H; destruct H as [? | (? & ?)]
  | H : parses (Alt _ _) _ _ _ _ |- _ =>
      apply parses_alt in H; destruct H as [? | ?]
  end.

Ltac inv_parses := unfold_atoms; repeat inv_parses_step; subst.

(** Building a [parses] fact for a text written as the concatenation of
    the words of the pattern's parts. *)
Ltac build_parses_step :=
  match goal with
  | |- parses (seq _) _ _ _ _ => progress cbn [seq]
  | |- parses (Cat _ _) _ _ _ _ =>
      apply parses_cat; do 4 eexists;
      split; [reflexivity|split; [reflexivity|split]]
  | |- parses (Star _ (Chr _)) _ _ _ _ =>
      apply parses_star_chr; split; [|reflexivity]
  | |- parses (plus (Chr _)) _ _ _ _ =>
      apply parses_plus_chr; split; [|split; [|reflexivity]]
  | |- parses (ci _) _ _ _ _ =>
      apply parses_ci; split; [|reflexivity]
  | |- parses (cs _) _ _ _ _ =>
      apply parses_cs; split; reflexivity
  | |- parses (Group _ _) _ _ _ _ =>
      apply parses_group; eexists; split; [reflexivity|]
  | |- parses Eol _ _ _ _ =>
      apply parses_eol; split; [reflexivity|split; [reflexivity|]]
  | |- parses Bol _ _ _ _ =>
      apply parses_bol; split; [reflexivity|split; [reflexivity|]]
  | |- parses WordB _ _ _ _ =>
      apply parses_wordb; split; [reflexivity|split; [reflexivity|]]
  end.

Ltac build_parses := unfold_atoms; repeat build_parses_step.

(** The words of a match of [re_prior_left]. *)
Lemma prior_left_shape : forall p w t l,
    parses re_prior_left p w t l ->
    exists w0 P w1 g1 w2 w3 g2 w4,
      w = w0 ++ P ++ w1 ++ g1 ++ w2 ++ "=" ++ w3 ++ g2 ++ w4 /\
      l = [(2, g2); (1, g1)] /\
      forallb is_space w0 = true /\
      lit_ok same_letter "PRIOR" P = true /\
      forallb is_space w1 = true /\ w1 <> [] /\
      is_identifier g1 = true /\
      forallb is_space w2 = true /\
      forallb is_space w3 = true /\
      is_identifier g2 = true /\
      forallb is_space w4 = true /\
      (t = [] \/ t = [newline]).
Proof.
  intros p w t l H. unfold re_prior_left in H. inv_parses.
  do 8 eexists. split; [reflexivity|]. simpl. rewrite ?app_nil_r.
  split; [reflexivity|].
  repeat split; auto; apply is_identifier_spec; auto.
Qed.

(** The words of a match of [re_prior_right]. *)
Lemma prior_right_shape : forall p w t l,
    parses re_prior_right p w t l ->
    exists w0 g1 w1 w2 P w3 g2 w4,
      w = w0 ++ g1 ++ w1 ++ "=" ++ w2 ++ P ++ w3 ++ g2 ++ w4 /\
      l = [(2, g2); (1, g1)] /\
      forallb is_space w0 = true /\
      is_identifier g1 = true /\
      forallb is_space w1 = true /\
      forallb is_space w2 = true /\
      lit_ok same_letter "PRIOR" P = true /\
      forallb is_space w3 = true /\ w3 <> [] /\
      is_identifier g2 = true /\
      forallb is_space w4 = true /\
      (t = [] \/ t = [newline]).
Proof.
  intros p w t l H. unfold re_prior_right in H. inv_parses.
  do 8 eexists. split; [reflexivity|]. simpl. rewrite ?app_nil_r.
  split; [reflexivity|].
  repeat split; auto; apply is_identifier_spec; auto.
Qed.

Lemma lit_ok_cons : forall f x s w,
    lit_ok f (x :: s) w = true ->
    exists c w', w = c :: w' /\ f x c = true /\ lit_ok f s w' = true.
Proof.
  intros f x s [|c w] H; simpl in H; [discriminate|].
  apply andb_true_iff in H. exists c, w. tauto.
Qed.

Lemma lit_ok_nil : forall f w, lit_ok f [] w = true -> w = [].
Proof. intros f [|c w] H; [reflexivity|discriminate]. Qed.

(** Splitting a literal matched under IGNORECASE into its characters. *)
Ltac lit_chars H :=
  cbn [list_ascii_of_string] in H;
  repeat (apply lit_ok_cons in H;
          let c := fresh "c" in
          let Hc := fresh "Hc" in
          destruct H as (c & ? & -> & Hc & H));
  apply lit_ok_nil in H; subst.

Lemma identifier_stops_space : forall g x,
    is_identifier g = true -> stops is_space (g ++ x) = true.
Proof.
  intros g x H. apply is_identifier_spec in H. destruct H as (Hne & H).
  apply stops_app; [exact Hne|].
  apply stops_class with (g := is_word_or_dot); auto using ident_not_space.
Qed.

Lemma space_not_ident : forall c,
    is_space c = true -> is_word_or_dot c = false.
Proof. intros c. all_ascii c; vm_compute; congruence. Qed.

Lemma end_stops : forall f w t,
    (forall c, is_space c = true -> f c = false) ->
    forallb is_space w = true -> (t = [] \/ t = [newline]) ->
    stops f (w ++ t) = true.
Proof.
  intros f w t Hf Hw Ht. apply stops_skip with (g := is_space); auto.
  destruct Ht as [-> | ->]; [reflexivity|]. simpl.
  rewrite Hf; reflexivity.
Qed.

Lemma prior_left_parses : forall a b,
    is_identifier a = true -> is_identifier b = true ->
    exists l, parses re_prior_left None ("PRIOR " ++ a ++ " = " ++ b) [] l.
Proof.
  intros a b Ha Hb. apply is_identifier_spec in Ha, Hb.
  destruct Ha as (Hane & Ha). destruct Hb as (Hbne & Hb). eexists.
  replace (list_ascii_of_string "PRIOR " ++ a ++ list_ascii_of_string " = " ++ b)
    with ([] ++ list_ascii_of_string "PRIOR" ++ list_ascii_of_string " " ++ a
          ++ list_ascii_of_string " " ++ list_ascii_of_string "="
          ++ list_ascii_of_string " " ++ b ++ [] ++ [])
    by (simpl; rewrite ?app_nil_r; reflexivity).
  unfold re_prior_left. build_parses; auto; try reflexivity;
    try discriminate.
Qed.

Lemma prior_right_parses : forall a b,
    is_identifier a = true -> is_identifier b = true ->
    exists l, parses re_prior_right None (b ++ " = PRIOR " ++ a) [] l.
Proof.
  intros a b Ha Hb. apply is_identifier_spec in Ha, Hb.
  destruct Ha as (Hane & Ha). destruct Hb as (Hbne & Hb). eexists.
  replace (b ++ list_ascii_of_string " = PRIOR " ++ a)
    with ([] ++ b ++ list_ascii_of_string " " ++ list_ascii_of_string "="
          ++ list_ascii_of_string " " ++ list_ascii_of_string "PRIOR"
          ++ list_ascii_of_string " " ++ a ++ [] ++ [])
    by (simpl; rewrite ?app_nil_r; reflexivity).
  unfold re_prior_right. build_parses; auto; try reflexivity;
    try discriminate.
Qed.

Lemma stops_ident_after : forall w x,
    forallb is_space w = true -> stops is_word_or_dot (w ++ "="%char :: x) = true.
Proof.
  intros w x Hw. apply stops_skip with (g := is_space);
    auto using space_not_ident.
Qed.

Lemma span_unique_one : forall f c v x y,
    f c = true -> forallb f v = true ->
    stops f x = true -> stops f y = true ->
    c :: x = v ++ y -> v = [c] /\ x = y.
Proof.
  intros f c v x y Hc Hv Hx Hy E.
  destruct (span_unique f [c] v x y) as (E1 & E2); auto.
  simpl. rewrite Hc. reflexivity.
Qed.

Lemma identifier_stops_space' : forall g,
    is_identifier g = true -> stops is_space g = true.
Proof.
  intros g H. rewrite <- (app_nil_r g). apply identifier_stops_space, H.
Qed.

(** [PRIOR a = b] is matched by the first pattern, which captures [a] and
    [b]. *)
Lemma match_prior_left : forall a b,
    is_identifier a = true -> is_identifier b = true ->
    exists m,
      re_match re_prior_left ("PRIOR " ++ a ++ " = " ++ b) = Some m /\
      group 1 m = Some a /\ group 2 m = Some b.
Proof.
  intros a b Ha Hb.
  destruct (re_match re_prior_left ("PRIOR " ++ a ++ " = " ++ b))
    as [m|] eqn:E.
  2:{ exfalso. destruct (prior_left_parses a b Ha Hb) as (l & P).
      apply (match_at_complete re_prior_left [] _ [] l P).
      rewrite app_nil_r. exact E. }
  exists m. split; [reflexivity|].
  apply re_match_some in E. destruct E as (w & t & l & Es & -> & P).
  apply prior_left_shape in P.
  destruct P as (w0 & P & w1 & g1 & w2 & w3 & g2 & w4 & -> & -> & H0 & HP
                 & H1 & H1ne & Hg1 & H2 & H3 & Hg2 & H4 & Ht).
  unfold group. simpl.
  lit_chars HP. rewrite <- !app_assoc in Es. simpl in Es.
  (* leading blanks *)
  apply (span_unique is_space [] w0) in Es; auto;
    [|simpl; rewrite (same_letter_space _ _ Hc); reflexivity].
  destruct Es as (<- & Es). simpl in Es.
  injection Es as _ _ _ _ _ Es.
  (* the blank after PRIOR *)
  apply (span_unique_one is_space) in Es; auto;
    try (apply identifier_stops_space; assumption).
  destruct Es as (-> & Es).
  (* the first identifier *)
  pose proof Ha as Ha'. pose proof Hb as Hb'.
  pose proof Hg1 as Hg1'. pose proof Hg2 as Hg2'.
  apply is_identifier_spec in Ha', Hb', Hg1', Hg2'.
  apply (span_unique is_word_or_dot) in Es; try tauto;
    [|apply stops_ident_after; assumption].
  destruct Es as (<- & Es).
  apply (span_unique_one is_space) in Es; auto.
  destruct Es as (-> & Es). injection Es as Es.
  apply (span_unique_one is_space) in Es; auto;
    try (apply identifier_stops_space; assumption);
    try (apply identifier_stops_space'; assumption).
  destruct Es as (-> & Es).
  rewrite <- (app_nil_r b) in Es.
  apply (span_unique is_word_or_dot) in Es; try tauto;
    [|apply end_stops; auto using space_not_ident].
  destruct Es as (<- & _). auto.
Qed.

Lemma same_letter_ident : forall x c,
    is_word x = true -> same_letter x c = true -> is_word_or_dot c = true.
Proof.
  intros x c Hx H. apply word_is_ident.
  rewrite (same_letter_word _ _ H). exact Hx.
Qed.

(** [b = PRIOR a] is not matched by the first pattern. *)
Lemma no_prior_left : forall a b,
    is_identifier a = true -> is_identifier b = true ->
    re_match re_prior_left (b ++ " = PRIOR " ++ a) = None.
Proof.
  intros a b Ha Hb.
  destruct (re_match re_prior_left (b ++ " = PRIOR " ++ a)) as [m|] eqn:E;
    [|reflexivity].
  exfalso. apply re_match_some in E. destruct E as (w & t & l & Es & -> & P).
  apply prior_left_shape in P.
  destruct P as (w0 & P & w1 & g1 & w2 & w3 & g2 & w4 & -> & -> & H0 & HP
                 & H1 & H1ne & Hg1 & H2 & H3 & Hg2 & H4 & Ht).
  lit_chars HP. rewrite <- !app_assoc in Es. simpl in Es.
  apply (span_unique is_space [] w0) in Es; auto;
    [|apply identifier_stops_space; assumption
     |simpl; rewrite (same_letter_space _ _ Hc); reflexivity].
  destruct Es as (<- & Es). simpl in Es.
  change (c :: c0 :: c1 :: c2 :: c3
            :: w1 ++ g1 ++ w2 ++ "="%char :: w3 ++ g2 ++ w4 ++ t)
    with ([c; c0; c1; c2; c3]
            ++ w1 ++ g1 ++ w2 ++ "="%char :: w3 ++ g2 ++ w4 ++ t) in Es.
  pose proof Hb as Hb'. apply is_identifier_spec in Hb'.
  apply (span_unique is_word_or_dot) in Es; try tauto.
  - destruct Es as (_ & Es).
    apply (span_unique_one is_space) in Es; auto;
      try (apply identifier_stops_space; assumption).
    destruct Es as (_ & Es). destruct g1 as [|d g1]; [discriminate|].
    injection Es as Ed _. subst d. simpl in Hg1. discriminate.
  - simpl.
    rewrite (same_letter_ident "P" c), (same_letter_ident "R" c0),
      (same_letter_ident "I" c1), (same_letter_ident "O" c2),
      (same_letter_ident "R" c3); auto.
  - apply stops_app; [exact H1ne|].
    apply stops_class with (g := is_space); auto using space_not_ident.
Qed.

(** [b = PRIOR a] is matched by the second pattern, which captures [b] and
    [a]. *)
Lemma match_prior_right : forall a b,
    is_identifier a = true -> is_identifier b = true ->
    exists m,
      re_match re_prior_right (b ++ " = PRIOR " ++ a) = Some m /\
      group 1 m = Some b /\ group 2 m = Some a.
Proof.
  intros a b Ha Hb.
  destruct (re_match re_prior_right (b ++ " = PRIOR " ++ a)) as [m|] eqn:E.
  2:{ exfalso. destruct (prior_right_parses a b Ha Hb) as (l & P).
      apply (match_at_complete re_prior_right [] _ [] l P).
      rewrite app_nil_r. exact E. }
  exists m. split; [reflexivity|].
  apply re_match_some in E. destruct E as (w & t & l & Es & -> & P).
  apply prior_right_shape in P.
  destruct P as (w0 & g1 & w1 & w2 & P & w3 & g2 & w4 & -> & -> & H0 & Hg1
                 & H1 & H2 & HP & H3 & H3ne & Hg2 & H4 & Ht).
  unfold group. simpl.
  lit_chars HP. rewrite <- !app_assoc in Es. simpl in Es.
  pose proof Ha as Ha'. pose proof Hb as Hb'.
  pose proof Hg1 as Hg1'. pose proof Hg2 as Hg2'.
  apply is_identifier_spec in Ha', Hb', Hg1', Hg2'.
  apply (span_unique is_space [] w0) in Es; auto;
    try (apply identifier_stops_space; assumption).
  destruct Es as (<- & Es). simpl in Es.
  apply (span_unique is_word_or_dot) in Es; try tauto;
    [|apply stops_ident_after; assumption].
  destruct Es as (<- & Es).
  apply (span_unique_one is_space) in Es; auto.
  destruct Es as (-> & Es). injection Es as Es.
  apply (span_unique_one is_space) in Es; auto;
    [|simpl; rewrite (same_letter_space _ _ Hc); reflexivity].
  destruct Es as (-> & Es). injection Es as _ _ _ _ _ Es.
  apply (span_unique_one is_space) in Es; auto;
    try (apply identifier_stops_space; assumption);
    try (apply identifier_stops_space'; assumption).
  destruct Es as (-> & Es).
  rewrite <- (app_nil_r a) in Es.
  apply (span_unique is_word_or_dot) in Es; try tauto;
    [|apply end_stops; auto using space_not_ident].
  destruct Es as (<- & _). auto.
Qed.

Lemma parse_condition_unfold : forall fuel connect_by ta cte,
    parse_condition fuel connect_by ta cte =
    match connect_by with
    | [] => Ok None
    | _ :: _ =>
    match re_match re_prior_left connect_by with
    | Some m =>
        parent_col <- req (group 1 m) ;;
        child_col <- req (group 2 m) ;;
        Ok (Some (join_text ta cte child_col parent_col))
    | None =>
    match re_match re_prior_right connect_by with
    | Some m =>
        child_col <- req (group 1 m) ;;
        parent_col <- req (group 2 m) ;;
        Ok (Some (join_text ta cte child_col parent_col))
    | None =>
        if contains " AND " (upper connect_by)
        then
          match fuel with
          | 0 => Ok None
          | S fuel' =>
              converted_conditions <-
                fold_left
                  (fun acc cond =>
                     l <- acc ;;
                     converted <-
                       parse_condition fuel' (strip cond) ta cte ;;
                     Ok (if truthy converted then l ++ [fmt converted] else l))
                  (re_split re_and connect_by) (Ok []) ;;
              match converted_conditions with
              | [] => Ok None
              | _ :: _ => Ok (Some (join " AND " converted_conditions))
              end
          end
        else Ok None
    end end end.
Proof. intros [|fuel] connect_by ta cte; reflexivity. Qed.

Lemma last_segment_aux_dot_free : forall c cur s,
    forallb (fun x => negb (Ascii.eqb x c)) s = true ->
    last_segment_aux c cur s = rev cur ++ s.
Proof.
  intros c cur s. revert cur. induction s as [|x s IH]; intros cur H; simpl.
  - rewrite app_nil_r. reflexivity.
  - simpl in H. apply andb_true_iff in H. destruct H as (Hx & Hs).
    apply negb_true_iff in Hx. rewrite Hx, IH by exact Hs. simpl.
    rewrite <- app_assoc. reflexivity.
Qed.

Lemma last_segment_aux_app : forall c q cur s,
    last_segment_aux c cur (q ++ c :: s) = last_segment_aux c [] s.
Proof.
  intros c q. induction q as [|x q IH]; intros cur s; simpl.
  - rewrite Ascii.eqb_refl. reflexivity.
  - destruct (Ascii.eqb x c); apply IH.
Qed.

(** Only the right-most segment of a qualified name is kept. *)
Lemma unqualified_qualified : forall q x,
    dot_free x = true -> unqualified (q ++ "." ++ x) = x.
Proof.
  intros q x H. unfold unqualified, last_segment. simpl.
  rewrite last_segment_aux_app. apply last_segment_aux_dot_free. exact H.
Qed.

Lemma unqualified_plain : forall x, dot_free x = true -> unqualified x = x.
Proof.
  intros x H. unfold unqualified, last_segment.
  apply last_segment_aux_dot_free. exact H.
Qed.

(** C3.  Join inference does not depend on the side order of the predicate:
    for all column identifiers [a] and [b] (possibly dot-qualified), the
    conjuncts [PRIOR a = b] and [b = PRIOR a] both resolve to the join text
    [<table_alias>.<b> = <cte_name>.<a>], the child [b] bound to the
    base-table alias and the parent [a] to the CTE name, where each column
    is cut down to its right-most dot-separated segment. *)
Theorem join_inference_symmetric : forall a b table_alias0 cte_name,
    is_identifier a = true ->
    is_identifier b = true ->
    let expected :=
      Ok (Some (table_alias0 ++ "." ++ unqualified b ++ " = "
                ++ cte_name ++ "." ++ unqualified a)) in
    _parse_connect_by_condition (Some ("PRIOR " ++ a ++ " = " ++ b))
      table_alias0 cte_name = expected /\
    _parse_connect_by_condition (Some (b ++ " = PRIOR " ++ a))
      table_alias0 cte_name = expected /\
    (forall q x, dot_free x = true -> unqualified (q ++ "." ++ x) = x) /\
    (forall x, dot_free x = true -> unqualified x = x).
Proof.
  intros a b ta cte Ha Hb expected. subst expected.
  split; [|split; [|split]].
  - unfold _parse_connect_by_condition. rewrite parse_condition_unfold.
    destruct (match_prior_left a b Ha Hb) as (m & -> & -> & ->).
    reflexivity.
  - unfold _parse_connect_by_condition. rewrite parse_condition_unfold.
    rewrite (no_prior_left a b Ha Hb).
    destruct (match_prior_right a b Ha Hb) as (m & -> & -> & ->).
    destruct b as [|c b]; [discriminate|]. reflexivity.
  - exact unqualified_qualified.
  - exact unqualified_plain.
Qed.

Lemma join_inference_symmetric_witness :
  _parse_connect_by_condition (Some ("PRIOR e.emp_id = mgr_id" : str))
    "e" "hierarchy_cte_1"
  = Ok (Some ("e.mgr_id = hierarchy_cte_1.emp_id" : str)) /\
  _parse_connect_by_condition (Some ("mgr_id = PRIOR e.emp_id" : str))
    "e" "hierarchy_cte_1"
  = Ok (Some ("e.mgr_id = hierarchy_cte_1.emp_id" : str)).
Proof.
  destruct (join_inference_symmetric "e.emp_id" "mgr_id" "e" "hierarchy_cte_1")
    as (H1 & H2 & _); [reflexivity|reflexivity|].
  split; [exact H1|exact H2].
Defined.

(** ** Compound predicates *)

Lemma and_shape : forall p w t l,
    parses re_and p w t l ->
    exists w1 P w2,
      w = w1 ++ P ++ w2 /\ l = [] /\
      forallb is_space w1 = true /\ w1 <> [] /\
      lit_ok same_letter "AND" P = true /\
      forallb is_space w2 = true /\ w2 <> [].
Proof.
  intros p w t l H. unfold re_and in H. inv_parses.
  do 3 eexists. split; [reflexivity|]. simpl. repeat split; auto.
Qed.

Lemma starts_and_split : forall s,
    starts_and s = true ->
    exists c1 c2 c3 c4 c5 t,
      s = c1 :: c2 :: c3 :: c4 :: c5 :: t /\
      is_space c1 = true /\ is_space c5 = true /\
      lit_ok same_letter "AND" [c2; c3; c4] = true.
Proof.
  intros s H. unfold starts_and in H.
  destruct s as [|c1 [|c2 [|c3 [|c4 [|c5 t]]]]]; simpl in H;
    try (rewrite ?andb_false_r in H; discriminate).
  rewrite andb_true_r in H.
  repeat (apply andb_true_iff in H; destruct H as (? & H)).
  exists c1, c2, c3, c4, c5, t. split; [reflexivity|].
  split; [rewrite (same_letter_space " " c1); auto|].
  split; [rewrite (same_letter_space " " c5); auto|].
  simpl. rewrite H1, H2, H3. reflexivity.
Qed.

(** Where the text starts with [" AND "], the separator pattern matches,
    and what it matches is not empty. *)
Lemma starts_and_matches : forall s pre_rev,
    starts_and s = true ->
    exists m, match_at re_and pre_rev s = Some m /\ m_text m <> [].
Proof.
  intros s pre_rev H. apply starts_and_split in H.
  destruct H as (c1 & c2 & c3 & c4 & c5 & t & -> & H1 & H5 & HA).
  assert (P : exists l,
             parses re_and (hd_error pre_rev)
               ([c1] ++ [c2; c3; c4] ++ [c5]) t l).
  { eexists. unfold re_and. build_parses; simpl; rewrite ?H1, ?H5; auto;
      discriminate. }
  destruct P as (l & P).
  pose proof (match_at_complete re_and pre_rev _ t l P) as Hm.
  simpl in Hm.
  destruct (match_at re_and pre_rev (c1 :: c2 :: c3 :: c4 :: c5 :: t))
    as [m|] eqn:E; [|congruence].
  exists m. split; [reflexivity|].
  apply match_at_some in E. destruct E as (w & t' & l' & _ & -> & P').
  apply and_shape in P'. destruct P' as (w1 & Q & w2 & -> & _ & _ & Hne & _).
  simpl. destruct w1; [congruence|discriminate].
Qed.

Lemma starts_and_app : forall y z,
    starts_and y = true -> starts_and (y ++ z) = true.
Proof.
  intros y z H. pose proof H as H'. apply starts_and_split in H'.
  destruct H' as (c1 & c2 & c3 & c4 & c5 & t & -> & _). exact H.
Qed.

Lemma starts_and_app_false : forall y z,
    starts_and (y ++ z) = false -> starts_and y = false.
Proof.
  intros y z H. destruct (starts_and y) eqn:E; [|reflexivity].
  rewrite (starts_and_app y z E) in H. discriminate.
Qed.

Lemma app_snoc_inv : forall (x y u : str) c,
    x ++ y = u ++ [c] -> y <> [] -> exists y0, y = y0 ++ [c] /\ u = x ++ y0.
Proof.
  intros x y u c E Hne.
  destruct (exists_last Hne) as (y0 & d & ->).
  rewrite app_assoc in E. apply app_inj_tail in E. destruct E as (<- & <-).
  exists y0. auto.
Qed.

(** No piece between two separators contains [" AND "]. *)
Lemma split_go_pieces : forall fuel pre_rev cur_rev s,
    length s < fuel ->
    (forall x y, rev cur_rev = x ++ y -> y <> [] ->
                 starts_and (y ++ s) = false) ->
    forall piece,
      In piece (split_go re_and fuel pre_rev cur_rev s) ->
      forall x y, piece = x ++ y -> starts_and y = false.
Proof.
  induction fuel as [|fuel IH]; intros pre_rev cur_rev s Hlen Hcur piece Hin
                                       x y Hp; [lia|].
  assert (Hlast : forall x y, rev cur_rev = x ++ y -> starts_and y = false).
  { intros x0 y0 E0. destruct y0 as [|c y0]; [reflexivity|].
    apply starts_and_app_false with (z := s). apply (Hcur x0); [exact E0|].
    discriminate. }
  assert (Hstep :
            (match_at re_and pre_rev s = None \/
             exists m, match_at re_and pre_rev s = Some m /\ m_text m = []) ->
            In piece
              (match s with
               | [] => [rev cur_rev]
               | c :: s' =>
                   split_go re_and fuel (c :: pre_rev) (c :: cur_rev) s'
               end) ->
            starts_and y = false).
  { intros Hno Hin'.
    assert (Hs : starts_and s = false).
    { destruct (starts_and s) eqn:Es; [|reflexivity].
      destruct (starts_and_matches s pre_rev Es) as (m & Em & Hne).
      destruct Hno as [Hno | (m' & Em' & Hnil)]; congruence. }
    destruct s as [|c s'].
    - destruct Hin' as [<- | []]. apply (Hlast x). exact Hp.
    - apply (IH (c :: pre_rev) (c :: cur_rev) s') with (piece := piece) (x := x);
        auto; [simpl in Hlen; lia|].
      intros x0 y0 E0 Hne. simpl in E0. symmetry in E0.
      destruct (app_snoc_inv _ _ _ _ E0 Hne) as (y1 & -> & E1).
      rewrite <- app_assoc. simpl. destruct y1 as [|d y1].
      + exact Hs.
      + apply (Hcur x0); [exact E1|discriminate]. }
  simpl in Hin.
  destruct (match_at re_and pre_rev s) as [m|] eqn:Em.
  - destruct (m_text m) as [|c w] eqn:Et.
    + apply Hstep; [right; exists m; auto|exact Hin].
    + destruct Hin as [<- | Hin].
      * apply (Hlast x). exact Hp.
      * apply match_at_some in Em.
        destruct Em as (w' & t & l & -> & -> & _). simpl in Et. subst w'.
        simpl in Hin.
        apply (IH ((rev w ++ [c]) ++ pre_rev) [] t) with (piece := piece)
                                                         (x := x); auto.
        -- simpl in Hlen. rewrite length_app in Hlen. simpl in Hlen. lia.
        -- intros x0 y0 E0 Hne. simpl in E0. symmetry in E0.
           apply app_eq_nil in E0. destruct E0. congruence.
  - apply Hstep; [left; reflexivity|exact Hin].
Qed.

Lemma piece_without_and : forall cb piece,
    In piece (re_split re_and cb) ->
    contains " AND " (upper (strip piece)) = false.
Proof.
  intros cb piece Hin.
  destruct (contains " AND " (upper (strip piece))) eqn:E; [|reflexivity].
  exfalso.
  apply (contains_substring " AND " (upper (strip piece)) (upper piece)) in E;
    [|apply upper_substring, strip_substring].
  apply contains_iff in E. destruct E as (u & v & E).
  apply upper_split in E. destruct E as (a & b & -> & _ & E).
  apply upper_split in E. destruct E as (b1 & b2 & -> & E1 & _).
  assert (Hs : starts_and (b1 ++ b2) = true).
  { apply starts_and_app. unfold starts_and.
    assert (Hl : length b1 = 5)
      by (apply (f_equal (@length ascii)) in E1; unfold upper in E1;
          rewrite length_map in E1; exact E1).
    rewrite <- Hl, firstn_all. apply upper_lit_ok. exact E1. }
  unfold re_split in Hin.
  rewrite (split_go_pieces (S (length cb)) [] [] cb) with (piece := a ++ b1 ++ b2)
                                                          (x := a) in Hs;
    auto; [discriminate|].
  intros x y E0 Hne. simpl in E0. symmetry in E0. apply app_eq_nil in E0.
  destruct E0. congruence.
Qed.

Lemma join_text_truthy : forall ta cte x y,
    truthy (Some (join_text ta cte x y)) = true.
Proof. intros [|c ta] cte x y; reflexivity. Qed.

(** On its own, one conjunct goes through the two shapes only. *)
Lemma parse_condition_one : forall connect_by ta cte,
    match re_match re_prior_left connect_by with
    | Some m =>
        parent_col <- req (group 1 m) ;;
        child_col <- req (group 2 m) ;;
        Ok (Some (join_text ta cte child_col parent_col))
    | None =>
        match re_match re_prior_right connect_by with
        | Some m =>
            child_col <- req (group 1 m) ;;
            parent_col <- req (group 2 m) ;;
            Ok (Some (join_text ta cte child_col parent_col))
        | None => Ok None
        end
    end = Ok (resolve_conjunct connect_by ta cte).
Proof.
  intros cb ta cte. unfold resolve_conjunct.
  destruct (re_match re_prior_left cb) as [m|] eqn:El.
  - destruct (match_group 1 _ _ _ El eq_refl) as (g1 & ->).
    destruct (match_group 2 _ _ _ El eq_refl) as (g2 & ->). reflexivity.
  - destruct (re_match re_prior_right cb) as [m|] eqn:Er; [|reflexivity].
    destruct (match_group 1 _ _ _ Er eq_refl) as (g1 & ->).
    destruct (match_group 2 _ _ _ Er eq_refl) as (g2 & ->). reflexivity.
Qed.

Lemma resolve_conjunct_nil : forall ta cte, resolve_conjunct [] ta cte = None.
Proof. intros. reflexivity. Qed.

Lemma parse_condition_leaf : forall fuel c ta cte,
    contains " AND " (upper c) = false ->
    parse_condition fuel c ta cte = Ok (resolve_conjunct c ta cte).
Proof.
  intros fuel c ta cte H. rewrite parse_condition_unfold.
  destruct c as [|x c]; [reflexivity|].
  rewrite <- parse_condition_one. rewrite H.
  destruct (re_match re_prior_left (x :: c)); [reflexivity|].
  destruct (re_match re_prior_right (x :: c)); reflexivity.
Qed.

Lemma resolve_conjunct_truthy : forall c ta cte j,
    resolve_conjunct c ta cte = Some j -> truthy (Some j) = true.
Proof.
  intros c ta cte j H. unfold resolve_conjunct in H.
  destruct (re_match re_prior_left c).
  - injection H as <-. apply join_text_truthy.
  - destruct (re_match re_prior_right c); [|discriminate].
    injection H as <-. apply join_text_truthy.
Qed.

Lemma fold_conjuncts : forall fuel ta cte pieces acc,
    (forall p, In p pieces -> contains " AND " (upper (strip p)) = false) ->
    fold_left
      (fun acc cond =>
         l <- acc ;;
         converted <- parse_condition fuel (strip cond) ta cte ;;
         Ok (if truthy converted then l ++ [fmt converted] else l))
      pieces (Ok acc)
    = Ok (acc ++ resolved (map strip pieces) ta cte).
Proof.
  intros fuel ta cte pieces. induction pieces as [|p ps IH]; intros acc H.
  - simpl. rewrite app_nil_r. reflexivity.
  - cbn [fold_left map resolved]. cbn [bind].
    rewrite parse_condition_leaf by (apply H; left; reflexivity).
    cbn [bind].
    destruct (resolve_conjunct (strip p) ta cte) as [j|] eqn:Ej.
    + rewrite (resolve_conjunct_truthy _ _ _ _ Ej). cbn [fmt].
      rewrite IH by (intros q Hq; apply H; right; exact Hq).
      rewrite <- app_assoc. reflexivity.
    + cbn [truthy]. apply IH. intros q Hq. apply H. right. exact Hq.
Qed.

(** [_parse_connect_by_condition] never raises and computes
    [infer_join]: the recursion of the source goes one level deep. *)
Lemma parse_connect_by_condition_spec : forall connect_by ta cte,
    _parse_connect_by_condition connect_by ta cte
    = Ok (infer_join connect_by ta cte).
Proof.
  intros [cb|] ta cte; [|reflexivity].
  unfold _parse_connect_by_condition, infer_join.
  rewrite parse_condition_unfold.
  destruct cb as [|x cb]; [reflexivity|].
  pose proof (parse_condition_one (x :: cb) ta cte) as H1.
  destruct (re_match re_prior_left (x :: cb)) as [m|] eqn:El.
  - rewrite H1. unfold resolve_conjunct. rewrite El. reflexivity.
  - destruct (re_match re_prior_right (x :: cb)) as [m|] eqn:Er.
    + rewrite H1. unfold resolve_conjunct. rewrite El, Er. reflexivity.
    + unfold resolve_conjunct at 1. rewrite El, Er.
      destruct (contains " AND " (upper (x :: cb))) eqn:Hc; [|reflexivity].
      pose proof (contains_length _ _ Hc) as Hl.
      unfold upper in Hl. rewrite length_map in Hl.
      destruct (length (x :: cb)) as [|fuel] eqn:Hf; [simpl in Hl; lia|].
      rewrite fold_conjuncts
        by (intros p Hp; apply (piece_without_and (x :: cb)); exact Hp).
      cbn [bind app]. unfold conjuncts.
      destruct (resolved (map strip (re_split re_and (x :: cb))) ta cte);
        reflexivity.
Qed.

(** * The entry point *)

(** ** The extractor never raises *)

Lemma group1_strip_ok : forall (mo : option rmatch),
    (forall m, mo = Some m -> exists g, group 1 m = Some g) ->
    exists o, group1_strip mo = Ok o.
Proof.
  intros [m|] H; simpl; [|eexists; reflexivity].
  destruct (H m eq_refl) as (g & ->). simpl. eexists. reflexivity.
Qed.

Lemma group1_strip_search : forall r s,
    sets 1 r = true -> exists o, group1_strip (re_search r s) = Ok o.
Proof.
  intros r s Hs. apply group1_strip_ok. intros m Hm.
  exact (search_group 1 r s m Hm Hs).
Qed.

Lemma sequence_generator_never_raises : forall sql,
    exists c,
      _parse_sequence_generator sql = Ok c /\ is_sequence_generator c = true.
Proof.
  intros sql. unfold _parse_sequence_generator.
  destruct (group1_strip_search re_order_by_line sql eq_refl) as (o & ->).
  destruct (re_match re_select_dual sql) as [m|] eqn:E.
  - destruct (match_group 1 _ _ _ E eq_refl) as (g & ->).
    cbn [req bind]. eexists. split; reflexivity.
  - cbn [bind]. eexists. split; reflexivity.
Qed.

Lemma search_lastindex : forall n r s m,
    re_search r s = Some m -> sets n r = true -> lastindex m <> None.
Proof.
  intros n r s m H Hs. destruct (search_group n r s m H Hs) as (g & Hg).
  unfold group in Hg. unfold lastindex.
  destruct (m_caps m) as [|[i x] l]; [discriminate|discriminate].
Qed.

Lemma parse_from_never_raises : forall s, exists ft, parse_from s = Ok ft.
Proof.
  intros s. unfold parse_from.
  destruct (re_search re_from s) as [m|] eqn:E.
  - destruct (search_group 1 _ _ _ E eq_refl) as (g & ->). cbn [req bind].
    pose proof (search_lastindex 1 _ _ _ E eq_refl) as Hl.
    destruct (lastindex m) as [i|]; [|contradiction].
    eexists. reflexivity.
  - destruct (re_search re_from_simple s) as [m|] eqn:E2;
      [|eexists; reflexivity].
    destruct (search_group 1 _ _ _ E2 eq_refl) as (g & ->). cbn [req bind].
    eexists. reflexivity.
Qed.

Lemma extractor_never_raises : forall sql,
    exists c, _parse_connect_by_query sql = Ok c.
Proof.
  intros sql. unfold _parse_connect_by_query.
  set (sn := join " " (split_ws sql)).
  destruct (re_search re_dual (upper sn)) as [dm|].
  { destruct (sequence_generator_never_raises sn) as (c & -> & _).
    cbn [bind]. eexists. reflexivity. }
  destruct (re_match re_select sn) as [sm|] eqn:Esel; [|eexists; reflexivity].
  destruct (match_group 1 _ _ _ Esel eq_refl) as (g & ->). cbn [req bind].
  destruct (parse_from_never_raises sn) as (ft & ->). cbn [bind].
  destruct ft as [[fc ta]|]; [|eexists; reflexivity].
  destruct (group1_strip_search re_start_with sn eq_refl) as (sw & ->).
  cbn [bind].
  destruct (re_search re_connect_by sn) as [cm|] eqn:Ecb;
    [|eexists; reflexivity].
  destruct (search_group 2 _ _ _ Ecb eq_refl) as (cb & ->). cbn [req bind].
  destruct (group1_strip_search re_where sn eq_refl) as (wc & ->).
  cbn [bind].
  destruct (group1_strip_search re_order_siblings sn eq_refl) as (os & ->).
  cbn [bind].
  assert (Hob : exists o,
             group1_strip
               (if truthy os
                then re_search re_order_by_after_siblings sn
                else re_search re_order_by sn) = Ok o).
  { destruct (truthy os); apply group1_strip_search; reflexivity. }
  destruct Hob as (ob & ->). cbn [bind].
  destruct (group1_strip_search re_group_by sn eq_refl) as (gb & ->).
  cbn [bind]. eexists. reflexivity.
Qed.

(** ** Results of [convert] *)

Lemma convert_cases : forall self sql,
    (_is_connect_by_query sql = false /\
     convert self sql
     = (self, Ok (Result false sql sql [warn_not_connect_by] []))) \/
    (_is_connect_by_query sql = true /\
     _parse_connect_by_query sql = Ok None /\
     convert self sql
     = (self, Ok (Result false sql sql [warn_parse_failed] []))) \/
    (exists c,
        _is_connect_by_query sql = true /\
        _parse_connect_by_query sql = Ok (Some c) /\
        is_sequence_generator c = true /\
        convert self sql
        = (self,
           Ok (Result true (_convert_sequence_generator c) sql []
                 [note_sequence]))) \/
    (exists c b,
        _is_connect_by_query sql = true /\
        _parse_connect_by_query sql = Ok (Some c) /\
        is_sequence_generator c = false /\
        _build_recursive_cte self c [] []
        = (Converter (cte_counter self + 1), Ok b) /\
        convert self sql
        = (Converter (cte_counter self + 1),
           Ok (Result true (b_sql b) sql (b_warnings b) (b_notes b)))) \/
    (exists c e,
        _is_connect_by_query sql = true /\
        _parse_connect_by_query sql = Ok (Some c) /\
        is_sequence_generator c = false /\
        _build_recursive_cte self c [] []
        = (Converter (cte_counter self + 1), Raise e) /\
        convert self sql
        = (Converter (cte_counter self + 1),
           Ok (Result false sql sql [("Conversion error: " : str) ++ e] []))).
Proof.
  intros self sql. unfold convert.
  destruct (_is_connect_by_query sql) eqn:Eq; cbn [negb]; [|left; auto].
  right. destruct (extractor_never_raises sql) as ([c|] & Ep); rewrite Ep.
  2:{ left. auto. }
  right. destruct (is_sequence_generator c) eqn:Es.
  { left. exists c. auto. }
  right.
  destruct (_build_recursive_cte self c [] []) as [self' [b|e]] eqn:Eb;
    assert (Hs : self' = Converter (cte_counter self + 1))
      by (unfold _build_recursive_cte in Eb; injection Eb as <- _;
          reflexivity);
    subst self'.
  - left. exists c, b. rewrite Eb. auto.
  - right. exists c, e. rewrite Eb. auto.
Qed.

(** C5.  Whenever [convert] returns a result with [success = false] (not a
    CONNECT BY query, structural parse failure, or an exception caught
    while assembling), [converted_sql] is the input string itself. *)
Theorem failure_passes_input_through : forall self sql r,
    snd (convert self sql) = Ok r ->
    success r = false ->
    converted_sql r = sql.
Proof.
  intros self sql r Hr Hs.
  destruct (convert_cases self sql)
    as [(_ & E) | [(_ & _ & E) | [(c & _ & _ & _ & E)
       | [(c & b & _ & _ & _ & _ & E) | (c & e & _ & _ & _ & _ & E)]]]];
    rewrite E in Hr; simpl in Hr; injection Hr as <-;
    try reflexivity; discriminate.
Qed.

Lemma failure_passes_input_through_witness :
  let sql : str := "SELECT a FROM t. CONNECT BY PRIOR a = b" in
  let r :=
    Result false sql sql
      [("Conversion error: string index out of range" : str)] [] in
  snd (convert (Converter 0) sql) = Ok r /\
  success r = false /\
  converted_sql r = sql.
Proof.
  intros sql r.
  assert (Hr : snd (convert (Converter 0) sql) = Ok r)
    by (vm_compute; reflexivity).
  assert (Hs : success r = false) by reflexivity.
  split; [exact Hr|split; [exact Hs|]].
  exact (failure_passes_input_through (Converter 0) sql r Hr Hs).
Defined.

(** C9.  [convert] returns a result for every input string: no exception
    reaches its caller.  An exception raised while the recursive CTE is
    built is turned into a failure result that passes the input through
    and whose warning carries the exception's message. *)
Theorem convert_never_raises : forall self sql,
    exists r,
      snd (convert self sql) = Ok r /\
      forall components e,
        _is_connect_by_query sql = true ->
        _parse_connect_by_query sql = Ok (Some components) ->
        is_sequence_generator components = false ->
        snd (_build_recursive_cte self components [] []) = Raise e ->
        r = Result false sql sql [("Conversion error: " : str) ++ e] [].
Proof.
  intros self sql.
  destruct (convert_cases self sql)
    as [(Hq & E) | [(Hq & Hp & E) | [(c & Hq & Hp & Hs & E)
       | [(c & b & Hq & Hp & Hs & Hb & E) | (c & e & Hq & Hp & Hs & Hb & E)]]]];
    rewrite E; cbn [snd]; eexists; (split; [reflexivity|]);
    intros c' e' Hq' Hp' Hs' Hb'; try congruence.
  - assert (c' = c) by congruence. subst c'. rewrite Hb in Hb'.
    discriminate.
  - assert (c' = c) by congruence. subst c'. rewrite Hb in Hb'.
    cbn [snd] in Hb'. injection Hb' as <-. reflexivity.
Qed.

Lemma convert_never_raises_witness :
  exists r,
    snd (convert (Converter 0) ("SELECT a FROM t. CONNECT BY PRIOR a = b" : str))
    = Ok r /\
    r = Result false ("SELECT a FROM t. CONNECT BY PRIOR a = b" : str)
          ("SELECT a FROM t. CONNECT BY PRIOR a = b" : str)
          [("Conversion error: string index out of range" : str)] [].
Proof.
  destruct (convert_never_raises (Converter 0)
              ("SELECT a FROM t. CONNECT BY PRIOR a = b" : str))
    as (r & Hr & Hcaught).
  exists r. split; [exact Hr|].
  apply (Hcaught
           (Components "a" "t." None None (Some ("PRIOR a = b" : str)) None
              None None None true false false false false false false None
              None)
           index_error_string).
  - vm_compute. reflexivity.
  - vm_compute. reflexivity.
  - reflexivity.
  - vm_compute. reflexivity.
Defined.

(** ** What a completed assembly returns *)

Lemma build_ok_inv : forall self c w0 n0 self' b,
    _build_recursive_cte self c w0 n0 = (self', Ok b) ->
    exists tn toks ta parsed,
      self' = Converter (cte_counter self + 1) /\
      split_ws (from_clause c) = tn :: toks /\
      (if truthy (table_alias c)
       then Ok (fmt (table_alias c))
       else _generate_alias tn) = Ok ta /\
      _parse_connect_by_condition (connect_by_clause c) ta
        (cte_name_of (cte_counter self + 1)) = Ok parsed /\
      b = Built
            (cte_text (cte_name_of (cte_counter self + 1)) tn ta
               (join ", " (anchor_cols
                  (column_lists c ta (cte_name_of (cte_counter self + 1)))))
               (anchor_where_of c)
               (join ", " (recursive_cols
                  (column_lists c ta (cte_name_of (cte_counter self + 1)))))
               (if negb (truthy parsed) then join_placeholder else fmt parsed)
               (join ", " (output_cols
                  (column_lists c ta (cte_name_of (cte_counter self + 1)))))
             ++ outer_where_text c
             ++ group_by_text c (cte_name_of (cte_counter self + 1))
             ++ order_by_text c (cte_name_of (cte_counter self + 1)))
            ((if negb (truthy parsed) then w0 ++ [warn_join] else w0)
             ++ order_warnings c ++ feature_warnings c)
            (n0 ++ order_notes c ++ feature_notes c).
Proof.
  intros self c w0 n0 self' b H. unfold _build_recursive_cte in H.
  injection H as Hs Hb. cbn [cte_counter] in Hb.
  destruct (split_ws (from_clause c)) as [|tn toks]; [discriminate|].
  cbn [bind] in Hb.
  destruct (if truthy (table_alias c)
            then Ok (fmt (table_alias c))
            else _generate_alias tn) as [ta|] eqn:Eta; [|discriminate].
  cbn [bind] in Hb.
  destruct (_parse_connect_by_condition (connect_by_clause c) ta
              (cte_name_of (cte_counter self + 1))) as [parsed|] eqn:Ep;
    [|discriminate].
  cbn [bind] in Hb. unfold _build_column_lists in Hb.
  injection Hb as <-.
  exists tn, toks, ta, parsed. auto.
Qed.




(** C4, as the code has it.  An input whose upper-cased text contains
    neither [CONNECT BY] nor [CONNECT_BY] gets the not-applicable result,
    and the converter is left as it was: nothing after the first gate has
    run. *)
Theorem not_hierarchical_passes_through : forall self sql,
    contains "CONNECT BY" (upper sql) = false ->
    contains "CONNECT_BY" (upper sql) = false ->
    convert self sql = (self, Ok (not_applicable sql)).
Proof.
  intros self sql H1 H2. unfold convert, _is_connect_by_query.
  rewrite H1, H2. reflexivity.
Qed.

Lemma not_hierarchical_passes_through_witness :
  convert (Converter 7) "SELECT a FROM t"
  = (Converter 7, Ok (not_applicable "SELECT a FROM t")).
Proof.
  apply not_hierarchical_passes_through; vm_compute; reflexivity.
Defined.

(** An input without [CONNECT BY] that names a hierarchical pseudo-column
    passes the gate and is reported as a structural parse failure. *)
Lemma pseudo_column_is_not_passed_as_not_applicable :
  contains "CONNECT BY" (upper "SELECT CONNECT_BY_ROOT a FROM t") = false /\
  convert_connect_by "SELECT CONNECT_BY_ROOT a FROM t"
  = Ok (Result false "SELECT CONNECT_BY_ROOT a FROM t"
          "SELECT CONNECT_BY_ROOT a FROM t" [warn_parse_failed] []) /\
  convert_connect_by "SELECT CONNECT_BY_ROOT a FROM t"
  <> Ok (not_applicable "SELECT CONNECT_BY_ROOT a FROM t").
Proof.
  split; [vm_compute; reflexivity|].
  split; [vm_compute; reflexivity|].
  vm_compute. discriminate.
Qed.

(** ** Unresolved joins *)

Lemma join_truthy : forall sep j js,
    truthy (Some j) = true -> truthy (Some (join sep (j :: js))) = true.
Proof.
  intros sep [|c j] js H; [discriminate|]. destruct js; reflexivity.
Qed.

Lemma resolved_truthy : forall l ta cte j js,
    resolved l ta cte = j :: js -> truthy (Some j) = true.
Proof.
  induction l as [|c l IH]; intros ta cte j js H; simpl in H;
    [discriminate|].
  destruct (resolve_conjunct c ta cte) as [j'|] eqn:E.
  - injection H as <- _. exact (resolve_conjunct_truthy _ _ _ _ E).
  - eauto.
Qed.

Lemma infer_join_truthy : forall cb ta cte j,
    infer_join cb ta cte = Some j -> truthy (Some j) = true.
Proof.
  intros [cb|] ta cte j H; [|discriminate]. unfold infer_join in H.
  destruct (resolve_conjunct cb ta cte) as [j'|] eqn:E.
  - injection H as <-. exact (resolve_conjunct_truthy _ _ _ _ E).
  - destruct (contains " AND " (upper cb)); [|discriminate].
    destruct (resolved (conjuncts cb) ta cte) as [|j0 js] eqn:Er;
      [discriminate|].
    injection H as <-.
    exact (join_truthy " AND " j0 js (resolved_truthy _ _ _ _ _ Er)).
Qed.

Lemma warn_join_not_later : forall c,
    ~ In warn_join (order_warnings c ++ feature_warnings c).
Proof.
  intros c H. apply in_app_or in H. unfold order_warnings, feature_warnings in H.
  destruct H as [H|H].
  - destruct (negb (truthy (order_by_clause c)) &&
              truthy (order_siblings_by c)); simpl in H;
      [destruct H as [H|[]]; discriminate|contradiction].
  - destruct (has_connect_by_isleaf c); simpl in H;
      [destruct H as [H|[]]; discriminate|contradiction].
Qed.

(** C1, as the code has it.  In a successful conversion to a recursive
    CTE the join condition of the recursive member is decided by
    [infer_join].  When the predicate has none of the two shapes and none
    of its [AND]-conjuncts has, inference is unresolved: the join condition
    is exactly the placeholder [1=0  -- TODO: Fix join condition], the
    result has [success = true], and the warnings contain the
    manual-review warning.  When some conjuncts have one of the shapes, the
    join condition is the conjunction of those that resolve, the others
    are left out, and the warning is not given. *)
Theorem join_condition_of_inference : forall self sql r,
    snd (convert self sql) = Ok r ->
    success r = true ->
    exists c,
      _parse_connect_by_query sql = Ok (Some c) /\
      (is_sequence_generator c = false ->
       exists table_name table_alias0 anchor_columns recursive_columns
              output_columns tail,
         let cte_name := cte_name_of (cte_counter self + 1) in
         match infer_join (connect_by_clause c) table_alias0 cte_name with
         | None =>
             converted_sql r
             = cte_text cte_name table_name table_alias0 anchor_columns
                 (anchor_where_of c) recursive_columns join_placeholder
                 output_columns ++ tail /\
             In warn_join (warnings r)
         | Some j =>
             converted_sql r
             = cte_text cte_name table_name table_alias0 anchor_columns
                 (anchor_where_of c) recursive_columns j
                 output_columns ++ tail /\
             ~ In warn_join (warnings r)
         end).
Proof.
  intros self sql r Hr Hs.
  destruct (convert_cases self sql)
    as [(_ & E) | [(_ & _ & E) | [(c & _ & Hp & Hg & E)
       | [(c & b & _ & Hp & Hg & Hb & E) | (c & e & _ & _ & _ & _ & E)]]]];
    rewrite E in Hr; cbn [snd] in Hr; injection Hr as <-;
    try discriminate.
  - exists c. split; [exact Hp|]. intros Hg'. congruence.
  - exists c. split; [exact Hp|]. intros _.
    apply build_ok_inv in Hb.
    destruct Hb as (tn & toks & ta & parsed & _ & _ & _ & Hj & ->).
    rewrite parse_connect_by_condition_spec in Hj. injection Hj as <-.
    exists tn, ta. do 3 eexists.
    exists (outer_where_text c
            ++ group_by_text c (cte_name_of (cte_counter self + 1))
            ++ order_by_text c (cte_name_of (cte_counter self + 1))).
    cbn zeta. cbn [converted_sql warnings b_sql b_warnings].
    destruct (infer_join (connect_by_clause c) ta
                (cte_name_of (cte_counter self + 1))) as [j|] eqn:Ej.
    + rewrite (infer_join_truthy _ _ _ _ Ej). cbn [negb fmt].
      split; [reflexivity|]. apply warn_join_not_later.
    + cbn [truthy negb]. split; [reflexivity|].
      apply in_or_app. left. apply in_or_app. right. left. reflexivity.
Qed.

Lemma join_condition_of_inference_witness :
  let sql : str := "SELECT a FROM t CONNECT BY PRIOR a.x + a.y = b.z" in
  exists r,
    snd (convert (Converter 0) sql) = Ok r /\
    success r = true /\
    In warn_join (warnings r).
Proof.
  intros sql.
  destruct (snd (convert (Converter 0) sql)) as [r|] eqn:Hr;
    [|vm_compute in Hr; discriminate].
  assert (Hs : success r = true)
    by (vm_compute in Hr; injection Hr as <-; reflexivity).
  exists r. split; [reflexivity|]. split; [exact Hs|].
  destruct (join_condition_of_inference (Converter 0) sql r Hr Hs)
    as (c & Hp & H).
  vm_compute in Hp. injection Hp as <-.
  destruct (H eq_refl) as (tn & ta & ac & rc & oc & tail & H').
  cbv zeta in H'. cbn [connect_by_clause] in H'.
  change (infer_join _ ta (cte_name_of (cte_counter (Converter 0) + 1)))
    with (@None str) in H'.
  exact (proj2 H').
Defined.

(** A predicate with one conjunct of the shape [PRIOR a = b] and one that
    has none of the two shapes is not marked unresolved: the conjunct that
    matched is used, the other is dropped, and no warning is given. *)
Lemma matching_conjunct_is_used :
  conjuncts "PRIOR a = b AND x > 5" = [("PRIOR a = b" : str); ("x > 5" : str)] /\
  re_match re_prior_left "x > 5" = None /\
  re_match re_prior_right "x > 5" = None /\
  convert_connect_by
    "SELECT a FROM t START WITH a = 1 CONNECT BY PRIOR a = b AND x > 5"
  = Ok (Result true
          (cte_text "hierarchy_cte_1" "t" "t" "a" "a = 1" "t.a"
             "t.b = hierarchy_cte_1.a" "a")
          "SELECT a FROM t START WITH a = 1 CONNECT BY PRIOR a = b AND x > 5"
          [] []).
Proof. repeat split; vm_compute; reflexivity. Qed.

(** * The WHERE clauses *)


Lemma search_from_match_at : forall r s pre_rev m,
    search_from r pre_rev s = Some m ->
    exists u v,
      s = u ++ v /\ match_at r (rev u ++ pre_rev) v = Some m /\
      forall u1 u2, u = u1 ++ u2 -> u2 <> [] ->
                    match_at r (rev u1 ++ pre_rev) (u2 ++ v) = None.
Proof.
  intros r s. induction s as [|c s IH]; intros pre_rev m H; simpl in H.
  - destruct (match_at r pre_rev []) eqn:E; [|discriminate].
    injection H as <-. exists [], []. repeat split; auto.
    intros u1 u2 Hu Hne. symmetry in Hu. apply app_eq_nil in Hu.
    destruct Hu. congruence.
  - destruct (match_at r pre_rev (c :: s)) eqn:E.
    + injection H as <-. exists [], (c :: s). repeat split; auto.
      intros u1 u2 Hu Hne. symmetry in Hu. apply app_eq_nil in Hu.
      destruct Hu. congruence.
    + apply IH in H. destruct H as (u & v & -> & Hm & Hl).
      exists (c :: u), v. simpl. rewrite <- app_assoc. simpl.
      repeat split; auto.
      intros u1 u2 Hu Hne. destruct u1 as [|c1 u1]; simpl in Hu.
      * subst u2. simpl. exact E.
      * injection Hu as <- ->. simpl. rewrite <- !app_assoc. simpl.
        apply Hl; auto.
Qed.










Example sample_anchor_where :
  anchor_where_of sample_components = ("(mgr IS NULL) AND (x = 1)" : str).
Proof. vm_compute. reflexivity. Qed.

Example sample_outer_where :
  outer_where_text sample_components = nl ++ "WHERE level <= 3".
Proof. vm_compute. reflexivity. Qed.

(** * The sequence-generator case *)

Lemma lit_ok_firstn : forall f s w t,
    lit_ok f s w = true -> firstn (length s) (w ++ t) = w.
Proof.
  intros f s w t H. rewrite <- (lit_ok_length _ _ _ H).
  rewrite firstn_app, firstn_all, Nat.sub_diag. simpl. apply app_nil_r.
Qed.

Lemma lit_ok_skipn : forall f s w t,
    lit_ok f s w = true -> skipn (length s) (w ++ t) = t.
Proof.
  intros f s w t H. rewrite <- (lit_ok_length _ _ _ H).
  rewrite skipn_app, skipn_all, Nat.sub_diag. reflexivity.
Qed.

Lemma lit_ok_last_word : forall w,
    lit_ok same_letter "LEVEL" w = true ->
    forall p, is_word_opt (prev_after w p) = true.
Proof.
  intros w H p. lit_chars H. unfold prev_after. simpl.
  rewrite (same_letter_word _ _ Hc3). reflexivity.
Qed.

Lemma lit_ok_first_word : forall w t,
    lit_ok same_letter "LEVEL" w = true -> word_start (w ++ t) = true.
Proof.
  intros w t H. lit_chars H. simpl.
  rewrite (same_letter_word _ _ Hc). reflexivity.
Qed.

Lemma level_token_inv : forall p w t l,
    parses re_level_token p w t l ->
    l = [] /\ lit_ok same_letter "LEVEL" w = true /\
    is_word_opt p = false /\ word_start t = false.
Proof.
  intros p w t l H. unfold re_level_token in H. inv_parses. cbn [app] in *.
  rewrite app_nil_r in *. cbn [prev_after rev] in *.
  match goal with
  | Hl : lit_ok _ _ ?w = true |- _ =>
      rewrite (lit_ok_first_word w t Hl) in *;
      rewrite (lit_ok_last_word w Hl) in *
  end.
  repeat split; auto.
  - destruct (is_word_opt p); [discriminate|reflexivity].
  - destruct (word_start t); [discriminate|reflexivity].
Qed.

Lemma level_token_build : forall p w t,
    lit_ok same_letter "LEVEL" w = true ->
    is_word_opt p = false -> word_start t = false ->
    parses re_level_token p w t [].
Proof.
  intros p w t Hw Hp Ht.
  assert (H : exists l, parses re_level_token p ([] ++ w ++ []) t l).
  { eexists. unfold re_level_token. build_parses; auto.
    - cbn [app prev_after rev]. rewrite app_nil_r.
      rewrite (lit_ok_first_word w t Hw), Hp. reflexivity.
    - cbn [app prev_after rev]. rewrite (lit_ok_last_word w Hw), Ht.
      reflexivity. }
  destruct H as (l & H). cbn [app] in H. rewrite app_nil_r in H.
  pose proof (level_token_inv _ _ _ _ H) as (-> & _). exact H.
Qed.

Lemma level_firstn : forall w t,
    lit_ok same_letter "LEVEL" w = true -> firstn 5 (w ++ t) = w.
Proof. intros w t H. exact (lit_ok_firstn same_letter "LEVEL" w t H). Qed.

Lemma level_skipn : forall w t,
    lit_ok same_letter "LEVEL" w = true -> skipn 5 (w ++ t) = t.
Proof. intros w t H. exact (lit_ok_skipn same_letter "LEVEL" w t H). Qed.

(** What [re_level_token] matches at one place. *)
Lemma match_at_level_token : forall pre_rev s,
    match_at re_level_token pre_rev s =
    if level_word_at (hd_error pre_rev) s
    then Some (RMatch (rev pre_rev) (firstn 5 s) (skipn 5 s) [])
    else None.
Proof.
  intros pre_rev s. destruct (match_at re_level_token pre_rev s) as [m|] eqn:E.
  - apply match_at_some in E. destruct E as (w & t & l & -> & -> & P).
    apply level_token_inv in P. destruct P as (-> & Hw & Hp & Ht).
    unfold level_word_at.
    rewrite (level_firstn w t Hw), (level_skipn w t Hw).
    rewrite Hp, Hw, Ht. reflexivity.
  - destruct (level_word_at (hd_error pre_rev) s) eqn:Hl; [|reflexivity].
    exfalso. unfold level_word_at in Hl.
    apply andb_true_iff in Hl. destruct Hl as (Hl & Ht).
    apply andb_true_iff in Hl. destruct Hl as (Hp & Hw).
    apply negb_true_iff in Hp, Ht.
    rewrite <- (firstn_skipn 5 s) in E.
    exact (match_at_none re_level_token pre_rev _ _ []
             E (level_token_build _ _ _ Hw Hp Ht)).
Qed.

Lemma lstrip_split : forall s,
    exists u, s = u ++ lstrip s /\ forallb is_space u = true.
Proof.
  induction s as [|c s (u & IH & Hu)]; simpl.
  - exists []. auto.
  - destruct (is_space c) eqn:E.
    + exists (c :: u). simpl. rewrite E, Hu, <- IH. auto.
    + exists []. auto.
Qed.

Lemma lstrip_stops : forall s, stops is_space (lstrip s) = true.
Proof.
  induction s as [|c s IH]; simpl; [reflexivity|].
  destruct (is_space c) eqn:E; [exact IH|]. simpl. rewrite E. reflexivity.
Qed.

Lemma lstrip_app_ws : forall u x,
    forallb is_space u = true -> stops is_space x = true ->
    lstrip (u ++ x) = x.
Proof.
  induction u as [|c u IH]; intros x Hu Hx; simpl in *.
  - destruct x as [|d x]; [reflexivity|]. simpl in *.
    destruct (is_space d); [discriminate|reflexivity].
  - apply andb_true_iff in Hu. destruct Hu as (Hc & Hu). rewrite Hc. auto.
Qed.





Lemma replace_tokens_skip : forall tok repl k p s,
    k <= length s ->
    replace_tokens tok repl k p s
    = replace_tokens tok repl 0 (prev_after (firstn k s) p) (skipn k s).
Proof.
  intros tok repl k. induction k as [|k IH]; intros p s Hk.
  - reflexivity.
  - destruct s as [|c s]; [simpl in Hk; lia|].
    cbn [replace_tokens firstn skipn]. rewrite prev_after_cons.
    apply IH. simpl in Hk. lia.
Qed.

(** A substitution whose pattern matches exactly the five-letter tokens
    of [tok] is the replacement of those tokens. *)
Lemma sub_go_tokens :
  forall (r : regex) (tok : option ascii -> str -> bool) (repl : str),
    (forall pre_rev s,
        match_at r pre_rev s =
        if tok (hd_error pre_rev) s
        then Some (RMatch (rev pre_rev) (firstn 5 s) (skipn 5 s) [])
        else None) ->
    (forall p s, tok p s = true -> 5 <= length s) ->
    forall fuel pre_rev s,
      length s < fuel ->
      sub_go r repl fuel pre_rev s
      = replace_tokens tok repl 0 (hd_error pre_rev) s.
Proof.
  intros r tok repl Hm Hlen. induction fuel as [|fuel IH];
    intros pre_rev s Hl; [lia|].
  cbn [sub_go]. rewrite Hm.
  destruct (tok (hd_error pre_rev) s) eqn:Ht.
  - pose proof (Hlen _ _ Ht) as H5.
    destruct s as [|c1 [|c2 [|c3 [|c4 [|c5 t]]]]]; simpl in H5; try lia.
    cbn [m_text m_post firstn skipn]. cbn [replace_tokens]. rewrite Ht.
    f_equal. rewrite IH by (simpl in Hl |- *; lia).
    rewrite hd_error_rev_app. reflexivity.
  - destruct s as [|c s]; [reflexivity|].
    cbn [replace_tokens]. rewrite Ht. f_equal.
    rewrite IH by (simpl in Hl; lia). reflexivity.
Qed.

Lemma level_word_at_length : forall p s,
    level_word_at p s = true -> 5 <= length s.
Proof.
  intros p s H. unfold level_word_at in H.
  apply andb_true_iff in H. destruct H as (H & _).
  apply andb_true_iff in H. destruct H as (_ & H).
  apply lit_ok_length in H. rewrite length_firstn in H.
  change (length (list_ascii_of_string "LEVEL")) with 5 in H. lia.
Qed.



Lemma sub_level_token : forall repl s,
    re_sub re_level_token repl s
    = replace_tokens level_word_at repl 0 None s.
Proof.
  intros repl s. unfold re_sub.
  apply (sub_go_tokens re_level_token level_word_at repl
           match_at_level_token level_word_at_length); lia.
Qed.

(** ** Decimal numerals denote what they print *)






(** The statement [SELECT LEVEL FROM DUAL CONNECT BY LEVEL <= 10], end to
    end. *)
Example sequence_generator_end_to_end :
  convert_connect_by "SELECT LEVEL FROM DUAL CONNECT BY LEVEL <= 10"
  = Ok (Result true ("SELECT id" ++ nl ++ "FROM RANGE(1, 11)")
          "SELECT LEVEL FROM DUAL CONNECT BY LEVEL <= 10" [] [note_sequence]).
Proof. vm_compute. reflexivity. Qed.

(** * The column classifier *)

(** ** The alias of a select item *)

Lemma forallb_rev : forall (f : ascii -> bool) l,
    forallb f (rev l) = forallb f l.
Proof.
  intros f l. induction l as [|c l IH]; [reflexivity|].
  cbn [rev]. rewrite forallb_app, IH. simpl. rewrite andb_true_r.
  apply andb_comm.
Qed.

Lemma space_not_word : forall c, is_space c = true -> is_word c = false.
Proof.
  intros c H. destruct (is_word c) eqn:E; [|reflexivity].
  apply word_not_space in E. congruence.
Qed.

Lemma is_alias_word_spec : forall a,
    is_alias_word a = true <-> a <> [] /\ forallb is_word a = true.
Proof.
  intros [|c a]; simpl; split.
  - discriminate.
  - intros (H & _). contradiction.
  - intros H. split; [discriminate|exact H].
  - intros (_ & H). exact H.
Qed.

Lemma spaces_last : forall w,
    forallb is_space w = true -> w <> [] ->
    exists Y d, w = Y ++ [d] /\ is_space d = true.
Proof.
  intros w H Hne. destruct (exists_last Hne) as (Y & d & ->).
  exists Y, d. split; [reflexivity|].
  apply forallb_app_iff in H. destruct H as (_ & H). simpl in H.
  rewrite andb_true_r in H. exact H.
Qed.

(** The words of a match of [re_alias]. *)
Lemma ends_with_word : forall (pre w3 g z : str),
    forallb is_space w3 = true -> w3 <> [] ->
    exists Y d, pre ++ w3 ++ g ++ z = Y ++ d :: g ++ z /\ is_space d = true.
Proof.
  intros pre w3 g z Hs Hn.
  destruct (spaces_last w3 Hs Hn) as (Y & d & -> & Hd).
  exists (pre ++ Y), d. split; [|exact Hd].
  rewrite <- !app_assoc. reflexivity.
Qed.

(** The words of a match of [re_alias]. *)
Lemma alias_shape : forall p w t l,
    parses re_alias p w t l ->
    exists Y d g z,
      w = Y ++ d :: g ++ z /\ l = [(1, g)] /\
      is_space d = true /\ is_alias_word g = true /\
      forallb is_space (z ++ t) = true.
Proof.
  intros p w t l H. unfold re_alias in H. inv_parses. inv_parses.
  all: rewrite <- ?app_assoc, ?app_nil_r; cbn [app].
  all: match goal with
       | Hw : forallb is_word ?g = true, Hz : forallb is_space ?z = true
         |- exists _ _ _ _, ?lhs = _ /\ _ =>
           match lhs with
           | ?a ++ ?b ++ ?w3 ++ g ++ z =>
               destruct (ends_with_word (a ++ b) w3 g z) as (Y & d & E & Hd);
               [assumption|assumption|rewrite <- app_assoc in E]
           | ?w3 ++ g ++ z =>
               destruct (ends_with_word [] w3 g z) as (Y & d & E & Hd);
               [assumption|assumption|]
           end;
           exists Y, d, g, z
       end.
  all: split; [exact E|].
  all: split; [reflexivity|]; split; [exact Hd|].
  all: split; [apply is_alias_word_spec; split; assumption|].
  all: apply forallb_app_iff; split; [assumption|].
  all: match goal with
       | Ht : _ \/ _ |- _ => destruct Ht as [-> | ->]; reflexivity
       end.
Qed.

(** A text ends in at most one way with whitespace, a word and trailing
    whitespace. *)
Lemma trailing_word_unique : forall Y d g z Y' d' g' z',
    Y ++ d :: g ++ z = Y' ++ d' :: g' ++ z' ->
    is_space d = true -> is_alias_word g = true ->
    forallb is_space z = true ->
    is_space d' = true -> is_alias_word g' = true ->
    forallb is_space z' = true ->
    g = g' /\ z = z'.
Proof.
  intros Y d g z Y' d' g' z' E Hd Hg Hz Hd' Hg' Hz'.
  apply is_alias_word_spec in Hg. destruct Hg as (Hne & Hg).
  apply is_alias_word_spec in Hg'. destruct Hg' as (Hne' & Hg').
  apply (f_equal (@rev ascii)) in E.
  rewrite !rev_app_distr in E. cbn [rev] in E.
  rewrite !rev_app_distr in E. rewrite <- !app_assoc in E. cbn [app] in E.
  assert (Hs : forall (g0 : str) d0 (r : str),
             g0 <> [] -> forallb is_word g0 = true ->
             stops is_space (rev g0 ++ d0 :: r) = true).
  { intros g0 d0 r Hn Hw. apply stops_app.
    - intros C. apply Hn. rewrite <- (rev_involutive g0), C. reflexivity.
    - apply (stops_class is_space is_word).
      + exact word_not_space.
      + rewrite forallb_rev. exact Hw.
      + intros C. apply Hn. rewrite <- (rev_involutive g0), C. reflexivity. }
  destruct (span_unique is_space (rev z) (rev z') _ _
              ltac:(rewrite forallb_rev; exact Hz)
              ltac:(rewrite forallb_rev; exact Hz')
              (Hs g d (rev Y) Hne Hg) (Hs g' d' (rev Y') Hne' Hg') E)
    as (Ez & E').
  destruct (span_unique is_word (rev g) (rev g') (d :: rev Y) (d' :: rev Y')
              ltac:(rewrite forallb_rev; exact Hg)
              ltac:(rewrite forallb_rev; exact Hg')
              ltac:(simpl; rewrite (space_not_word d Hd); reflexivity)
              ltac:(simpl; rewrite (space_not_word d' Hd'); reflexivity) E')
    as (Eg & _).
  split.
  - rewrite <- (rev_involutive g), Eg. apply rev_involutive.
  - rewrite <- (rev_involutive z), Ez. apply rev_involutive.
Qed.

(** A text that ends with whitespace, a word and trailing whitespace has an
    alias match. *)
Lemma alias_parses : forall p d g z,
    is_space d = true -> is_alias_word g = true ->
    forallb is_space z = true ->
    parses re_alias p (d :: g ++ z) [] [(1, g)].
Proof.
  intros p d g z Hd Hg Hz.
  apply is_alias_word_spec in Hg. destruct Hg as (Hne & Hg).
  assert (H : exists l, parses re_alias p (([d] ++ []) ++ g ++ z ++ []) [] l
                        /\ l = [(1, g)]).
  { eexists. split.
    - unfold re_alias, opt_as. cbn [seq].
      apply parses_cat. exists [d], ([] ++ g ++ z ++ []), [], [(1, g)].
      split; [reflexivity|]. split; [reflexivity|]. split.
      { apply parses_plus_chr. simpl. rewrite Hd. repeat split; discriminate. }
      apply parses_cat. exists [], (g ++ z ++ []), [], [(1, g)].
      split; [reflexivity|]. split; [reflexivity|]. split.
      { apply parses_opt. right. split; reflexivity. }
      apply parses_cat. exists g, (z ++ []), [(1, g)], [].
      split; [reflexivity|]. split; [reflexivity|]. split.
      { apply parses_group. exists []. split; [reflexivity|].
        apply parses_plus_chr. repeat split; assumption. }
      apply parses_cat. exists z, [], [], [].
      split; [reflexivity|]. split; [reflexivity|]. split.
      { apply parses_star_chr. split; [exact Hz|reflexivity]. }
      apply parses_eol. repeat split. left. reflexivity.
    - reflexivity. }
  destruct H as (l & H & ->). cbn [app] in H.
  rewrite !app_nil_r in H. exact H.
Qed.

(** The alias of an item that ends with whitespace and a word is that
    word. *)
Lemma select_item_alias_word : forall Y d g z,
    is_space d = true -> is_alias_word g = true ->
    forallb is_space z = true ->
    select_item_alias (Y ++ d :: g ++ z) = g.
Proof.
  intros Y d g z Hd Hg Hz. unfold select_item_alias.
  destruct (re_search re_alias (Y ++ d :: g ++ z)) as [m|] eqn:E.
  - apply re_search_some in E. destruct E as (u & w & t & l & Es & -> & P).
    apply alias_shape in P.
    destruct P as (Y' & d' & g' & z' & -> & -> & Hd' & Hg' & Hz').
    rewrite <- !app_assoc in Es. cbn [app] in Es.
    rewrite <- !app_assoc in Es. rewrite app_assoc in Es.
    destruct (trailing_word_unique _ _ _ _ _ _ _ _ Es Hd Hg Hz Hd' Hg' Hz')
      as (-> & _).
    unfold group. cbn. reflexivity.
  - exfalso.
    replace (Y ++ d :: g ++ z) with (Y ++ (d :: g ++ z) ++ []) in E
      by (rewrite app_nil_r; reflexivity).
    exact (re_search_none _ _ _ _ _ E (alias_parses _ d g z Hd Hg Hz)).
Qed.

(** An item without alias match has no such ending. *)
Lemma no_alias_no_word : forall s Y d g z,
    re_search re_alias s = None ->
    s = Y ++ d :: g ++ z ->
    is_space d = true -> is_alias_word g = true ->
    forallb is_space z = true -> False.
Proof.
  intros s Y d g z E -> Hd Hg Hz.
  replace (Y ++ d :: g ++ z) with (Y ++ (d :: g ++ z) ++ []) in E
    by (rewrite app_nil_r; reflexivity).
  exact (re_search_none _ _ _ _ _ E (alias_parses _ d g z Hd Hg Hz)).
Qed.

(** An item with an alias match ends with whitespace, the alias and
    trailing whitespace. *)
Lemma alias_match_word : forall s m,
    re_search re_alias s = Some m ->
    exists Y d g z,
      s = Y ++ d :: g ++ z /\ group 1 m = Some g /\
      is_space d = true /\ is_alias_word g = true /\
      forallb is_space z = true.
Proof.
  intros s m E. apply re_search_some in E.
  destruct E as (u & w & t & l & -> & -> & P).
  apply alias_shape in P.
  destruct P as (Y & d & g & z & -> & -> & Hd & Hg & Hz).
  exists (u ++ Y), d, g, (z ++ t). split.
  { rewrite <- !app_assoc. cbn [app]. rewrite <- !app_assoc. reflexivity. }
  split; [reflexivity|]. auto.
Qed.

Lemma select_item_alias_as : forall X a,
    is_alias_word a = true -> select_item_alias (X ++ " AS " ++ a) = a.
Proof.
  intros X a Ha.
  replace (X ++ " AS " ++ a) with ((X ++ " AS") ++ " "%char :: a ++ [])
    by (rewrite app_nil_r, <- app_assoc; reflexivity).
  apply select_item_alias_word; auto.
Qed.

(** ** The shapes of the classifier's patterns *)

Ltac inv_all := repeat (progress inv_parses).

Ltac caps_word :=
  let g := fresh "g" in
  let Hg := fresh "Hg" in
  intros g Hg; cbn in Hg;
  first [ discriminate Hg
        | injection Hg as <-; apply is_alias_word_spec; split; assumption ].

(** An item matched by [re_level_only] or [re_level_alias] starts, after
    whitespace, with the word LEVEL. *)
Lemma level_only_shape : forall p w t l,
    parses re_level_only p w t l ->
    exists w0 K rest,
      w = w0 ++ K ++ rest /\ forallb is_space w0 = true /\
      lit_ok same_letter "LEVEL" K = true.
Proof.
  intros p w t l H. unfold re_level_only in H. inv_all. cbn [app].
  do 3 eexists. split; [reflexivity|]. split; assumption.
Qed.

Lemma level_alias_shape : forall p w t l,
    parses re_level_alias p w t l ->
    (exists w0 K rest,
        w = w0 ++ K ++ rest /\ forallb is_space w0 = true /\
        lit_ok same_letter "LEVEL" K = true) /\
    exists g, l = [(1, g)] /\ is_alias_word g = true.
Proof.
  intros p w t l H. unfold re_level_alias in H. inv_all; cbn [app].
  all: split;
    [ do 3 eexists; split; [reflexivity|]; split; assumption
    | eexists; split; [reflexivity|];
      apply is_alias_word_spec; split; assumption ].
Qed.

Lemma path_shape : forall p w t l,
    parses re_path p w t l ->
    (exists w0 K rest,
        w = w0 ++ K ++ rest /\ forallb is_space w0 = true /\
        lit_ok same_letter "SYS_CONNECT_BY_PATH" K = true) /\
    (forall g, assoc 3 l = Some g -> is_alias_word g = true).
Proof.
  intros p w t l H. unfold re_path in H. inv_all; cbn [app].
  all: split;
    [ do 3 eexists; split; [reflexivity|]; split; assumption
    | caps_word ].
Qed.

Lemma root_shape : forall p w t l,
    parses re_root p w t l ->
    (exists w0 K rest,
        w = w0 ++ K ++ rest /\ forallb is_space w0 = true /\
        lit_ok same_letter "CONNECT_BY_ROOT" K = true) /\
    (exists g, assoc 1 l = Some g /\ is_alias_word g = true) /\
    (forall g, assoc 2 l = Some g -> is_alias_word g = true).
Proof.
  intros p w t l H. unfold re_root in H. inv_all; cbn [app].
  all: split;
    [ do 3 eexists; split; [reflexivity|]; split; assumption
    | split;
      [ eexists; split; [reflexivity|];
        apply is_alias_word_spec; split; assumption
      | caps_word ] ].
Qed.

Lemma isleaf_shape : forall p w t l,
    parses re_isleaf p w t l ->
    (exists w0 K rest,
        w = w0 ++ K ++ rest /\ forallb is_space w0 = true /\
        lit_ok same_letter "CONNECT_BY_ISLEAF" K = true) /\
    (forall g, assoc 1 l = Some g -> is_alias_word g = true).
Proof.
  intros p w t l H. unfold re_isleaf in H. inv_all; cbn [app].
  all: split;
    [ do 3 eexists; split; [reflexivity|]; split; assumption
    | caps_word ].
Qed.

Lemma isleaf_alias_shape : forall p w t l,
    parses re_isleaf_alias p w t l ->
    forall g, assoc 1 l = Some g -> is_alias_word g = true.
Proof.
  intros p w t l H. unfold re_isleaf_alias in H. inv_all; cbn [app].
  all: caps_word.
Qed.

(** ** LEVEL tokens next to a word boundary *)

Lemma same_letter_nonword : forall x d,
    is_word x = true -> is_word d = false -> same_letter x d = false.
Proof.
  intros x d Hx Hd. destruct (same_letter x d) eqn:E; [|reflexivity].
  apply same_letter_word in E. congruence.
Qed.

Ltac kill_level d Hd :=
  assert (same_letter "L" d = false)
    by (apply same_letter_nonword; [reflexivity|exact Hd]);
  assert (same_letter "E" d = false)
    by (apply same_letter_nonword; [reflexivity|exact Hd]);
  assert (same_letter "V" d = false)
    by (apply same_letter_nonword; [reflexivity|exact Hd]).

Ltac level_cases :=
  unfold level_word_at;
  cbn [app firstn skipn lit_ok list_ascii_of_string word_start];
  repeat match goal with
         | H : same_letter _ _ = false |- _ => rewrite !H
         end;
  cbn [andb negb];
  rewrite ?andb_false_r; cbn [andb negb].

(** Whether a LEVEL token starts in a text that is followed by a character
    [d] that is no word character does not depend on what follows [d], and
    the token lies before [d]. *)
Lemma level_word_at_cut : forall p x d b,
    is_word d = false ->
    level_word_at p (x ++ d :: b) = level_word_at p (x ++ [d]) /\
    (level_word_at p (x ++ [d]) = true -> 5 <= length x).
Proof.
  intros p x d b Hd. kill_level d Hd.
  destruct x as [|c1 [|c2 [|c3 [|c4 [|c5 [|c6 x]]]]]].
  1-5: split; [level_cases; reflexivity
              |level_cases; intros C; discriminate C].
  - split; [|intros _; simpl; lia].
    unfold level_word_at.
    cbn [app firstn skipn lit_ok list_ascii_of_string word_start].
    rewrite Hd. reflexivity.
  - split; [|intros _; simpl; lia].
    unfold level_word_at.
    cbn [app firstn skipn lit_ok list_ascii_of_string word_start].
    reflexivity.
Qed.

Lemma level_word_at_nonword : forall p d b,
    is_word d = false -> level_word_at p (d :: b) = false.
Proof.
  intros p d b Hd. kill_level d Hd.
  unfold level_word_at. destruct b as [|b1 [|b2 [|b3 [|b4 b]]]];
    cbn [app firstn skipn lit_ok list_ascii_of_string word_start];
    repeat match goal with
           | H : same_letter _ _ = false |- _ => rewrite !H
           end;
    cbn [andb negb]; rewrite ?andb_false_r; reflexivity.
Qed.

(** The replacement of tokens in a text before such a character [d] goes
    on behind [d] afresh. *)
Lemma replace_tokens_before : forall repl a k p d,
    is_word d = false -> k <= length a ->
    exists Ra, forall b,
      replace_tokens level_word_at repl k p (a ++ d :: b)
      = Ra ++ d :: replace_tokens level_word_at repl 0 (Some d) b.
Proof.
  intros repl a. induction a as [|c a IH]; intros k p d Hd Hk.
  - exists []. intros b. simpl in Hk. assert (k = 0) as -> by lia.
    cbn [app replace_tokens]. rewrite (level_word_at_nonword p d b Hd).
    reflexivity.
  - destruct k as [|k].
    + destruct (level_word_at_cut p (c :: a) d [] Hd) as (_ & Hlen).
      destruct (level_word_at p ((c :: a) ++ [d])) eqn:T.
      * specialize (Hlen eq_refl). simpl in Hlen.
        destruct (IH 4 (Some c) d Hd ltac:(lia)) as (Ra & HRa).
        exists (repl ++ Ra). intros b.
        cbn [app replace_tokens].
        destruct (level_word_at_cut p (c :: a) d b Hd) as (E & _).
        cbn [app] in E. rewrite E. cbn [app] in T. rewrite T.
        rewrite HRa, <- app_assoc. reflexivity.
      * destruct (IH 0 (Some c) d Hd ltac:(lia)) as (Ra & HRa).
        exists (c :: Ra). intros b.
        cbn [app replace_tokens].
        destruct (level_word_at_cut p (c :: a) d b Hd) as (E & _).
        cbn [app] in E. rewrite E. cbn [app] in T. rewrite T.
        rewrite HRa. reflexivity.
    + destruct (IH k (Some c) d Hd ltac:(simpl in Hk; lia)) as (Ra & HRa).
      exists Ra. intros b. cbn [app replace_tokens]. apply HRa.
Qed.

Lemma replace_tokens_spaces : forall repl z p,
    forallb is_space z = true ->
    replace_tokens level_word_at repl 0 p z = z.
Proof.
  intros repl z. induction z as [|c z IH]; intros p Hz; [reflexivity|].
  simpl in Hz. apply andb_true_iff in Hz. destruct Hz as (Hc & Hz).
  cbn [replace_tokens].
  rewrite (level_word_at_nonword p c z (space_not_word c Hc)).
  rewrite IH by exact Hz. reflexivity.
Qed.

Lemma replace_tokens_in_word : forall repl g z p,
    is_word_opt p = true ->
    forallb is_word g = true -> forallb is_space z = true ->
    replace_tokens level_word_at repl 0 p (g ++ z) = g ++ z.
Proof.
  intros repl g z. induction g as [|c g IH]; intros p Hp Hg Hz.
  - apply replace_tokens_spaces. exact Hz.
  - simpl in Hg. apply andb_true_iff in Hg. destruct Hg as (Hc & Hg).
    cbn [app replace_tokens]. unfold level_word_at at 1. rewrite Hp.
    cbn [negb andb]. rewrite IH; auto.
Qed.

Lemma firstn_word_level : forall (g z : str),
    lit_ok same_letter "LEVEL" g = true -> firstn 5 (g ++ z) = g /\ skipn 5 (g ++ z) = z.
Proof.
  intros g z H. lit_chars H. split; reflexivity.
Qed.

(** A whole word followed by whitespace is replaced exactly when it is
    LEVEL. *)
Lemma replace_tokens_word : forall repl g z p,
    is_word_opt p = false ->
    forallb is_word g = true -> forallb is_space z = true ->
    replace_tokens level_word_at repl 0 p (g ++ z)
    = (if lit_ok same_letter "LEVEL" g then repl else g) ++ z.
Proof.
  intros repl g z p Hp Hg Hz.
  assert (Hws : word_start z = false).
  { destruct z as [|c z]; [reflexivity|]. simpl in Hz |- *.
    apply andb_true_iff in Hz. destruct Hz as (Hc & _).
    apply space_not_word. exact Hc. }
  destruct (lit_ok same_letter "LEVEL" g) eqn:L.
  - destruct (firstn_word_level g z L) as (F & S).
    assert (T : level_word_at p (g ++ z) = true).
    { unfold level_word_at. rewrite Hp, F, S, L, Hws. reflexivity. }
    lit_chars L. cbn [app replace_tokens] in T |- *. rewrite T.
    rewrite replace_tokens_spaces by exact Hz. reflexivity.
  - destruct g as [|c g].
    + cbn [app]. apply replace_tokens_spaces. exact Hz.
    + simpl in Hg. apply andb_true_iff in Hg. destruct Hg as (Hc & Hg).
      assert (T : level_word_at p ((c :: g) ++ z) = false).
      { destruct (level_word_at p ((c :: g) ++ z)) eqn:T; [|reflexivity].
        exfalso. unfold level_word_at in T.
        apply andb_true_iff in T. destruct T as (T & W).
        apply andb_true_iff in T. destruct T as (_ & T).
        assert (Hw : forallb is_word (c :: g) = true)
          by (simpl; rewrite Hc, Hg; reflexivity).
        clear Hc Hg.
        remember (c :: g) as w eqn:Ew. clear Ew c g.
        destruct w as [|c1 [|c2 [|c3 [|c4 [|c5 [|c6 w]]]]]];
          cbn [app firstn skipn] in T, W.
        6: { rewrite T in L. discriminate L. }
        6: { cbn [word_start] in W. simpl in Hw.
             repeat (apply andb_true_iff in Hw; destruct Hw as (? & Hw)).
             rewrite H4 in W. discriminate W. }
        all: destruct z as [|s z];
          [ cbn [firstn] in T; simpl in T;
            rewrite ?andb_false_r in T; discriminate T
          | simpl in Hz; apply andb_true_iff in Hz; destruct Hz as (Hs & _);
            apply space_not_word in Hs; kill_level s Hs;
            cbn [firstn lit_ok list_ascii_of_string] in T;
            repeat match goal with
                   | H : same_letter _ s = false |- _ => rewrite !H in T
                   end;
            cbn [andb] in T; rewrite ?andb_false_r in T; discriminate T ]. }
      cbn [app replace_tokens] in T |- *. rewrite T.
      rewrite replace_tokens_in_word; auto.
Qed.

(** The replacement of LEVEL tokens in an item that ends with whitespace,
    a word and trailing whitespace keeps that ending, the word being
    replaced when it is LEVEL. *)
Lemma level_expr_tail : forall repl Y d g z,
    is_space d = true -> is_alias_word g = true ->
    forallb is_space z = true ->
    exists Ra,
      replace_tokens level_word_at repl 0 None (Y ++ d :: g ++ z)
      = Ra ++ d :: (if lit_ok same_letter "LEVEL" g then repl else g) ++ z.
Proof.
  intros repl Y d g z Hd Hg Hz.
  apply is_alias_word_spec in Hg. destruct Hg as (_ & Hg).
  destruct (replace_tokens_before repl Y 0 None d (space_not_word d Hd)
              ltac:(lia)) as (Ra & HRa).
  exists Ra. rewrite HRa. do 2 f_equal.
  apply replace_tokens_word; auto.
  simpl. apply space_not_word. exact Hd.
Qed.

(** Replacing LEVEL by [1] and by [<cte>.level + 1] in an aliased item
    gives two items with the same alias. *)
Lemma level_expr_same_alias : forall cte col am,
    re_search re_alias col = Some am ->
    select_item_alias (re_sub re_level_token "1" col)
    = select_item_alias (re_sub re_level_token (cte ++ ".level + 1") col).
Proof.
  intros cte col am E. rewrite !sub_level_token.
  apply alias_match_word in E.
  destruct E as (Y & d & g & z & -> & _ & Hd & Hg & Hz).
  destruct (level_expr_tail "1" Y d g z Hd Hg Hz) as (R1 & ->).
  destruct (level_expr_tail (cte ++ ".level + 1") Y d g z Hd Hg Hz)
    as (R2 & ->).
  destruct (lit_ok same_letter "LEVEL" g).
  - rewrite (select_item_alias_word R1 d "1" z Hd eq_refl Hz).
    replace (R2 ++ d :: (cte ++ ".level + 1") ++ z)
      with ((R2 ++ d :: cte ++ ".level +") ++ " "%char :: "1" ++ z).
    + apply eq_sym. apply select_item_alias_word; auto.
    + rewrite <- !app_assoc. cbn [app]. rewrite <- !app_assoc. reflexivity.
  - rewrite !select_item_alias_word; auto.
Qed.

(** ** Plain items *)

Lemma last_segment_aux_split : forall c s cur,
    forallb (fun x => negb (Ascii.eqb x c)) cur = true ->
    exists q,
      rev cur ++ s = q ++ last_segment_aux c cur s /\
      forallb (fun x => negb (Ascii.eqb x c)) (last_segment_aux c cur s)
      = true.
Proof.
  intros c s. induction s as [|x s IH]; intros cur Hc.
  - exists []. cbn [last_segment_aux app]. rewrite app_nil_r.
    split; [reflexivity|]. rewrite forallb_rev. exact Hc.
  - cbn [last_segment_aux]. destruct (Ascii.eqb x c) eqn:E.
    + destruct (IH [] eq_refl) as (q & Hq & Hf).
      exists (rev cur ++ x :: q). split; [|exact Hf].
      cbn [rev app] in Hq. rewrite <- app_assoc. cbn [app].
      rewrite <- Hq. reflexivity.
    + destruct (IH (x :: cur)) as (q & Hq & Hf).
      { simpl. rewrite E, Hc. reflexivity. }
      exists q. split; [|exact Hf].
      cbn [rev] in Hq. rewrite <- app_assoc in Hq. exact Hq.
Qed.

(** The text after the last qualifier is an ending of the item and holds
    no dot. *)
Lemma unqualified_split : forall s,
    exists q, s = q ++ unqualified s /\ dot_free (unqualified s) = true.
Proof.
  intros s. destruct (last_segment_aux_split "." s [] eq_refl) as (q & Hq & Hf).
  exists q. split; [exact Hq|exact Hf].
Qed.

Lemma rstrip_split : forall s,
    exists v, s = rstrip s ++ v /\ forallb is_space v = true.
Proof.
  intros s. unfold rstrip.
  destruct (lstrip_split (rev s)) as (u & Hu & Hs).
  exists (rev u). split.
  - rewrite <- (rev_involutive s) at 1. rewrite Hu at 1.
    apply rev_app_distr.
  - rewrite forallb_rev. exact Hs.
Qed.

Lemma strip_split : forall s,
    exists u v,
      s = u ++ strip s ++ v /\
      forallb is_space u = true /\ forallb is_space v = true.
Proof.
  intros s. unfold strip.
  destruct (lstrip_split s) as (u & Hu & Hs).
  destruct (rstrip_split (lstrip s)) as (v & Hv & Hsv).
  exists u, v. split; [|split; assumption].
  rewrite <- Hv. exact Hu.
Qed.

Lemma lstrip_id : forall s, stops is_space s = true -> lstrip s = s.
Proof.
  intros [|c s] H; [reflexivity|]. simpl in H |- *.
  destruct (is_space c); [discriminate H|reflexivity].
Qed.

Lemma strip_stops : forall s, stops is_space (strip s) = true.
Proof.
  intros s. unfold strip.
  destruct (rstrip_split (lstrip s)) as (v & Hv & _).
  pose proof (lstrip_stops s) as H. rewrite Hv in H.
  destruct (rstrip (lstrip s)) as [|c r]; [reflexivity|exact H].
Qed.

Lemma strip_rev_stops : forall s, stops is_space (rev (strip s)) = true.
Proof.
  intros s. unfold strip, rstrip. rewrite rev_involutive.
  apply lstrip_stops.
Qed.

(** [strip] is idempotent. *)
Lemma strip_idem : forall s, strip (strip s) = strip s.
Proof.
  intros s. unfold strip at 1. rewrite (lstrip_id _ (strip_stops s)).
  unfold rstrip. rewrite (lstrip_id _ (strip_rev_stops s)).
  apply rev_involutive.
Qed.

Lemma forallb_substring : forall (f : ascii -> bool) a b,
    substring a b -> forallb f b = true -> forallb f a = true.
Proof.
  intros f a b (u & v & ->) H.
  apply forallb_app_iff in H. destruct H as (_ & H).
  apply forallb_app_iff in H. tauto.
Qed.

Lemma suffix_after_dot : forall (a cn Y T : str),
    a ++ "." ++ cn = Y ++ T -> dot_free T = true ->
    exists Y2, cn = Y2 ++ T.
Proof.
  intros a. induction a as [|x a IH]; intros cn Y T E HT.
  - destruct Y as [|y Y].
    + cbn [app] in E. subst T. discriminate HT.
    + injection E as _ E. exists Y. exact E.
  - destruct Y as [|y Y].
    + cbn [app] in E. subst T. exfalso.
      unfold dot_free in HT. simpl in HT.
      apply andb_true_iff in HT. destruct HT as (_ & HT).
      apply forallb_app_iff in HT. destruct HT as (_ & HT).
      discriminate HT.
    + injection E as _ E. exact (IH cn Y T E HT).
Qed.

Lemma space_not_dot : forall c,
    is_space c = true -> negb (Ascii.eqb c ".") = true.
Proof. intros c. all_ascii c; vm_compute; congruence. Qed.

Lemma word_not_dot : forall c,
    is_word c = true -> negb (Ascii.eqb c ".") = true.
Proof. intros c. all_ascii c; vm_compute; congruence. Qed.

Lemma forallb_impl : forall (f g : ascii -> bool) s,
    (forall c, f c = true -> g c = true) ->
    forallb f s = true -> forallb g s = true.
Proof.
  intros f g s H. induction s as [|c s IH]; [reflexivity|].
  simpl. intros Hf. apply andb_true_iff in Hf. destruct Hf as (Hc & Hs).
  rewrite (H c Hc), (IH Hs). reflexivity.
Qed.

(** A plain item and its qualified copy in the recursive member have the
    same alias. *)
Lemma plain_same_alias : forall ta col,
    re_search re_alias col = None ->
    select_item_alias col
    = select_item_alias (ta ++ "." ++ strip (unqualified col)).
Proof.
  intros ta col E. unfold select_item_alias at 1. rewrite E.
  destruct (unqualified_split col) as (q & Hq & Hdf).
  destruct (strip_split (unqualified col)) as (u & v & Hs & Hu & Hv).
  set (cn := strip (unqualified col)) in *.
  assert (Hcn : dot_free cn = true).
  { apply (forallb_substring _ cn (unqualified col)); [|exact Hdf].
    exists u, v. exact Hs. }
  unfold select_item_alias.
  destruct (re_search re_alias (ta ++ "." ++ cn)) as [m|] eqn:E2.
  - exfalso. apply alias_match_word in E2.
    destruct E2 as (Y & d & g & z & E2 & _ & Hd & Hg & Hz).
    destruct (suffix_after_dot ta cn Y (d :: g ++ z) E2) as (Y2 & HY2).
    { unfold dot_free. simpl. rewrite (space_not_dot d Hd). cbn [andb].
      apply forallb_app_iff. apply is_alias_word_spec in Hg. split.
      - apply (forallb_impl is_word); [exact word_not_dot|tauto].
      - apply (forallb_impl is_space); [exact space_not_dot|exact Hz]. }
    apply (no_alias_no_word col (q ++ u ++ Y2) d g (z ++ v) E); auto.
    + rewrite Hq at 1. rewrite Hs, HY2. rewrite <- !app_assoc.
      cbn [app]. rewrite <- !app_assoc. reflexivity.
    + apply forallb_app_iff. split; assumption.
  - rewrite (unqualified_qualified ta cn Hcn). apply eq_sym, strip_idem.
Qed.

(** ** Facts about one iteration of the classifier *)

Lemma alias_word_single_line : forall a,
    is_alias_word a = true -> single_line a = true.
Proof.
  intros a H. apply is_alias_word_spec in H. destruct H as (_ & H).
  apply (forallb_impl is_word); [|exact H].
  intros c. all_ascii c; vm_compute; congruence.
Qed.

Lemma alias_word_app : forall a b,
    is_alias_word a = true -> is_alias_word b = true ->
    is_alias_word (a ++ b) = true.
Proof.
  intros a b Ha Hb. apply is_alias_word_spec in Ha, Hb.
  apply is_alias_word_spec. split.
  - intros C. apply app_eq_nil in C. tauto.
  - apply forallb_app_iff. tauto.
Qed.

Lemma or_default_word : forall o d,
    (forall g, o = Some g -> is_alias_word g = true) ->
    is_alias_word d = true -> is_alias_word (or_default o d) = true.
Proof.
  intros [[|c g]|] d H Hd; cbn [or_default]; auto.
Qed.

Lemma level_expr_name_word : forall n,
    is_alias_word ("level_expr_" ++ str_of_nat n) = true.
Proof.
  intros n. apply alias_word_app; [reflexivity|].
  pose proof (isdigit_str_of_nat n) as H. unfold isdigit in H.
  apply is_alias_word_spec.
  destruct (str_of_nat n) as [|c s]; [discriminate H|].
  split; [discriminate|].
  apply (forallb_impl is_digit); [exact digit_is_word|exact H].
Qed.

Lemma alias_as_eq : forall X a t,
    is_alias_word a = true -> t = X ++ " AS " ++ a ->
    select_item_alias t = a.
Proof. intros X a t Ha ->. apply select_item_alias_as. exact Ha. Qed.

Lemma level_alias_group : forall s m,
    re_match re_level_alias s = Some m ->
    exists g, group 1 m = Some g /\ is_alias_word g = true.
Proof.
  intros s m E. apply re_match_some in E.
  destruct E as (w & t & l & _ & -> & P).
  apply level_alias_shape in P. destruct P as (_ & g & -> & Hg).
  exists g. split; [reflexivity|exact Hg].
Qed.

Lemma path_group : forall s m,
    re_match re_path s = Some m ->
    is_alias_word (or_default (group 3 m) "path") = true.
Proof.
  intros s m E. apply re_match_some in E.
  destruct E as (w & t & l & _ & -> & P).
  apply path_shape in P. destruct P as (_ & H).
  apply or_default_word; [exact H|reflexivity].
Qed.

Lemma root_group : forall s m,
    re_match re_root s = Some m ->
    is_alias_word (fmt (group 1 m)) = true /\
    is_alias_word (or_default (group 2 m) ("root_" ++ fmt (group 1 m)))
    = true.
Proof.
  intros s m E. apply re_match_some in E.
  destruct E as (w & t & l & _ & -> & P).
  apply root_shape in P. destruct P as (_ & (g & Hg & Hw) & H2).
  unfold group. cbn [m_caps]. rewrite Hg. cbn [fmt].
  split; [exact Hw|].
  apply or_default_word; [exact H2|].
  apply alias_word_app; [reflexivity|exact Hw].
Qed.

Lemma isleaf_alias_word : forall s,
    is_alias_word
      match re_match re_isleaf_alias s with
      | Some am => or_default (group 1 am) "is_leaf"
      | None => "is_leaf"
      end = true.
Proof.
  intros s. destruct (re_match re_isleaf_alias s) as [am|] eqn:E;
    [|reflexivity].
  apply re_match_some in E. destruct E as (w & t & l & _ & -> & P).
  apply or_default_word; [|reflexivity].
  exact (isleaf_alias_shape _ _ _ _ P).
Qed.

Lemma single_line_strip : forall s,
    single_line s = true -> single_line (strip s) = true.
Proof.
  intros s. apply forallb_substring. apply strip_substring.
Qed.

Lemma single_line_unqualified : forall s,
    single_line s = true -> single_line (unqualified s) = true.
Proof.
  intros s. apply forallb_substring.
  destruct (unqualified_split s) as (q & Hq & _).
  exists q, []. rewrite app_nil_r. exact Hq.
Qed.

(** ** Which pattern takes an item *)

(** A text matched by a pattern that starts with whitespace and a keyword
    reads, once stripped on the left and put in upper case, as the
    keyword followed by the rest. *)
Lemma keyword_head : forall (A : str) s w t,
    s = w ++ t ->
    (exists w0 K rest,
        w = w0 ++ K ++ rest /\ forallb is_space w0 = true /\
        lit_ok same_letter A K = true) ->
    stops is_space A = true -> A <> [] ->
    exists rest, upper (lstrip s) = upper A ++ rest.
Proof.
  intros A s w t -> (w0 & K & rest & -> & H0 & HK) HA Hne.
  exists (upper (rest ++ t)).
  rewrite <- !app_assoc. rewrite lstrip_app_ws; [|exact H0|].
  - rewrite upper_app, (lit_ok_upper _ _ HK). reflexivity.
  - destruct A as [|a A]; [contradiction|].
    apply lit_ok_cons in HK. destruct HK as (c & K' & -> & Hc & _).
    cbn [app stops] in HA |- *.
    rewrite (same_letter_space _ _ Hc). exact HA.
Qed.

Ltac head_of E shape :=
  let w := fresh "w" in
  let t := fresh "t" in
  let l := fresh "l" in
  let Es := fresh "Es" in
  let P := fresh "P" in
  apply re_match_some in E; destruct E as (w & t & l & Es & _ & P);
  apply shape in P;
  match type of P with
  | _ /\ _ => destruct P as (P & _)
  | _ => idtac
  end;
  destruct (keyword_head _ _ _ _ Es P eq_refl ltac:(discriminate))
    as (? & ?).

Lemma isleaf_head : forall s m,
    re_match re_isleaf s = Some m ->
    exists rest, upper (lstrip s) = "CONNECT_BY_ISLEAF" ++ rest.
Proof. intros s m E. head_of E isleaf_shape. eauto. Qed.

Lemma level_only_head : forall s m,
    re_match re_level_only s = Some m ->
    exists rest, upper (lstrip s) = "LEVEL" ++ rest.
Proof. intros s m E. head_of E level_only_shape. eauto. Qed.

Lemma level_alias_head : forall s m,
    re_match re_level_alias s = Some m ->
    exists rest, upper (lstrip s) = "LEVEL" ++ rest.
Proof. intros s m E. head_of E level_alias_shape. eauto. Qed.

Lemma path_head : forall s m,
    re_match re_path s = Some m ->
    exists rest, upper (lstrip s) = "SYS_CONNECT_BY_PATH" ++ rest.
Proof. intros s m E. head_of E path_shape. eauto. Qed.

Lemma root_head : forall s m,
    re_match re_root s = Some m ->
    exists rest, upper (lstrip s) = "CONNECT_BY_ROOT" ++ rest.
Proof. intros s m E. head_of E root_shape. eauto. Qed.

(** An item matched by [re_isleaf] is matched by none of the patterns
    tried before it. *)
Lemma isleaf_only : forall s m,
    re_match re_isleaf s = Some m ->
    s <> [] /\
    re_match re_level_only s = None /\
    re_match re_level_alias s = None /\
    re_match re_path s = None /\
    re_match re_root s = None.
Proof.
  intros s m E. destruct (isleaf_head s m E) as (r & Hr).
  split; [intros ->; discriminate Hr|].
  repeat split.
  - destruct (re_match re_level_only s) as [m'|] eqn:E'; [|reflexivity].
    destruct (level_only_head s m' E') as (r' & Hr').
    rewrite Hr in Hr'. discriminate Hr'.
  - destruct (re_match re_level_alias s) as [m'|] eqn:E'; [|reflexivity].
    destruct (level_alias_head s m' E') as (r' & Hr').
    rewrite Hr in Hr'. discriminate Hr'.
  - destruct (re_match re_path s) as [m'|] eqn:E'; [|reflexivity].
    destruct (path_head s m' E') as (r' & Hr').
    rewrite Hr in Hr'. discriminate Hr'.
  - destruct (re_match re_root s) as [m'|] eqn:E'; [|reflexivity].
    destruct (root_head s m' E') as (r' & Hr').
    rewrite Hr in Hr'. discriminate Hr'.
Qed.

(** ** One iteration of the classifier

    What an iteration appends depends on the lists only through the number
    of anchor columns; the anchor and the recursive entry it appends have
    the same alias; an ISLEAF item appends a placeholder to the output list
    alone. *)
Lemma classify_column_delta : forall ta cte l l' col,
    length (anchor_cols l) = length (anchor_cols l') ->
    exists da dr dout,
      classify_column ta cte l col
      = ColLists (anchor_cols l ++ da) (recursive_cols l ++ dr)
          (output_cols l ++ dout) /\
      classify_column ta cte l' col
      = ColLists (anchor_cols l' ++ da) (recursive_cols l' ++ dr)
          (output_cols l' ++ dout) /\
      Forall2 (fun a r => select_item_alias a = select_item_alias r) da dr /\
      (single_line col = true ->
       Forall (fun o => single_line o = true) dout) /\
      (if is_isleaf_item col
       then da = [] /\ dr = [] /\
            exists alias,
              is_alias_word alias = true /\
              dout = [isleaf_placeholder alias]
       else length dout = length da).
Proof.
  intros ta cte l l' col Hlen. unfold classify_column, is_isleaf_item.
  pose proof (single_line_strip col) as Hsl.
  destruct (strip col) as [|c0 s0] eqn:Es; cbv beta zeta iota.
  { exists [], [], []. rewrite !app_nil_r.
    destruct l, l'. repeat split; auto. }
  set (s := c0 :: s0) in *.
  destruct (re_match re_isleaf s) as [mi|] eqn:Ei.
  { destruct (isleaf_only s mi Ei) as (_ & -> & -> & -> & ->).
    eexists [], [], [_]. rewrite !app_nil_r.
    split; [reflexivity|]. split; [reflexivity|].
    split; [constructor|]. split.
    - intros _. constructor; [|constructor].
      unfold isleaf_placeholder, single_line.
      apply forallb_app_iff. split; [reflexivity|].
      apply alias_word_single_line, isleaf_alias_word.
    - split; [reflexivity|]. split; [reflexivity|].
      eexists. split; [|reflexivity]. apply isleaf_alias_word. }
  destruct (re_match re_level_only s) as [m|] eqn:E1.
  { eexists [_], [_], [_]. unfold push.
    split; [reflexivity|]. split; [reflexivity|]. split.
    - constructor; [|constructor].
      transitivity ("level" : str);
        [apply (alias_as_eq "1" "level"); reflexivity|symmetry].
      apply (alias_as_eq (cte ++ ".level + 1") "level"); [reflexivity|].
      rewrite <- !app_assoc. reflexivity.
    - split; [|reflexivity]. intros _. repeat constructor. }
  destruct (re_match re_level_alias s) as [m|] eqn:E2.
  { destruct (level_alias_group s m E2) as (g & -> & Hg). cbn [fmt].
    eexists [_], [_], [_]. unfold push.
    split; [reflexivity|]. split; [reflexivity|]. split.
    - constructor; [|constructor].
      transitivity g;
        [apply (alias_as_eq "1" g); [exact Hg|reflexivity]|symmetry].
      apply (alias_as_eq (cte ++ "." ++ g ++ " + 1") g); [exact Hg|].
      rewrite <- !app_assoc. reflexivity.
    - split; [|reflexivity]. intros _. constructor; [|constructor].
      apply alias_word_single_line. exact Hg. }
  destruct (re_match re_path s) as [m|] eqn:E3.
  { pose proof (path_group s m E3) as Hg.
    set (alias := or_default (group 3 m) "path") in *.
    eexists [_], [_], [_]. unfold push.
    split; [reflexivity|]. split; [reflexivity|]. split.
    - constructor; [|constructor].
      transitivity alias;
        [apply (alias_as_eq
                  ("CONCAT('" ++ fmt (group 2 m) ++ "', CAST("
                   ++ fmt (group 1 m) ++ " AS STRING))") alias);
         [exact Hg|rewrite <- !app_assoc; reflexivity]
        |symmetry].
      apply (alias_as_eq
               ("CONCAT(" ++ cte ++ "." ++ alias ++ ", '" ++ fmt (group 2 m)
                ++ "', CAST(" ++ ta ++ "." ++ fmt (group 1 m)
                ++ " AS STRING))") alias); [exact Hg|].
      rewrite <- !app_assoc. reflexivity.
    - split; [|reflexivity]. intros _. constructor; [|constructor].
      apply alias_word_single_line. exact Hg. }
  destruct (re_match re_root s) as [m|] eqn:E4.
  { destruct (root_group s m E4) as (Hr & Hg).
    set (alias := or_default (group 2 m) ("root_" ++ fmt (group 1 m))) in *.
    eexists [_], [_], [_]. unfold push.
    split; [reflexivity|]. split; [reflexivity|]. split.
    - constructor; [|constructor].
      transitivity alias;
        [apply (alias_as_eq (fmt (group 1 m)) alias); [exact Hg|reflexivity]
        |symmetry].
      apply (alias_as_eq (cte ++ "." ++ alias) alias); [exact Hg|].
      rewrite <- !app_assoc. reflexivity.
    - split; [|reflexivity]. intros _. constructor; [|constructor].
      apply alias_word_single_line. exact Hg. }
  destruct (contains "LEVEL" (upper s)).
  { destruct (re_search re_alias s) as [am|] eqn:Ea.
    - pose proof (level_expr_same_alias cte s am Ea) as Hsame.
      destruct (alias_match_word s am Ea) as (Y & d & g & z & _ & -> & _ & Hg & _).
      cbn [fmt].
      eexists [_], [_], [_]. unfold push.
      split; [reflexivity|]. split; [reflexivity|]. split.
      + constructor; [exact Hsame|constructor].
      + split; [|reflexivity]. intros _. constructor; [|constructor].
        apply alias_word_single_line. exact Hg.
    - rewrite <- Hlen.
      pose proof (level_expr_name_word (length (anchor_cols l))) as Hg.
      set (alias := "level_expr_" ++ str_of_nat (length (anchor_cols l))) in *.
      eexists [_], [_], [_]. unfold push.
      split; [reflexivity|]. split; [reflexivity|]. split.
      + constructor; [|constructor].
        transitivity alias;
          [apply (alias_as_eq (re_sub re_level_token "1" s) alias);
           [exact Hg|reflexivity]
          |symmetry].
        apply (alias_as_eq (re_sub re_level_token (cte ++ ".level + 1") s)
                 alias); [exact Hg|reflexivity].
      + split; [|reflexivity]. intros _. constructor; [|constructor].
        apply alias_word_single_line. exact Hg. }
  destruct (re_search re_alias s) as [am|] eqn:Ea.
  - pose proof Ea as Ea'.
    destruct (alias_match_word s am Ea) as (Y & d & g & z & _ & Eg & _ & Hg & _).
    rewrite Eg. cbn [fmt].
    eexists [_], [_], [_]. unfold push.
    split; [reflexivity|]. split; [reflexivity|]. split.
    + constructor; [|constructor].
      unfold select_item_alias at 1. rewrite Ea', Eg. cbn [fmt].
      apply eq_sym.
      apply (alias_as_eq (ta ++ "." ++ strip (before_last s (m_text am))) g);
        [exact Hg|].
      rewrite <- !app_assoc. reflexivity.
    + split; [|reflexivity]. intros _. constructor; [|constructor].
      apply alias_word_single_line. exact Hg.
  - eexists [_], [_], [_]. unfold push.
    split; [reflexivity|]. split; [reflexivity|]. split.
    + constructor; [|constructor]. apply plain_same_alias. exact Ea.
    + split; [|reflexivity]. intros H. constructor; [|constructor].
      apply single_line_strip, single_line_unqualified. auto.
Qed.

(** ** The loop *)

Lemma classify_fold_delta : forall ta cte cols l l',
    length (anchor_cols l) = length (anchor_cols l') ->
    exists da dr dout,
      fold_left (classify_column ta cte) cols l
      = ColLists (anchor_cols l ++ da) (recursive_cols l ++ dr)
          (output_cols l ++ dout) /\
      fold_left (classify_column ta cte) cols l'
      = ColLists (anchor_cols l' ++ da) (recursive_cols l' ++ dr)
          (output_cols l' ++ dout) /\
      Forall2 (fun a r => select_item_alias a = select_item_alias r) da dr /\
      (Forall (fun c => single_line c = true) cols ->
       Forall (fun o => single_line o = true) dout) /\
      length dout = length da + length (filter is_isleaf_item cols).
Proof.
  intros ta cte cols. induction cols as [|col cols IH]; intros l l' Hlen.
  - exists [], [], []. rewrite !app_nil_r. destruct l, l'.
    repeat split; auto.
  - destruct (classify_column_delta ta cte l l' col Hlen)
      as (da & dr & dout & E & E' & Ha & Hs & Hi).
    cbn [fold_left]. rewrite E, E'.
    destruct (IH (ColLists (anchor_cols l ++ da) (recursive_cols l ++ dr)
                    (output_cols l ++ dout))
                 (ColLists (anchor_cols l' ++ da) (recursive_cols l' ++ dr)
                    (output_cols l' ++ dout)))
      as (da2 & dr2 & dout2 & F & F' & Ha2 & Hs2 & Hi2).
    { cbn [anchor_cols]. rewrite !length_app, Hlen. reflexivity. }
    exists (da ++ da2), (dr ++ dr2), (dout ++ dout2).
    rewrite F, F'. cbn [anchor_cols recursive_cols output_cols].
    rewrite !app_assoc.
    split; [reflexivity|]. split; [reflexivity|]. split.
    { apply Forall2_app; assumption. }
    split.
    { intros Hall. inversion Hall; subst.
      apply Forall_app. split; auto. }
    rewrite !length_app, Hi2. cbn [filter].
    destruct (is_isleaf_item col).
    + destruct Hi as (-> & _ & alias & _ & ->). simpl. lia.
    + rewrite Hi. simpl. lia.
Qed.

(** The lists after the loop. *)
Lemma classify_columns_lists : forall ta cte cols,
    let l := classify_columns ta cte cols in
    Forall2 (fun a r => select_item_alias a = select_item_alias r)
      (anchor_cols l) (recursive_cols l) /\
    (Forall (fun c => single_line c = true) cols ->
     Forall (fun o => single_line o = true) (output_cols l)) /\
    length (output_cols l)
    = length (anchor_cols l) + length (filter is_isleaf_item cols).
Proof.
  intros ta cte cols. unfold classify_columns.
  destruct (classify_fold_delta ta cte cols (ColLists [] [] [])
              (ColLists [] [] []) eq_refl)
    as (da & dr & dout & E & _ & Ha & Hs & Hi).
  cbv zeta. rewrite E. cbn [anchor_cols recursive_cols output_cols app].
  auto.
Qed.

Lemma level_column_aliases : forall cte,
    select_item_alias "1 AS level"
    = select_item_alias (cte ++ ".level + 1 AS level").
Proof.
  intros cte. transitivity ("level" : str).
  - apply (alias_as_eq "1" "level"); reflexivity.
  - symmetry. apply (alias_as_eq (cte ++ ".level + 1") "level");
      [reflexivity|]. rewrite <- !app_assoc. reflexivity.
Qed.

(** ** The column lists *)

(** X1.  For every component record, table alias and generated CTE name,
    the anchor column list and the recursive column list built by
    [_build_column_lists] have the same number of entries, and entry [i]
    of the one has the same alias as entry [i] of the other. *)
Theorem anchor_recursive_aligned : forall c ta n,
    let l := column_lists c ta (cte_name_of n) in
    length (anchor_cols l) = length (recursive_cols l) /\
    Forall2 (fun a r => select_item_alias a = select_item_alias r)
      (anchor_cols l) (recursive_cols l).
Proof.
  intros c ta n.
  assert (H : Forall2 (fun a r => select_item_alias a = select_item_alias r)
                (anchor_cols (column_lists c ta (cte_name_of n)))
                (recursive_cols (column_lists c ta (cte_name_of n)))).
  { unfold column_lists, ensure_level.
    destruct (classify_columns_lists ta (cte_name_of n)
                (_split_select_columns (select_clause c))) as (Ha & _).
    destruct (negb _ && has_level c); [|exact Ha].
    unfold push. cbn [anchor_cols recursive_cols].
    apply Forall2_app; [exact Ha|].
    constructor; [apply level_column_aliases|constructor]. }
  split; [exact (Forall2_length H)|exact H].
Qed.

Lemma existsb_snoc : forall (f : str -> bool) l x,
    existsb f (l ++ [x]) = existsb f l || f x.
Proof.
  intros f l x. rewrite existsb_app. simpl. rewrite orb_false_r.
  reflexivity.
Qed.

(** X2.  When the query mentions LEVEL, the anchor column list always
    holds a column whose text mentions [level]: the depth column
    [1 AS level] is appended when no select item provides one. *)
Theorem depth_column_present : forall c ta cte,
    has_level c = true ->
    existsb (fun a => contains "level" (lower a))
      (anchor_cols (column_lists c ta cte)) = true.
Proof.
  intros c ta cte H. unfold column_lists, ensure_level. rewrite H.
  destruct (existsb (fun a => contains "level" (lower a))
              (anchor_cols
                 (classify_columns ta cte
                    (_split_select_columns (select_clause c))))) eqn:E.
  - cbn [negb andb]. exact E.
  - cbn [negb andb]. unfold push. cbn [anchor_cols].
    rewrite existsb_snoc, E. reflexivity.
Qed.

Lemma depth_column_present_witness :
  existsb (fun a => contains "level" (lower a))
    (anchor_cols (column_lists sample_components "e" (cte_name_of 1)))
  = true.
Proof.
  apply (depth_column_present sample_components "e" (cte_name_of 1)).
  reflexivity.
Defined.

(** X3.  The outer projection list has one entry for each anchor column
    and one more for each [CONNECT_BY_ISLEAF] item of the select list. *)
Theorem output_columns_count : forall c ta cte,
    let l := column_lists c ta cte in
    length (output_cols l)
    = length (anchor_cols l)
      + length (filter is_isleaf_item
                  (_split_select_columns (select_clause c))).
Proof.
  intros c ta cte. unfold column_lists, ensure_level.
  destruct (classify_columns_lists ta cte
              (_split_select_columns (select_clause c))) as (_ & _ & Hn).
  cbv zeta. destruct (negb _ && has_level c); [|exact Hn].
  unfold push. cbn [anchor_cols output_cols].
  rewrite !length_app, Hn. simpl. lia.
Qed.

(** ** ISLEAF items *)

Lemma join_cons_listed : forall y ys,
    join ", " (y :: ys) = y ++ listed_after ys.
Proof.
  intros y ys. revert y. induction ys as [|y' ys IH]; intros y.
  - cbn. rewrite app_nil_r. reflexivity.
  - change (join ", " (y :: y' :: ys))
      with (y ++ ", " ++ join ", " (y' :: ys)).
    rewrite IH. unfold listed_after. cbn [map concat].
    rewrite <- !app_assoc. reflexivity.
Qed.

Lemma join_app_cons : forall xs y ys,
    join ", " (xs ++ y :: ys)
    = concat (map (fun o => o ++ ", ") xs) ++ y ++ listed_after ys.
Proof.
  intros xs y ys. induction xs as [|x xs IH].
  - apply join_cons_listed.
  - cbn [app map concat].
    destruct (xs ++ y :: ys) as [|z zs] eqn:E.
    { destruct xs; discriminate E. }
    change (join ", " (x :: z :: zs)) with (x ++ ", " ++ join ", " (z :: zs)).
    rewrite IH, <- !app_assoc. reflexivity.
Qed.

Lemma single_line_listed : forall later,
    Forall (fun o => single_line o = true) later ->
    single_line (listed_after later) = true.
Proof.
  intros later H. induction H as [|o later Ho _ IH]; [reflexivity|].
  unfold listed_after. cbn [map concat]. unfold single_line.
  rewrite <- app_assoc. apply forallb_app_iff. split; [reflexivity|].
  apply forallb_app_iff. split; [exact Ho|exact IH].
Qed.

(** Each column of the split select list is a piece of the list. *)
Lemma split_columns_go_substring : forall s cur d col,
    In col (split_columns_go s cur d) -> substring col (rev cur ++ s).
Proof.
  intros s. induction s as [|ch s IH]; intros cur d col H.
  - cbn [split_columns_go] in H. rewrite app_nil_r.
    destruct (strip (rev cur)) as [|c t] eqn:E; [contradiction|].
    destruct H as [<-|[]]. rewrite <- E. apply strip_substring.
  - assert (Hrec : forall d', In col (split_columns_go s (ch :: cur) d') ->
                              substring col (rev cur ++ ch :: s)).
    { intros d' H'. apply IH in H'. cbn [rev] in H'.
      rewrite <- app_assoc in H'. exact H'. }
    cbn [split_columns_go] in H.
    destruct (Ascii.eqb ch "("); [exact (Hrec _ H)|].
    destruct (Ascii.eqb ch ")"); [exact (Hrec _ H)|].
    destruct (Ascii.eqb ch "," && Z.eqb d 0); [|exact (Hrec _ H)].
    destruct H as [<-|H].
    + apply (substring_trans _ (rev cur)); [apply strip_substring|].
      exists [], (ch :: s). reflexivity.
    + apply IH in H. destruct H as (u & v & E). cbn [rev app] in E.
      exists (rev cur ++ ch :: u), v. rewrite E, <- app_assoc. reflexivity.
Qed.

Lemma split_columns_single_line : forall s,
    single_line s = true ->
    Forall (fun c => single_line c = true) (_split_select_columns s).
Proof.
  intros s H. apply Forall_forall. intros col Hin.
  apply split_columns_go_substring in Hin.
  exact (forallb_substring _ _ _ Hin H).
Qed.

(** X4.  A select item classified as [CONNECT_BY_ISLEAF] contributes no
    column to the anchor and recursive lists, which are those of the select
    list without the item; its only trace is the entry
    [-- CONNECT_BY_ISLEAF needs manual implementation AS <alias>] of the
    output list.  In the comma-joined output text the entries listed after
    it follow the comment marker, and when the select list is on one line
    no line break ends the comment before them. *)
Theorem isleaf_item_only_in_output : forall c ta n before col after,
    _split_select_columns (select_clause c) = before ++ col :: after ->
    is_isleaf_item col = true ->
    let cte := cte_name_of n in
    let l := column_lists c ta cte in
    let l' :=
      ensure_level (has_level c) cte
        (classify_columns ta cte (before ++ after)) in
    let shown := output_cols (classify_columns ta cte before) in
    anchor_cols l = anchor_cols l' /\
    recursive_cols l = recursive_cols l' /\
    exists alias later,
      is_alias_word alias = true /\
      output_cols l = shown ++ isleaf_placeholder alias :: later /\
      output_cols l' = shown ++ later /\
      snd (_build_column_lists c ta cte)
      = concat (map (fun o => o ++ ", ") shown)
        ++ "-- CONNECT_BY_ISLEAF needs manual implementation AS " ++ alias
        ++ listed_after later /\
      (single_line (select_clause c) = true ->
       single_line (alias ++ listed_after later) = true).
Proof.
  intros c ta n before col after Hsplit Hleaf cte l l' shown.
  set (lb := classify_columns ta cte before) in *.
  destruct (classify_column_delta ta cte lb lb col eq_refl)
    as (da & dr & dout & E1 & _ & _ & _ & Hi).
  rewrite Hleaf in Hi. destruct Hi as (-> & -> & alias & Ha & ->).
  rewrite !app_nil_r in E1.
  destruct (classify_fold_delta ta cte after
              (classify_column ta cte lb col) lb)
    as (da & dr & dout & F1 & F2 & _ & Hs & _).
  { rewrite E1. reflexivity. }
  rewrite E1 in F1. cbn [anchor_cols recursive_cols output_cols] in F1.
  assert (L1 : classify_columns ta cte (before ++ col :: after)
               = ColLists (anchor_cols lb ++ da) (recursive_cols lb ++ dr)
                   ((output_cols lb ++ [isleaf_placeholder alias]) ++ dout)).
  { unfold classify_columns. rewrite fold_left_app. cbn [fold_left].
    change (fold_left (classify_column ta cte) before (ColLists [] [] []))
      with lb.
    rewrite E1. exact F1. }
  assert (L2 : classify_columns ta cte (before ++ after)
               = ColLists (anchor_cols lb ++ da) (recursive_cols lb ++ dr)
                   (output_cols lb ++ dout)).
  { unfold classify_columns. rewrite fold_left_app. exact F2. }
  subst l l'. unfold _build_column_lists, column_lists.
  rewrite Hsplit, L1, L2. unfold ensure_level.
  cbn [anchor_cols recursive_cols output_cols].
  assert (Hafter : single_line (select_clause c) = true ->
                   Forall (fun o => single_line o = true) dout).
  { intros Hsl. apply Hs.
    pose proof (split_columns_single_line _ Hsl) as Hall.
    rewrite Hsplit in Hall. apply Forall_app in Hall.
    destruct Hall as (_ & Hall). inversion Hall; assumption. }
  destruct (negb _ && has_level c).
  - unfold push. cbn [anchor_cols recursive_cols output_cols snd].
    split; [reflexivity|]. split; [reflexivity|].
    exists alias, (dout ++ ["level" : str]).
    split; [exact Ha|].
    split; [subst shown; rewrite <- !app_assoc; reflexivity|].
    split; [subst shown; rewrite <- !app_assoc; reflexivity|].
    split.
    + replace (((output_cols lb ++ [isleaf_placeholder alias]) ++ dout)
               ++ ["level" : str])
        with (output_cols lb
              ++ isleaf_placeholder alias :: dout ++ ["level" : str])
        by (rewrite <- !app_assoc; reflexivity).
      rewrite join_app_cons. unfold isleaf_placeholder.
      rewrite <- !app_assoc. reflexivity.
    + intros Hsl. apply forallb_app_iff. split.
      * apply alias_word_single_line. exact Ha.
      * apply single_line_listed. apply Forall_app.
        split; [auto|repeat constructor].
  - cbn [anchor_cols recursive_cols output_cols snd].
    split; [reflexivity|]. split; [reflexivity|].
    exists alias, dout.
    split; [exact Ha|].
    split; [subst shown; rewrite <- !app_assoc; reflexivity|].
    split; [reflexivity|].
    split.
    + rewrite <- app_assoc. cbn [app].
      rewrite join_app_cons. unfold isleaf_placeholder.
      rewrite <- !app_assoc. reflexivity.
    + intros Hsl. apply forallb_app_iff. split.
      * apply alias_word_single_line. exact Ha.
      * apply single_line_listed. auto.
Qed.

Lemma isleaf_item_only_in_output_witness :
  anchor_cols (column_lists isleaf_components "e" (cte_name_of 1))
  = anchor_cols
      (ensure_level (has_level isleaf_components) (cte_name_of 1)
         (classify_columns "e" (cte_name_of 1)
            ([("name" : str)] ++ [("dept" : str)]))).
Proof.
  exact (proj1 (isleaf_item_only_in_output isleaf_components "e" 1
                  [("name" : str)] "CONNECT_BY_ISLEAF AS leaf"
                  [("dept" : str)] eq_refl eq_refl)).
Defined.

(** * The extractor and the entry point, continued *)

(** What the extractor returns for a hierarchy that is no sequence
    generator. *)
Lemma parse_hierarchy_inv : forall sql c,
    _parse_connect_by_query sql = Ok (Some c) ->
    is_sequence_generator c = false ->
    let sn := join " " (split_ws sql) in
    re_search re_dual (upper sn) = None /\
    exists sm sel cm cb,
      re_match re_select sn = Some sm /\ group 1 sm = Some sel /\
      re_search re_connect_by sn = Some cm /\ group 2 cm = Some cb /\
      select_clause c = strip sel /\
      connect_by_clause c = Some (strip cb) /\
      has_nocycle c
      = match group 1 cm with Some _ => true | None => false end /\
      has_prior c = contains "PRIOR" (upper (strip cb)) /\
      has_level c
      = contains "LEVEL" (upper sn) && contains "CONNECT BY" (upper sn) /\
      has_sys_connect_by_path c
      = contains "SYS_CONNECT_BY_PATH" (upper sn) /\
      has_connect_by_root c = contains "CONNECT_BY_ROOT" (upper sn) /\
      has_connect_by_isleaf c = contains "CONNECT_BY_ISLEAF" (upper sn) /\
      having_clause c = None /\ level_limit c = None.
Proof.
  intros sql c H Hseq. unfold _parse_connect_by_query in H.
  cbv zeta. set (sn := join " " (split_ws sql)) in *.
  destruct (re_search re_dual (upper sn)) as [dm|].
  { destruct (sequence_generator_never_raises sn) as (c0 & E & Hc0).
    rewrite E in H. cbn [bind] in H. injection H as <-. congruence. }
  split; [reflexivity|].
  destruct (re_match re_select sn) as [sm|] eqn:Esel; [|discriminate H].
  destruct (match_group 1 _ _ _ Esel eq_refl) as (sel & Hsel).
  rewrite Hsel in H. cbn [req bind] in H.
  destruct (parse_from_never_raises sn) as (ft & Eft). rewrite Eft in H.
  cbn [bind] in H.
  destruct ft as [[fc ta]|]; [|discriminate H].
  destruct (group1_strip_search re_start_with sn eq_refl) as (sw & Esw).
  rewrite Esw in H. cbn [bind] in H.
  destruct (re_search re_connect_by sn) as [cm|] eqn:Ecb; [|discriminate H].
  destruct (search_group 2 _ _ _ Ecb eq_refl) as (cb & Hcb).
  rewrite Hcb in H. cbn [req bind] in H.
  destruct (group1_strip_search re_where sn eq_refl) as (wc & Ewc).
  rewrite Ewc in H. cbn [bind] in H.
  destruct (group1_strip_search re_order_siblings sn eq_refl) as (os & Eos).
  rewrite Eos in H. cbn [bind] in H.
  assert (Hob : exists o,
             group1_strip
               (if truthy os
                then re_search re_order_by_after_siblings sn
                else re_search re_order_by sn) = Ok o).
  { destruct (truthy os); apply group1_strip_search; reflexivity. }
  destruct Hob as (ob & Eob). rewrite Eob in H. cbn [bind] in H.
  destruct (group1_strip_search re_group_by sn eq_refl) as (gb & Egb).
  rewrite Egb in H. cbn [bind] in H.
  injection H as <-.
  exists sm, sel, cm, cb. cbn. repeat split; auto.
Qed.

(** The select list captured by [re_select] is a piece of the text. *)
Lemma select_capture_substring : forall s m sel,
    re_match re_select s = Some m -> group 1 m = Some sel ->
    substring sel s.
Proof.
  intros s m sel E Hg. apply re_match_some in E.
  destruct E as (w & t & l & -> & -> & P).
  unfold re_select in P. inv_all. cbn in Hg. injection Hg as <-.
  cbn [app].
  match goal with
  | |- substring ?g ((?a ++ ?b ++ ?c ++ ?g ++ ?rest) ++ ?t) =>
      exists (a ++ b ++ c), (rest ++ t)
  end.
  rewrite <- !app_assoc. reflexivity.
Qed.

(** An item classified as [CONNECT_BY_ISLEAF] holds that name. *)
Lemma isleaf_item_contains : forall col,
    is_isleaf_item col = true ->
    contains "CONNECT_BY_ISLEAF" (upper col) = true.
Proof.
  intros col H. unfold is_isleaf_item in H.
  destruct (re_match re_isleaf (strip col)) as [m|] eqn:E; [|discriminate H].
  destruct (isleaf_head _ _ E) as (rest & Hr).
  apply (contains_substring _ (upper (lstrip (strip col)))).
  - apply upper_substring.
    apply (substring_trans _ (strip col)); [|apply strip_substring].
    destruct (lstrip_suffix (strip col)) as (u & Hu).
    exists u, []. rewrite app_nil_r. exact Hu.
  - apply contains_iff. exists [], rest. exact Hr.
Qed.

(** X5.  When the extractor returns the components of a hierarchy whose
    select list holds an item classified as [CONNECT_BY_ISLEAF], a
    successful conversion carries the CONNECT_BY_ISLEAF note and the
    CONNECT_BY_ISLEAF warning. *)
Theorem isleaf_item_is_reported : forall self sql c col r,
    _parse_connect_by_query sql = Ok (Some c) ->
    is_sequence_generator c = false ->
    In col (_split_select_columns (select_clause c)) ->
    is_isleaf_item col = true ->
    snd (convert self sql) = Ok r ->
    success r = true ->
    In note_isleaf (notes r) /\ In warn_isleaf (warnings r).
Proof.
  intros self sql c col r Hp Hseq Hin Hleaf Hr Hs.
  destruct (parse_hierarchy_inv sql c Hp Hseq)
    as (_ & sm & sel & cm & cb & Esel & Hsel & _ & _ & Hsc & _ & _ & _ & _
        & _ & _ & Hflag & _).
  assert (Hf : has_connect_by_isleaf c = true).
  { rewrite Hflag.
    apply (contains_substring _ (upper col));
      [|exact (isleaf_item_contains col Hleaf)].
    apply upper_substring.
    apply (substring_trans _ (select_clause c)).
    - apply split_columns_go_substring in Hin. exact Hin.
    - rewrite Hsc. apply (substring_trans _ sel); [apply strip_substring|].
      exact (select_capture_substring _ _ _ Esel Hsel). }
  destruct (convert_cases self sql)
    as [(_ & E) | [(_ & _ & E) | [(c' & _ & Hp' & Hs' & E)
       | [(c' & b & _ & Hp' & _ & Hb & E) | (c' & e & _ & _ & _ & _ & E)]]]];
    rewrite E in Hr; cbn [snd] in Hr; injection Hr as <-;
    try discriminate Hs.
  - rewrite Hp in Hp'. injection Hp' as <-. congruence.
  - rewrite Hp in Hp'. injection Hp' as <-.
    apply build_ok_inv in Hb.
    destruct Hb as (tn & toks & ta & parsed & _ & _ & _ & _ & ->).
    cbn [notes warnings b_notes b_warnings].
    unfold feature_notes, feature_warnings. rewrite Hf. split.
    + apply in_or_app. right. apply in_or_app. right.
      apply in_or_app. right. apply in_or_app. right.
      apply in_or_app. left. left. reflexivity.
    + apply in_or_app. right. apply in_or_app. right. left. reflexivity.
Qed.

Lemma isleaf_item_is_reported_witness :
  exists r,
    snd (convert (Converter 0)
           "SELECT name, CONNECT_BY_ISLEAF AS leaf FROM emp START WITH mgr IS NULL CONNECT BY PRIOR id = mgr")
    = Ok r /\
    In note_isleaf (notes r) /\ In warn_isleaf (warnings r).
Proof.
  set (sql := "SELECT name, CONNECT_BY_ISLEAF AS leaf FROM emp START WITH mgr IS NULL CONNECT BY PRIOR id = mgr" : str).
  assert (Hp : exists c, _parse_connect_by_query sql = Ok (Some c))
    by (vm_compute; eexists; reflexivity).
  destruct Hp as (c & Hp).
  assert (Hr : exists r, snd (convert (Converter 0) sql) = Ok r)
    by (vm_compute; eexists; reflexivity).
  destruct Hr as (r & Hr).
  exists r. split; [exact Hr|].
  apply (isleaf_item_is_reported (Converter 0) sql c
           "CONNECT_BY_ISLEAF AS leaf" r Hp).
  - vm_compute in Hp. injection Hp as <-. reflexivity.
  - vm_compute in Hp. injection Hp as <-. vm_compute. right. left.
    reflexivity.
  - vm_compute. reflexivity.
  - exact Hr.
  - vm_compute in Hr. injection Hr as <-. reflexivity.
Defined.

(** * The select-list splitter *)

Lemma str_eqb_eq : forall a b, str_eqb a b = true <-> a = b.
Proof.
  induction a as [|x a IH]; intros [|y b]; simpl; split; intros H;
    try reflexivity; try discriminate.
  - apply andb_true_iff in H. destruct H as (H1 & H2).
    apply Ascii.eqb_eq in H1. apply IH in H2. congruence.
  - injection H as -> ->. rewrite Ascii.eqb_refl. cbn [andb].
    apply IH. reflexivity.
Qed.

Lemma is_select_item_spec : forall s,
    is_select_item s = true <->
    s <> [] /\ strip s = s /\ closed_item s 0 = true.
Proof.
  intros s. unfold is_select_item. rewrite !andb_true_iff, negb_true_iff.
  rewrite str_eqb_eq. split.
  - intros ((H1 & H2) & H3). repeat split; auto.
    intros ->. discriminate H1.
  - intros (H1 & H2 & H3). repeat split; auto.
    destruct s; [contradiction|reflexivity].
Qed.

(** Scanning a closed item neither splits nor leaves a depth. *)
Lemma split_columns_go_item : forall s d rest cur,
    closed_item s d = true ->
    split_columns_go (s ++ rest) cur d
    = split_columns_go rest (rev s ++ cur) 0.
Proof.
  intros s. induction s as [|ch s IH]; intros d rest cur H.
  - cbn [closed_item] in H. apply Z.eqb_eq in H. subst d. reflexivity.
  - cbn [closed_item] in H. cbn [app split_columns_go rev].
    rewrite <- app_assoc. cbn [app].
    destruct (Ascii.eqb ch "("); [apply IH; exact H|].
    destruct (Ascii.eqb ch ")"); [apply IH; exact H|].
    destruct (Ascii.eqb ch ",").
    + apply andb_true_iff in H. destruct H as (Hd & H).
      apply negb_true_iff in Hd. rewrite Hd. cbn [andb].
      apply IH. exact H.
    + cbn [andb]. apply IH. exact H.
Qed.

Lemma strip_after_spaces : forall u c,
    forallb is_space u = true -> c <> [] -> strip c = c ->
    strip (u ++ c) = c.
Proof.
  intros u c Hu Hne Hc. unfold strip.
  assert (Hst : stops is_space c = true)
    by (rewrite <- Hc; apply strip_stops).
  rewrite (lstrip_app_ws u c Hu Hst).
  unfold strip in Hc. rewrite (lstrip_id c Hst) in Hc. exact Hc.
Qed.

Lemma split_join_go : forall cols cur,
    Forall (fun c => is_select_item c = true) cols ->
    forallb is_space cur = true -> cols <> [] ->
    split_columns_go (join ", " cols) cur 0 = cols.
Proof.
  intros cols. induction cols as [|c cols IH]; intros cur Hall Hcur Hne;
    [contradiction|].
  inversion Hall as [|? ? Hc Hrest]; subst.
  apply is_select_item_spec in Hc. destruct Hc as (Hcne & Hcs & Hci).
  assert (Hstrip : strip (rev (rev c ++ cur)) = c).
  { rewrite rev_app_distr, rev_involutive.
    apply strip_after_spaces; auto. rewrite forallb_rev. exact Hcur. }
  destruct cols as [|c' cols].
  - cbn [join]. rewrite <- (app_nil_r c) at 1.
    rewrite (split_columns_go_item c 0 [] cur Hci).
    cbn [split_columns_go]. rewrite Hstrip.
    destruct c; [contradiction|reflexivity].
  - change (join ", " (c :: c' :: cols))
      with (c ++ ", " ++ join ", " (c' :: cols)).
    rewrite (split_columns_go_item c 0 _ cur Hci).
    cbn [app list_ascii_of_string split_columns_go].
    cbn [Ascii.eqb Bool.eqb andb Z.eqb]. rewrite Hstrip. f_equal.
    apply IH; [exact Hrest|reflexivity|discriminate].
Qed.

(** X6.  Splitting is a left inverse of joining: for select items that are
    not empty, carry no surrounding whitespace and have their commas
    inside parentheses, [_split_select_columns] returns exactly the items
    that were joined with [", "]. *)
Theorem split_join_round_trip : forall cols,
    Forall (fun c => is_select_item c = true) cols ->
    _split_select_columns (join ", " cols) = cols.
Proof.
  intros [|c cols] H; [reflexivity|].
  apply split_join_go; [exact H|reflexivity|discriminate].
Qed.

Lemma split_join_round_trip_witness :
  _split_select_columns
    (join ", " [("name" : str); ("SYS_CONNECT_BY_PATH(name, '/') AS p" : str)])
  = [("name" : str); ("SYS_CONNECT_BY_PATH(name, '/') AS p" : str)].
Proof.
  apply split_join_round_trip.
  repeat constructor.
Defined.

Lemma split_columns_go_stripped : forall s cur d col,
    In col (split_columns_go s cur d) -> strip col = col.
Proof.
  intros s. induction s as [|ch s IH]; intros cur d col H.
  - cbn [split_columns_go] in H.
    destruct (strip (rev cur)) as [|c t] eqn:E; [contradiction|].
    destruct H as [<-|[]]. rewrite <- E. apply strip_idem.
  - cbn [split_columns_go] in H.
    destruct (Ascii.eqb ch "("); [exact (IH _ _ _ H)|].
    destruct (Ascii.eqb ch ")"); [exact (IH _ _ _ H)|].
    destruct (Ascii.eqb ch "," && Z.eqb d 0); [|exact (IH _ _ _ H)].
    destruct H as [<-|H]; [apply strip_idem|exact (IH _ _ _ H)].
Qed.

(** X7.  Every column that [_split_select_columns] returns is a piece of
    the select list and carries no surrounding whitespace. *)
Theorem split_columns_are_stripped_pieces : forall s col,
    In col (_split_select_columns s) ->
    substring col s /\ strip col = col.
Proof.
  intros s col H. split.
  - exact (split_columns_go_substring s [] 0 col H).
  - exact (split_columns_go_stripped s [] 0 col H).
Qed.

Lemma split_columns_are_stripped_pieces_witness :
  substring "b" " a , b " /\ strip "b" = ("b" : str).
Proof.
  apply (split_columns_are_stripped_pieces " a , b " "b").
  vm_compute. right. left. reflexivity.
Defined.

Lemma split_columns_go_negative : forall s cur d,
    (d < 0)%Z -> no_open_paren s = true ->
    split_columns_go s cur d
    = match strip (rev cur ++ s) with
      | [] => []
      | c :: t => [c :: t]
      end.
Proof.
  intros s. induction s as [|ch s IH]; intros cur d Hd Hs.
  - cbn [split_columns_go]. rewrite app_nil_r. reflexivity.
  - cbn [no_open_paren forallb] in Hs. apply andb_true_iff in Hs.
    destruct Hs as (Hch & Hs). apply negb_true_iff in Hch.
    cbn [split_columns_go]. rewrite Hch.
    replace (rev cur ++ ch :: s) with (rev (ch :: cur) ++ s)
      by (cbn [rev]; rewrite <- app_assoc; reflexivity).
    destruct (Ascii.eqb ch ")"); [apply IH; [lia|exact Hs]|].
    replace (Z.eqb d 0) with false by (symmetry; apply Z.eqb_neq; lia).
    rewrite andb_false_r. apply IH; [lia|exact Hs].
Qed.

(** X8.  A closing parenthesis without its opening one switches the
    splitting off: when the text before it holds no parenthesis and no
    comma and the text behind it opens no parenthesis, the whole select
    list comes back as one column, whatever commas follow. *)
Theorem unbalanced_paren_stops_splitting : forall a b,
    forallb (fun c => negb (Ascii.eqb c "(") && negb (Ascii.eqb c ")")
                      && negb (Ascii.eqb c ",")) a = true ->
    no_open_paren b = true ->
    _split_select_columns (a ++ ")" ++ b)
    = match strip (a ++ ")" ++ b) with
      | [] => []
      | c :: t => [c :: t]
      end.
Proof.
  intros a b Ha Hb. unfold _split_select_columns.
  assert (H : forall cur,
             split_columns_go (a ++ ")" ++ b) cur 0
             = split_columns_go (")" ++ b) (rev a ++ cur) 0).
  { clear Hb. induction a as [|x a IH]; intros cur; [reflexivity|].
    cbn [forallb] in Ha. apply andb_true_iff in Ha. destruct Ha as (Hx & Ha).
    apply andb_true_iff in Hx. destruct Hx as (Hx & H3).
    apply andb_true_iff in Hx. destruct Hx as (H1 & H2).
    apply negb_true_iff in H1, H2, H3.
    cbn [app split_columns_go rev]. rewrite H1, H2, H3. cbn [andb].
    rewrite (IH Ha), <- app_assoc. reflexivity. }
  rewrite H. cbn [app list_ascii_of_string split_columns_go].
  cbn [Ascii.eqb Bool.eqb].
  rewrite (split_columns_go_negative b _ (0 - 1)%Z ltac:(lia) Hb).
  cbn [rev]. rewrite app_nil_r, rev_involutive, <- app_assoc. reflexivity.
Qed.

Lemma unbalanced_paren_stops_splitting_witness :
  _split_select_columns ("a" ++ ")" ++ ", b, c")
  = [("a), b, c" : str)].
Proof.
  rewrite (unbalanced_paren_stops_splitting "a" ", b, c" eq_refl eq_refl).
  reflexivity.
Defined.

(** * Aliases, names and failures *)

(** ** The generated table alias *)

Lemma unqualified_ends_with_dot : forall q, unqualified (q ++ ".") = [].
Proof.
  intros q. unfold unqualified, last_segment.
  change (q ++ ".") with (q ++ "."%char :: []).
  rewrite last_segment_aux_app. reflexivity.
Qed.

(** X9.  [_generate_alias] gives the lower-cased first character of the
    table name without its schema prefix, and raises [IndexError] when
    nothing follows the last dot of the name or the name is empty. *)
Theorem generate_alias_spec : forall c name,
    dot_free (c :: name) = true ->
    _generate_alias (c :: name) = Ok [lower_char c] /\
    (forall schema,
        _generate_alias (schema ++ "." ++ c :: name) = Ok [lower_char c]) /\
    (forall schema, _generate_alias (schema ++ ".") = Raise index_error_string)
    /\ _generate_alias [] = Raise index_error_string.
Proof.
  intros c name H. unfold _generate_alias. repeat split.
  - rewrite (unqualified_plain _ H). reflexivity.
  - intros schema. rewrite (unqualified_qualified schema _ H). reflexivity.
  - intros schema. rewrite unqualified_ends_with_dot. reflexivity.
Qed.

Lemma generate_alias_spec_witness :
  _generate_alias "EMPLOYEES" = Ok ("e" : str) /\
  _generate_alias "hr.EMPLOYEES" = Ok ("e" : str).
Proof.
  destruct (generate_alias_spec "E" "MPLOYEES" eq_refl) as (H1 & H2 & _).
  split; [exact H1|exact (H2 "hr")].
Defined.

(** ** Generated CTE names *)

Lemma unorm_nonnil : forall d, Decimal.unorm d <> Decimal.Nil.
Proof. induction d; simpl; try discriminate. exact IHd. Qed.

Lemma to_uint_nonnil : forall n, Nat.to_uint n <> Decimal.Nil.
Proof.
  intros n. rewrite <- (DecimalNat.Unsigned.of_to n) at 1.
  rewrite DecimalNat.Unsigned.to_of. apply unorm_nonnil.
Qed.

Lemma str_of_nat_inj : forall n m, str_of_nat n = str_of_nat m -> n = m.
Proof.
  intros n m H. unfold str_of_nat in H.
  apply (f_equal string_of_list_ascii) in H.
  rewrite !string_of_list_ascii_of_string in H.
  apply (f_equal DecimalString.NilZero.uint_of_string) in H.
  rewrite !DecimalString.NilZero.usu in H by apply to_uint_nonnil.
  injection H as H.
  rewrite <- (DecimalNat.Unsigned.of_to n), H.
  apply DecimalNat.Unsigned.of_to.
Qed.

Lemma cte_name_of_inj : forall n m, cte_name_of n = cte_name_of m -> n = m.
Proof.
  intros n m H. unfold cte_name_of in H. apply app_inv_head in H.
  exact (str_of_nat_inj n m H).
Qed.

(** X10.  A converter never reuses a CTE name: when two statements are
    converted one after the other by the same converter and both reach the
    assembler, the second recursive CTE is named after the next counter
    value, and the two names differ. *)
Theorem successive_cte_names_differ :
  forall self sql1 sql2 r1 r2 c1 c2,
    let self1 := fst (convert self sql1) in
    snd (convert self sql1) = Ok r1 -> success r1 = true ->
    _parse_connect_by_query sql1 = Ok (Some c1) ->
    is_sequence_generator c1 = false ->
    snd (convert self1 sql2) = Ok r2 -> success r2 = true ->
    _parse_connect_by_query sql2 = Ok (Some c2) ->
    is_sequence_generator c2 = false ->
    let n1 := cte_counter self + 1 in
    let n2 := cte_counter self + 2 in
    (exists body1,
        converted_sql r1
        = "WITH RECURSIVE " ++ cte_name_of n1 ++ " AS (" ++ body1) /\
    (exists body2,
        converted_sql r2
        = "WITH RECURSIVE " ++ cte_name_of n2 ++ " AS (" ++ body2) /\
    cte_name_of n1 <> cte_name_of n2.
Proof.
  intros self sql1 sql2 r1 r2 c1 c2 self1 Hr1 Hs1 Hp1 Hg1 Hr2 Hs2 Hp2 Hg2
         n1 n2.
  assert (Hstep : forall s sql r c,
             snd (convert s sql) = Ok r -> success r = true ->
             _parse_connect_by_query sql = Ok (Some c) ->
             is_sequence_generator c = false ->
             fst (convert s sql) = Converter (cte_counter s + 1) /\
             exists body,
               converted_sql r
               = "WITH RECURSIVE " ++ cte_name_of (cte_counter s + 1)
                 ++ " AS (" ++ body).
  { intros s sql r c Hr Hs Hp Hg.
    destruct (convert_cases s sql)
      as [(_ & E) | [(_ & _ & E) | [(c' & _ & Hp' & Hg' & E)
         | [(c' & b & _ & Hp' & _ & Hb & E) | (c' & e & _ & _ & _ & _ & E)]]]];
      rewrite E in Hr |- *; cbn [snd fst] in *; injection Hr as <-;
      try discriminate Hs.
    - rewrite Hp in Hp'. injection Hp' as <-. congruence.
    - split; [reflexivity|].
      apply build_ok_inv in Hb.
      destruct Hb as (tn & toks & ta & parsed & _ & _ & _ & _ & ->).
      cbn [converted_sql b_sql]. unfold cte_text.
      rewrite <- !app_assoc. eexists. reflexivity. }
  destruct (Hstep self sql1 r1 c1 Hr1 Hs1 Hp1 Hg1) as (Hself & Hb1).
  destruct (Hstep self1 sql2 r2 c2 Hr2 Hs2 Hp2 Hg2) as (_ & Hb2).
  subst self1. rewrite Hself in Hb2. cbn [cte_counter] in Hb2.
  replace (cte_counter self + 1 + 1) with (cte_counter self + 2) in Hb2
    by lia.
  split; [exact Hb1|]. split; [exact Hb2|].
  intros C. apply cte_name_of_inj in C. subst n1 n2. lia.
Qed.

Lemma successive_cte_names_differ_witness :
  cte_name_of 1 <> cte_name_of 2.
Proof.
  set (sql := "SELECT id FROM emp START WITH mgr IS NULL CONNECT BY PRIOR id = mgr" : str).
  destruct (snd (convert (Converter 0) sql)) as [r1|] eqn:Hr1;
    [|vm_compute in Hr1; discriminate].
  assert (Hs1 : success r1 = true)
    by (vm_compute in Hr1; injection Hr1 as <-; reflexivity).
  destruct (snd (convert (fst (convert (Converter 0) sql)) sql))
    as [r2|] eqn:Hr2; [|vm_compute in Hr2; discriminate].
  assert (Hs2 : success r2 = true)
    by (vm_compute in Hr2; injection Hr2 as <-; reflexivity).
  assert (Hp : exists c, _parse_connect_by_query sql = Ok (Some c) /\
                         is_sequence_generator c = false)
    by (vm_compute; eexists; split; reflexivity).
  destruct Hp as (c & Hp & Hg).
  exact (proj2 (proj2 (successive_cte_names_differ (Converter 0) sql sql
                         r1 r2 c c Hr1 Hs1 Hp Hg Hr2 Hs2 Hp Hg))).
Defined.

(** ** Failures of the assembler *)

Ltac inv_look :=
  repeat match goal with
         | H : parses (Look true _) _ _ _ _ |- _ =>
             apply parses_look_pos in H; destruct H as (? & ? & _)
         end; subst.

Lemma from_group : forall s m g,
    re_search re_from s = Some m -> group 1 m = Some g ->
    is_identifier g = true.
Proof.
  intros s m g E Hg. apply re_search_some in E.
  destruct E as (u & w & t & l & _ & -> & P).
  unfold re_from in P. inv_all.
  all: inv_look.
  all: cbn in Hg; injection Hg as <-; apply is_identifier_spec; auto.
Qed.

Lemma from_simple_group : forall s m g,
    re_search re_from_simple s = Some m -> group 1 m = Some g ->
    is_identifier g = true.
Proof.
  intros s m g E Hg. apply re_search_some in E.
  destruct E as (u & w & t & l & _ & -> & P).
  unfold re_from_simple in P. inv_all.
  cbn in Hg; injection Hg as <-; apply is_identifier_spec; auto.
Qed.

(** The table text that [parse_from] returns is a nonempty run of word
    characters and dots. *)
Lemma parse_from_inv : forall s fc ta,
    parse_from s = Ok (Some (fc, ta)) ->
    exists g, is_identifier g = true /\ fc = strip g.
Proof.
  intros s fc ta H. unfold parse_from in H.
  destruct (re_search re_from s) as [m|] eqn:E.
  - destruct (group 1 m) as [g|] eqn:Hg; [|discriminate H].
    cbn [req bind] in H. exists g. split; [exact (from_group _ _ _ E Hg)|].
    destruct (lastindex m); [|discriminate H].
    injection H as <- _. reflexivity.
  - destruct (re_search re_from_simple s) as [m|] eqn:E2; [|discriminate H].
    destruct (group 1 m) as [g|] eqn:Hg; [|discriminate H].
    cbn [req bind] in H. exists g.
    split; [exact (from_simple_group _ _ _ E2 Hg)|].
    injection H as <- _. reflexivity.
Qed.

Lemma split_ws_aux_nonempty : forall s cur,
    cur <> [] -> split_ws_aux cur s <> [].
Proof.
  intros s. induction s as [|c s IH]; intros cur Hc.
  - cbn. destruct cur; [contradiction|discriminate].
  - cbn [split_ws_aux]. destruct (is_space c).
    + destruct cur; [contradiction|discriminate].
    + apply IH. discriminate.
Qed.

Lemma split_ws_identifier : forall g,
    is_identifier g = true -> split_ws (strip g) <> [].
Proof.
  intros g H. apply is_identifier_spec in H. destruct H as (Hne & H).
  assert (Hs : forall x, forallb is_word_or_dot x = true -> x <> [] ->
                         stops is_space x = true).
  { intros x Hx Hn. apply (stops_class is_space is_word_or_dot); auto.
    exact ident_not_space. }
  assert (E : strip g = g).
  { unfold strip. rewrite (lstrip_id g (Hs g H Hne)). unfold rstrip.
    rewrite lstrip_id; [apply rev_involutive|].
    apply Hs; [rewrite forallb_rev; exact H|].
    intros C. apply Hne. rewrite <- (rev_involutive g), C. reflexivity. }
  rewrite E. destruct g as [|c g]; [contradiction|].
  unfold split_ws. cbn [split_ws_aux].
  simpl in H. apply andb_true_iff in H. destruct H as (Hc & _).
  rewrite (ident_not_space c Hc). apply split_ws_aux_nonempty. discriminate.
Qed.

(** The table text of extracted components is never blank. *)
Lemma parse_from_clause : forall sql c,
    _parse_connect_by_query sql = Ok (Some c) ->
    is_sequence_generator c = false ->
    split_ws (from_clause c) <> [].
Proof.
  intros sql c H Hseq. unfold _parse_connect_by_query in H.
  set (sn := join " " (split_ws sql)) in *.
  destruct (re_search re_dual (upper sn)) as [dm|].
  { destruct (sequence_generator_never_raises sn) as (c0 & E & Hc0).
    rewrite E in H. cbn [bind] in H. injection H as <-. congruence. }
  destruct (re_match re_select sn) as [sm|] eqn:Esel; [|discriminate H].
  destruct (match_group 1 _ _ _ Esel eq_refl) as (sel & Hsel).
  rewrite Hsel in H. cbn [req bind] in H.
  destruct (parse_from sn) as [ft|] eqn:Eft; [|discriminate H].
  cbn [bind] in H.
  destruct ft as [[fc ta]|]; [|discriminate H].
  destruct (parse_from_inv _ _ _ Eft) as (g & Hg & ->).
  destruct (group1_strip_search re_start_with sn eq_refl) as (sw & Esw).
  rewrite Esw in H. cbn [bind] in H.
  destruct (re_search re_connect_by sn) as [cm|] eqn:Ecb; [|discriminate H].
  destruct (search_group 2 _ _ _ Ecb eq_refl) as (cb & Hcb).
  rewrite Hcb in H. cbn [req bind] in H.
  destruct (group1_strip_search re_where sn eq_refl) as (wc & Ewc).
  rewrite Ewc in H. cbn [bind] in H.
  destruct (group1_strip_search re_order_siblings sn eq_refl) as (os & Eos).
  rewrite Eos in H. cbn [bind] in H.
  assert (Hob : exists o,
             group1_strip
               (if truthy os
                then re_search re_order_by_after_siblings sn
                else re_search re_order_by sn) = Ok o).
  { destruct (truthy os); apply group1_strip_search; reflexivity. }
  destruct Hob as (ob & Eob). rewrite Eob in H. cbn [bind] in H.
  destruct (group1_strip_search re_group_by sn eq_refl) as (gb & Egb).
  rewrite Egb in H. cbn [bind] in H.
  injection H as <-. cbn [from_clause].
  apply split_ws_identifier. exact Hg.
Qed.

Lemma assembler_failures_aux : forall self c warnings0 notes0 e,
    snd (_build_recursive_cte self c warnings0 notes0) = Raise e <->
    (split_ws (from_clause c) = [] /\ e = index_error_list) \/
    (exists tn toks,
        split_ws (from_clause c) = tn :: toks /\
        truthy (table_alias c) = false /\
        unqualified tn = [] /\ e = index_error_string).
Proof.
  intros self c w0 n0 e. unfold _build_recursive_cte. cbn [snd].
  destruct (split_ws (from_clause c)) as [|tn toks].
  { cbn [bind]. split.
    - intros H. injection H as <-. left. auto.
    - intros [(_ & ->) | (tn & toks & E & _)]; [reflexivity|discriminate E]. }
  cbn [bind]. unfold _generate_alias.
  destruct (truthy (table_alias c)) eqn:Et.
  { cbn [bind]. rewrite parse_connect_by_condition_spec. cbn [bind].
    destruct (_build_column_lists c _ _) as [[a r] o]. split.
    - intros H. discriminate H.
    - intros [(E & _) | (tn' & toks' & _ & C & _)]; discriminate. }
  destruct (unqualified tn) as [|x name] eqn:Eu.
  { cbn [bind]. split.
    - intros H. injection H as <-. right. exists tn, toks. auto.
    - intros [(E & _) | (tn' & toks' & _ & _ & _ & ->)];
        [discriminate E|reflexivity]. }
  cbn [bind]. rewrite parse_connect_by_condition_spec. cbn [bind].
  destruct (_build_column_lists c _ _) as [[a r] o]. split.
  - intros H. discriminate H.
  - intros [(E & _) | (tn' & toks' & E & _ & C & _)]; [discriminate E|].
    injection E as <- <-. rewrite Eu in C. discriminate C.
Qed.

(** X11.  The assembler raises in two cases only, both [IndexError]: the
    table text of the components is blank (no first word), or the
    components carry no table alias and nothing follows the last dot of the
    table name. *)
Theorem assembler_failures : forall self c warnings0 notes0 e,
    snd (_build_recursive_cte self c warnings0 notes0) = Raise e <->
    (split_ws (from_clause c) = [] /\ e = index_error_list) \/
    (exists tn toks,
        split_ws (from_clause c) = tn :: toks /\
        truthy (table_alias c) = false /\
        unqualified tn = [] /\ e = index_error_string).
Proof. exact assembler_failures_aux. Qed.

(** X12.  A conversion that fails reports exactly one of three warnings
    and no note: the statement is no CONNECT BY query, its structure could
    not be extracted, or the assembler raised [IndexError] on a table name
    that ends with a dot. *)
Theorem failure_warnings : forall self sql r,
    snd (convert self sql) = Ok r ->
    success r = false ->
    notes r = [] /\
    (warnings r = [warn_not_connect_by] \/
     warnings r = [warn_parse_failed] \/
     warnings r = [("Conversion error: string index out of range" : str)]).
Proof.
  intros self sql r Hr Hs.
  destruct (convert_cases self sql)
    as [(_ & E) | [(_ & _ & E) | [(c & _ & _ & _ & E)
       | [(c & b & _ & _ & _ & _ & E) | (c & e & _ & Hp & Hg & Hb & E)]]]];
    rewrite E in Hr; cbn [snd] in Hr; injection Hr as <-;
    try discriminate Hs; cbn [notes warnings]; split; auto.
  right. right.
  assert (He : snd (_build_recursive_cte self c [] []) = Raise e)
    by (rewrite Hb; reflexivity).
  apply assembler_failures_aux in He.
  destruct He as [(E0 & _) | (tn & toks & _ & _ & _ & ->)].
  - exfalso. exact (parse_from_clause sql c Hp Hg E0).
  - reflexivity.
Qed.

Lemma assembler_failures_witness :
  snd (_build_recursive_cte (Converter 0) dotted_components [] [])
  = Raise index_error_string.
Proof.
  apply (assembler_failures (Converter 0) dotted_components [] []).
  right. exists ("t." : str), []. repeat split; reflexivity.
Defined.

Lemma failure_warnings_witness :
  exists r,
    snd (convert (Converter 0) "SELECT a FROM t. CONNECT BY PRIOR a = b")
    = Ok r /\
    notes r = [] /\
    (warnings r = [warn_not_connect_by] \/
     warnings r = [warn_parse_failed] \/
     warnings r = [("Conversion error: string index out of range" : str)]).
Proof.
  set (sql := "SELECT a FROM t. CONNECT BY PRIOR a = b" : str).
  destruct (snd (convert (Converter 0) sql)) as [r|] eqn:Hr;
    [|vm_compute in Hr; discriminate].
  exists r. split; [reflexivity|].
  apply (failure_warnings (Converter 0) sql r Hr).
  vm_compute in Hr. injection Hr as <-. reflexivity.
Defined.

(** ** The callers' gate *)

(** X13.  The check [has_connect_by], which callers run before they hand a
    statement to the converter, implies the converter's own gate: a
    statement that passes it is never answered with
    [Not a CONNECT BY query]. *)
Theorem has_connect_by_passes_gate : forall self sql,
    has_connect_by sql = true ->
    _is_connect_by_query sql = true /\
    exists r,
      snd (convert self sql) = Ok r /\
      warnings r <> [warn_not_connect_by].
Proof.
  intros self sql H.
  assert (Hg : _is_connect_by_query sql = true).
  { unfold _is_connect_by_query. unfold has_connect_by in H.
    rewrite H. reflexivity. }
  split; [exact Hg|].
  destruct (convert_cases self sql)
    as [(Hn & E) | [(_ & _ & E) | [(c & _ & _ & _ & E)
       | [(c & b & _ & Hp & Hq & Hb & E) | (c & e & _ & _ & _ & _ & E)]]]];
    try congruence; rewrite E; cbn [snd]; eexists; split; try reflexivity;
    cbn [warnings]; try discriminate.
  apply build_ok_inv in Hb.
  destruct Hb as (tn & toks & ta & parsed & _ & _ & _ & _ & ->).
  cbn [b_warnings app].
  destruct (negb (truthy parsed)); cbn [app].
  - intros C. injection C as C _. discriminate C.
  - unfold order_warnings, feature_warnings.
    destruct (truthy (order_by_clause c)), (truthy (order_siblings_by c)),
      (has_connect_by_isleaf c); cbn; intros C; try discriminate C;
      injection C as C; discriminate C.
Qed.

Lemma has_connect_by_passes_gate_witness :
  _is_connect_by_query "select a from t connect by prior a = b" = true.
Proof.
  exact (proj1 (has_connect_by_passes_gate (Converter 0)
                  "select a from t connect by prior a = b" eq_refl)).
Defined.

(** ** Join inference *)

(** X14.  Join inference never raises, and its recursion over the
    conjuncts goes one level deep: for every CONNECT BY text its result is
    the whole predicate resolved when it has one of the shapes
    [PRIOR a = b] and [b = PRIOR a], else the conjuncts between [AND] that
    have one of the shapes, resolved and joined by [AND], and [None] when
    there is none. *)
Theorem join_inference_one_level : forall connect_by ta cte,
    _parse_connect_by_condition connect_by ta cte
    = Ok (infer_join connect_by ta cte).
Proof. exact parse_connect_by_condition_spec. Qed.

(** ** Pseudo-columns in ORDER BY and GROUP BY *)

Lemma sub_go_no_match : forall r repl fuel pre_rev s,
    search_from r pre_rev s = None -> sub_go r repl fuel pre_rev s = s.
Proof.
  intros r repl fuel. induction fuel as [|fuel IH]; intros pre_rev s H;
    [reflexivity|].
  cbn [sub_go]. destruct s as [|c s]; cbn [search_from] in H.
  - destruct (match_at r pre_rev []); [discriminate H|reflexivity].
  - destruct (match_at r pre_rev (c :: s)); [discriminate H|].
    rewrite (IH _ _ H). reflexivity.
Qed.

Lemma sub_no_match : forall r repl s,
    re_search r s = None -> re_sub r repl s = s.
Proof. intros r repl s H. apply sub_go_no_match. exact H. Qed.

Lemma upper_firstn_skipn : forall n s,
    upper s = upper (firstn n s) ++ upper (skipn n s).
Proof.
  intros n s. rewrite <- upper_app, firstn_skipn. reflexivity.
Qed.

(** Replacing the LEVEL words by [level] changes letter case only. *)
Lemma upper_replace_level : forall n s p,
    length s <= n ->
    upper (replace_tokens level_word_at "level" 0 p s) = upper s.
Proof.
  intros n. induction n as [|n IH]; intros s p Hn.
  - destruct s; [reflexivity|simpl in Hn; lia].
  - destruct s as [|c s]; [reflexivity|].
    cbn [replace_tokens].
    destruct (level_word_at p (c :: s)) eqn:T.
    + pose proof (level_word_at_length _ _ T) as H5.
      assert (L : lit_ok same_letter "LEVEL" (firstn 5 (c :: s)) = true).
      { unfold level_word_at in T. apply andb_true_iff in T.
        destruct T as (T & _). apply andb_true_iff in T. tauto. }
      rewrite (upper_firstn_skipn 5 (c :: s)), (lit_ok_upper _ _ L).
      rewrite upper_app. f_equal.
      rewrite (replace_tokens_skip level_word_at "level" 4 (Some c) s)
        by (simpl in H5; lia).
      rewrite IH; [reflexivity|].
      rewrite length_skipn. simpl in Hn. lia.
    + cbn [upper map]. f_equal. apply IH. simpl in Hn. lia.
Qed.

Lemma isleaf_token_contains : forall s m,
    re_search re_isleaf_token s = Some m ->
    contains "CONNECT_BY_ISLEAF" (upper s) = true.
Proof.
  intros s m E. apply re_search_some in E.
  destruct E as (u & w & t & l & -> & _ & P).
  unfold re_isleaf_token in P. inv_all.
  apply contains_iff. exists (upper u), (upper t).
  rewrite !upper_app. cbn [app]. rewrite app_nil_r.
  match goal with
  | H : lit_ok same_letter _ _ = true |- _ => rewrite (lit_ok_upper _ _ H)
  end.
  reflexivity.
Qed.

(** X15.  A clause that does not mention [CONNECT_BY_ISLEAF] comes out of
    [_convert_pseudo_columns] with the same letters: only its whole-word
    occurrences of LEVEL are rewritten, to lower case. *)
Theorem pseudo_columns_case_only : forall clause cte,
    contains "CONNECT_BY_ISLEAF" (upper clause) = false ->
    _convert_pseudo_columns clause cte
    = replace_tokens level_word_at "level" 0 None clause /\
    upper (_convert_pseudo_columns clause cte) = upper clause.
Proof.
  intros clause cte H. unfold _convert_pseudo_columns.
  rewrite sub_level_token.
  pose proof (upper_replace_level (length clause) clause None (le_n _)) as U.
  assert (E : re_sub re_isleaf_token "is_leaf"
                (replace_tokens level_word_at "level" 0 None clause)
              = replace_tokens level_word_at "level" 0 None clause).
  { apply sub_no_match.
    destruct (re_search re_isleaf_token
                (replace_tokens level_word_at "level" 0 None clause))
      as [m|] eqn:Em; [|reflexivity].
    apply isleaf_token_contains in Em. rewrite U in Em. congruence. }
  rewrite E. split; [reflexivity|exact U].
Qed.

Lemma pseudo_columns_case_only_witness :
  _convert_pseudo_columns "LEVEL, name" "hierarchy_cte_1"
  = replace_tokens level_word_at "level" 0 None "LEVEL, name".
Proof.
  exact (proj1 (pseudo_columns_case_only "LEVEL, name" "hierarchy_cte_1"
                  eq_refl)).
Defined.

(** * Whitespace normalisation *)

Lemma split_ws_aux_words : forall s cur,
    forallb (fun c => negb (is_space c)) cur = true ->
    Forall (fun w => forallb (fun c => negb (is_space c)) w = true)
      (split_ws_aux cur s).
Proof.
  intros s. induction s as [|c s IH]; intros cur Hc.
  - cbn. destruct cur; constructor; [|constructor].
    rewrite forallb_rev. exact Hc.
  - cbn [split_ws_aux]. destruct (is_space c) eqn:E.
    + destruct cur as [|x cur]; [apply IH; reflexivity|].
      constructor; [rewrite forallb_rev; exact Hc|apply IH; reflexivity].
    + apply IH. simpl. rewrite E, Hc. reflexivity.
Qed.

Lemma join_words_single_line : forall ws,
    Forall (fun w => forallb (fun c => negb (is_space c)) w = true) ws ->
    single_line (join " " ws) = true.
Proof.
  intros ws H. induction H as [|w ws Hw _ IH]; [reflexivity|].
  assert (Hw' : single_line w = true).
  { apply (forallb_impl (fun c => negb (is_space c))); [|exact Hw].
    intros c. all_ascii c; vm_compute; congruence. }
  destruct ws as [|w' ws]; [exact Hw'|].
  change (join " " (w :: w' :: ws)) with (w ++ " " ++ join " " (w' :: ws)).
  unfold single_line. apply forallb_app_iff. split; [exact Hw'|].
  apply forallb_app_iff. split; [reflexivity|exact IH].
Qed.

(** The text that the extractor works on holds no line break. *)
Lemma normalized_single_line : forall sql,
    single_line (join " " (split_ws sql)) = true.
Proof.
  intros sql. apply join_words_single_line.
  apply split_ws_aux_words. reflexivity.
Qed.

Lemma select_dual_capture_substring : forall s m sel,
    re_match re_select_dual s = Some m -> group 1 m = Some sel ->
    substring sel s.
Proof.
  intros s m sel E Hg. apply re_match_some in E.
  destruct E as (w & t & l & -> & -> & P).
  unfold re_select_dual in P. inv_all. cbn in Hg. injection Hg as <-.
  cbn [app].
  match goal with
  | |- substring ?g ((?a ++ ?b ++ ?c ++ ?g ++ ?rest) ++ ?t) =>
      exists (a ++ b ++ c), (rest ++ t)
  end.
  rewrite <- !app_assoc. reflexivity.
Qed.

(** X16.  The select list of extracted components is always on one line:
    the extractor reads it off the whitespace-normalised statement, so the
    comment that stands for a [CONNECT_BY_ISLEAF] item runs over every
    output column listed after it. *)
Theorem extracted_select_single_line : forall sql c,
    _parse_connect_by_query sql = Ok (Some c) ->
    single_line (select_clause c) = true.
Proof.
  intros sql c H.
  pose proof (normalized_single_line sql) as Hn.
  destruct (is_sequence_generator c) eqn:Hseq.
  - unfold _parse_connect_by_query in H.
    set (sn := join " " (split_ws sql)) in *.
    destruct (re_search re_dual (upper sn)) as [dm|].
    + unfold _parse_sequence_generator in H.
      destruct (re_match re_select_dual sn) as [m|] eqn:E.
      * destruct (group 1 m) as [g|] eqn:Hg; [|discriminate H].
        cbn [req bind] in H.
        destruct (group1_strip (re_search re_order_by_line sn))
          as [o|]; [|discriminate H].
        cbn [bind] in H. injection H as <-. cbn [select_clause].
        apply single_line_strip.
        exact (forallb_substring _ _ _
                 (select_dual_capture_substring _ _ _ E Hg) Hn).
      * cbn [bind] in H.
        destruct (group1_strip (re_search re_order_by_line sn))
          as [o|]; [|discriminate H].
        cbn [bind] in H. injection H as <-. reflexivity.
    + exfalso.
      destruct (re_match re_select sn) as [sm|]; [|discriminate H].
      destruct (group 1 sm); [|discriminate H]. cbn [req bind] in H.
      destruct (parse_from sn) as [[[fc ta]|]|]; try discriminate H.
      cbn [bind] in H.
      destruct (group1_strip (re_search re_start_with sn));
        [|discriminate H].
      cbn [bind] in H.
      destruct (re_search re_connect_by sn) as [cm|]; [|discriminate H].
      destruct (group 2 cm); [|discriminate H]. cbn [req bind] in H.
      destruct (group1_strip (re_search re_where sn)); [|discriminate H].
      cbn [bind] in H.
      destruct (group1_strip (re_search re_order_siblings sn)) as [os|];
        [|discriminate H].
      cbn [bind] in H.
      destruct (group1_strip
                  (if truthy os
                   then re_search re_order_by_after_siblings sn
                   else re_search re_order_by sn)); [|discriminate H].
      cbn [bind] in H.
      destruct (group1_strip (re_search re_group_by sn)); [|discriminate H].
      cbn [bind] in H. injection H as <-. discriminate Hseq.
  - destruct (parse_hierarchy_inv sql c H Hseq)
      as (_ & sm & sel & cm & cb & Esel & Hsel & _ & _ & -> & _).
    apply single_line_strip.
    exact (forallb_substring _ _ _
             (select_capture_substring _ _ _ Esel Hsel) Hn).
Qed.

Lemma extracted_select_single_line_witness :
  exists c,
    _parse_connect_by_query
      "SELECT id,  name FROM emp CONNECT BY PRIOR id = mgr" = Ok (Some c) /\
    single_line (select_clause c) = true.
Proof.
  assert (Hp : exists c,
             _parse_connect_by_query
               "SELECT id,  name FROM emp CONNECT BY PRIOR id = mgr"
             = Ok (Some c))
    by (vm_compute; eexists; reflexivity).
  destruct Hp as (c & Hp). exists c. split; [exact Hp|].
  exact (extracted_select_single_line _ c Hp).
Defined.

(** * The bound of a sequence generator *)

Lemma exec_last_group_some : forall n f p s c,
    run f s <> [] ->
    exec (Group n (plus (Chr f))) (MState p s c) (fun st => Some st) <> None.
Proof.
  intros n f p s c Hr. unfold plus. cbn [exec rest caps prev].
  destruct s as [|x s]; [contradiction Hr; reflexivity|].
  cbn [run] in Hr. destruct (f x) eqn:E; [|contradiction Hr; reflexivity].
  match goal with
  | |- context [star_loop _ true ?K ?fu ?st0] =>
      assert (H' : exists res',
                 star_loop (exec (Chr f)) true K fu st0 = Some res')
  end.
  { eexists. apply star_loop_greedy; [cbn; lia|reflexivity]. }
  destruct H' as (res' & H1). cbn [exec] in H1. rewrite H1. discriminate.
Qed.

(** A closing group [(f+|g+)] captures the run of [f] when there is one,
    else the run of [g]. *)
Lemma exec_last_alt_group : forall n f g p s c res,
    exec (Group n (Alt (plus (Chr f)) (plus (Chr g)))) (MState p s c)
      (fun st => Some st) = Some res ->
    exists w,
      caps res = (n, w) :: c /\ w <> [] /\
      ((w = run f s) \/ (run f s = [] /\ w = run g s)).
Proof.
  intros n f g p s c res H.
  destruct (exec (Group n (plus (Chr f))) (MState p s c) (fun st => Some st))
    as [r1|] eqn:E1.
  - assert (H' : exec (Group n (Alt (plus (Chr f)) (plus (Chr g))))
                   (MState p s c) (fun st => Some st) = Some r1).
    { cbn [exec] in E1 |- *. rewrite E1. reflexivity. }
    rewrite H' in H. injection H as <-.
    apply exec_last_group in E1. destruct E1 as (Hne & ->).
    exists (run f s). cbn [caps]. auto.
  - assert (H' : exec (Group n (Alt (plus (Chr f)) (plus (Chr g))))
                   (MState p s c) (fun st => Some st)
                 = exec (Group n (plus (Chr g))) (MState p s c)
                     (fun st => Some st)).
    { cbn [exec] in E1 |- *. rewrite E1. reflexivity. }
    rewrite H' in H. apply exec_last_group in H. destruct H as (Hne & ->).
    exists (run g s). cbn [caps]. split; [reflexivity|].
    split; [exact Hne|]. right. split; [|reflexivity].
    destruct (run f s) eqn:Er; [reflexivity|].
    exfalso. apply (exec_last_group_some n f p s c); [|exact E1].
    rewrite Er. discriminate.
Qed.

(** The bound that [re_level_limit] captures: a nonempty word, either a
    run of digits or a word that starts with no digit. *)
Lemma limit_group : forall s m,
    re_search re_level_limit s = Some m ->
    exists g,
      group 1 m = Some g /\ is_alias_word g = true /\
      (isdigit g = true \/ stops is_digit g = true).
Proof.
  intros s m E. unfold re_search in E.
  apply search_from_match_at in E.
  destruct E as (u & v & _ & E & _). unfold match_at in E.
  destruct (exec re_level_limit (MState (hd_error (rev u ++ [])) v [])
              (fun st1 => Some st1)) as [res|] eqn:X; [|discriminate E].
  injection E as <-. unfold group. cbn [m_caps].
  unfold re_level_limit in X. cbn [seq] in X.
  apply exec_cat_peel in X. destruct X as (w1 & t1 & l1 & _ & P1 & X).
  apply exec_cat_peel in X. destruct X as (w2 & t2 & l2 & _ & P2 & X).
  apply exec_cat_peel in X. destruct X as (w3 & t3 & l3 & _ & P3 & X).
  apply exec_cat_peel in X. destruct X as (w4 & t4 & l4 & _ & P4 & X).
  apply exec_cat_peel in X. destruct X as (w5 & t5 & l5 & _ & P5 & X).
  apply exec_last_alt_group in X. destruct X as (g & Hc & Hne & Hg).
  exists g. rewrite Hc. cbn [assoc Nat.eqb]. split; [reflexivity|].
  assert (Hrun : forall f x, forallb f (run f x) = true).
  { intros f x. induction x as [|c x IH]; [reflexivity|].
    cbn [run]. destruct (f c) eqn:Ef; [|reflexivity].
    simpl. rewrite Ef, IH. reflexivity. }
  destruct Hg as [-> | (Hd & ->)].
  - assert (Hdig : forallb is_digit (run is_digit t5) = true) by apply Hrun.
    split.
    + apply is_alias_word_spec. split; [exact Hne|].
      apply (forallb_impl is_digit); [exact digit_is_word|exact Hdig].
    + left. unfold isdigit.
      destruct (run is_digit t5); [contradiction|exact Hdig].
  - split.
    + apply is_alias_word_spec. split; [exact Hne|apply Hrun].
    + right. destruct t5 as [|c t5]; [contradiction|].
      cbn [run] in Hd |- *. destruct (is_digit c) eqn:Ed; [discriminate Hd|].
      destruct (is_word c); cbn [stops]; rewrite ?Ed; reflexivity.
Qed.

Lemma limit_parses : forall p C s1 B s2 L s3 s4 g t,
    is_word_opt p = false ->
    lit_ok same_letter "CONNECT" C = true ->
    forallb is_space s1 = true -> s1 <> [] ->
    lit_ok same_letter "BY" B = true ->
    forallb is_space s2 = true -> s2 <> [] ->
    lit_ok same_letter "LEVEL" L = true ->
    forallb is_space s3 = true -> forallb is_space s4 = true ->
    forallb is_word g = true -> g <> [] ->
    exists l,
      parses re_level_limit p
        ([] ++ (C ++ s1 ++ B ++ s2 ++ L) ++ s3 ++ "<=" ++ s4 ++ g) t l.
Proof.
  intros p C s1 B s2 L s3 s4 g t Hp HC H1 N1 HB H2 N2 HL H3 H4 Hg Ng.
  eexists. unfold re_level_limit. build_parses.
  - rewrite Hp. lit_chars HC. cbn [app word_start].
    match goal with
    | H : same_letter "C" ?c = true |- _ =>
        rewrite (same_letter_word _ _ H)
    end.
    reflexivity.
  - exact HC.
  - unfold ws. apply parses_plus_chr. repeat split; assumption.
  - exact HB.
  - unfold ws. apply parses_plus_chr. repeat split; assumption.
  - exact HL.
  - exact H3.
  - exact H4.
  - apply parses_alt. right. apply parses_plus_chr.
    repeat split; assumption.
Qed.

Lemma forallb_upper : forall (f : ascii -> bool) s,
    (forall c, f (upper_char c) = f c) ->
    forallb f (upper s) = forallb f s.
Proof.
  intros f s H. induction s as [|c s IH]; [reflexivity|].
  simpl. rewrite H, IH. reflexivity.
Qed.

Lemma upper_nil : forall s, upper s = [] -> s = [].
Proof. intros [|c s] H; [reflexivity|discriminate H]. Qed.

Lemma prev_after_upper : forall u,
    is_word_opt (prev_after (upper u) None) = is_word_opt (prev_after u None).
Proof.
  intros u. unfold prev_after, upper. rewrite <- map_rev.
  destruct (rev u) as [|c r]; [reflexivity|].
  cbn. apply is_word_upper.
Qed.

Lemma upper_le : forall a, upper a = ("<=" : str) -> a = ("<=" : str).
Proof.
  intros [|c1 [|c2 [|c3 a]]] H; try discriminate H.
  injection H as H1 H2.
  assert (E : forall c x, (x = "<"%char \/ x = "="%char) ->
                          upper_char c = x -> c = x).
  { intros c x Hx. all_ascii c; vm_compute; intros E;
      destruct Hx as [-> | ->]; congruence. }
  rewrite (E c1 "<"%char (or_introl eq_refl) H1).
  rewrite (E c2 "="%char (or_intror eq_refl) H2). reflexivity.
Qed.

Ltac split_upper E a b Ea :=
  apply upper_split in E; destruct E as (a & b & -> & Ea & E).

Lemma spaces_of_upper : forall a s,
    upper a = s -> forallb is_space s = true -> forallb is_space a = true.
Proof.
  intros a s <- H. rewrite forallb_upper in H; [exact H|].
  exact is_space_upper.
Qed.

Lemma nonempty_of_upper : forall a s, upper a = s -> s <> [] -> a <> [].
Proof. intros a s <- H C. apply H. rewrite C. reflexivity. Qed.

(** A text whose upper-cased copy holds [CONNECT BY LEVEL <= bound] is
    matched by [re_level_limit]. *)
Lemma limit_transfer : forall sn pre s1 s2 s3 s4 g t,
    upper sn
    = pre ++ "CONNECT" ++ s1 ++ "BY" ++ s2 ++ "LEVEL" ++ s3 ++ "<=" ++ s4
      ++ g ++ t ->
    is_word_opt (prev_after pre None) = false ->
    forallb is_space s1 = true -> s1 <> [] ->
    forallb is_space s2 = true -> s2 <> [] ->
    forallb is_space s3 = true -> forallb is_space s4 = true ->
    forallb is_word g = true -> g <> [] ->
    re_search re_level_limit sn <> None.
Proof.
  intros sn pre s1 s2 s3 s4 g t E Hp H1 N1 H2 N2 H3 H4 Hg Ng.
  split_upper E a r0 Ea.
  split_upper E C r1 EC.
  split_upper E a1 r2 E1.
  split_upper E B r3 EB.
  split_upper E a2 r4 E2.
  split_upper E L r5 EL.
  split_upper E a3 r6 E3.
  split_upper E LE r7 ELE.
  split_upper E a4 r8 E4.
  split_upper E g' t' Eg.
  apply upper_le in ELE. subst LE.
  assert (Hp' : is_word_opt (prev_after a None) = false)
    by (rewrite <- prev_after_upper, Ea; exact Hp).
  destruct (limit_parses (prev_after a None) C a1 B a2 L a3 a4 g' t' Hp')
    as (l & P).
  - apply upper_lit_ok. exact EC.
  - exact (spaces_of_upper _ _ E1 H1).
  - exact (nonempty_of_upper _ _ E1 N1).
  - apply upper_lit_ok. exact EB.
  - exact (spaces_of_upper _ _ E2 H2).
  - exact (nonempty_of_upper _ _ E2 N2).
  - apply upper_lit_ok. exact EL.
  - exact (spaces_of_upper _ _ E3 H3).
  - exact (spaces_of_upper _ _ E4 H4).
  - rewrite <- Eg in Hg. rewrite forallb_upper in Hg; [exact Hg|].
    exact is_word_upper.
  - exact (nonempty_of_upper _ _ Eg Ng).
  - intros C0.
    refine (re_search_none re_level_limit a _ t' l _ P).
    rewrite <- C0. f_equal. cbn [app]. rewrite <- !app_assoc. reflexivity.
Qed.

Lemma dual_has_limit : forall sn dm,
    re_search re_dual (upper sn) = Some dm ->
    re_search re_level_limit sn <> None.
Proof.
  intros sn dm E. apply re_search_some in E.
  destruct E as (u & w & t & l & Es & _ & P).
  unfold re_dual in P. inv_all.
  all: match goal with
       | H : matches (plus (Chr ?f)) _ _ |- _ =>
           let K := fresh "K" in
           pose proof (proj1 (parses_plus_chr f _ _ _ _) H) as K;
           destruct K as (Hg & Ng & _); clear H
       end.
  all: match goal with
       | H : xorb (is_word_opt ?p)
                 (word_start ((list_ascii_of_string "CONNECT" ++ _) ++ _))
             = true |- _ =>
           assert (Hp : is_word_opt p = false)
             by (destruct (is_word_opt p); [discriminate H|reflexivity]);
           clear H
       end.
  all: rewrite ?prev_after_nil in Hp.
  all: match type of Es with
       | upper ?s0
         = ?u ++ ([] ++ ?F ++ ?x7 ++ ?D ++ [] ++ ?x19 ++ [] ++ ?C ++ ?x31
                  ++ ?B ++ ?x39 ++ ?L ++ ?x47 ++ ?LE ++ ?x55 ++ ?g) ++ ?t =>
           apply (limit_transfer s0 (u ++ F ++ x7 ++ D ++ x19)
                    x31 x39 x47 x55 g t)
       end.
  all: try assumption.
  all: try (rewrite Es; cbn [app]; rewrite <- !app_assoc; reflexivity).
  all: try (rewrite !prev_after_app; exact Hp).
  apply (forallb_impl is_digit); [exact digit_is_word|exact Hg].
Qed.

(** X17.  The bound of a sequence generator always comes from the
    statement: whenever the extractor takes a statement for a sequence
    generator, its level limit is the word that follows
    [CONNECT BY LEVEL <=], a run of digits or a word that starts with no
    digit, and the default of [10] is not used. *)
Theorem sequence_limit_is_captured : forall sql c,
    _parse_connect_by_query sql = Ok (Some c) ->
    is_sequence_generator c = true ->
    exists m lim,
      re_search re_level_limit (join " " (split_ws sql)) = Some m /\
      group 1 m = Some lim /\
      level_limit c = Some lim /\
      is_alias_word lim = true /\
      (isdigit lim = true \/ stops is_digit lim = true).
Proof.
  intros sql c H Hseq. unfold _parse_connect_by_query in H.
  set (sn := join " " (split_ws sql)) in *.
  destruct (re_search re_dual (upper sn)) as [dm|] eqn:Ed.
  - pose proof (dual_has_limit sn dm Ed) as Hl.
    destruct (re_search re_level_limit sn) as [m|] eqn:Em;
      [|contradiction Hl; reflexivity].
    destruct (limit_group sn m Em) as (g & Hg & Hw & Hk).
    exists m, g. split; [reflexivity|]. split; [exact Hg|].
    split; [|split; assumption].
    unfold _parse_sequence_generator in H. rewrite Em, Hg in H.
    destruct (match re_match re_select_dual sn with
              | Some m0 => s <- req (group 1 m0) ;; Ok (strip s)
              | None => Ok ("LEVEL" : str)
              end) as [sel|]; [|discriminate H].
    cbn [bind] in H.
    destruct (group1_strip (re_search re_order_by_line sn)) as [o|];
      [|discriminate H].
    cbn [bind] in H. injection H as <-. reflexivity.
  - exfalso.
    destruct (re_match re_select sn) as [sm|]; [|discriminate H].
    destruct (group 1 sm); [|discriminate H]. cbn [req bind] in H.
    destruct (parse_from sn) as [[[fc ta]|]|]; try discriminate H.
    cbn [bind] in H.
    destruct (group1_strip (re_search re_start_with sn)); [|discriminate H].
    cbn [bind] in H.
    destruct (re_search re_connect_by sn) as [cm|]; [|discriminate H].
    destruct (group 2 cm); [|discriminate H]. cbn [req bind] in H.
    destruct (group1_strip (re_search re_where sn)); [|discriminate H].
    cbn [bind] in H.
    destruct (group1_strip (re_search re_order_siblings sn)) as [os|];
      [|discriminate H].
    cbn [bind] in H.
    destruct (group1_strip
                (if truthy os
                 then re_search re_order_by_after_siblings sn
                 else re_search re_order_by sn)); [|discriminate H].
    cbn [bind] in H.
    destruct (group1_strip (re_search re_group_by sn)); [|discriminate H].
    cbn [bind] in H. injection H as <-. discriminate Hseq.
Qed.

Lemma sequence_limit_is_captured_witness :
  exists c,
    _parse_connect_by_query "select level from dual connect by level <= 12"
    = Ok (Some c) /\
    level_limit c = Some ("12" : str).
Proof.
  assert (Hp : exists c,
             _parse_connect_by_query
               "select level from dual connect by level <= 12"
             = Ok (Some c) /\ is_sequence_generator c = true)
    by (vm_compute; eexists; split; reflexivity).
  destruct Hp as (c & Hp & Hs). exists c. split; [exact Hp|].
  destruct (sequence_limit_is_captured _ c Hp Hs)
    as (m & lim & Em & Hg & Hl & _).
  rewrite Hl. vm_compute in Em. injection Em as <-.
  vm_compute in Hg. injection Hg as <-. reflexivity.
Defined.

(** * Names of the output columns *)

Lemma classify_column_names : forall ta cte l col,
    is_isleaf_item col = false ->
    exists da dr dout,
      classify_column ta cte l col
      = ColLists (anchor_cols l ++ da) (recursive_cols l ++ dr)
          (output_cols l ++ dout) /\
      Forall2 (fun a o => o = select_item_alias a \/
                          lit_ok same_letter "LEVEL" o = true) da dout.
Proof.
  intros ta cte l col Hleaf. unfold classify_column.
  unfold is_isleaf_item in Hleaf.
  destruct (strip col) as [|c0 s0] eqn:Es; cbv beta zeta iota.
  { exists [], [], []. rewrite !app_nil_r. destruct l.
    split; [reflexivity|constructor]. }
  set (s := c0 :: s0) in *.
  destruct (re_match re_level_only s) as [m|] eqn:E1.
  { eexists [_], [_], [_]. unfold push. split; [reflexivity|].
    constructor; [|constructor]. left. symmetry.
    apply (alias_as_eq "1" "level"); reflexivity. }
  destruct (re_match re_level_alias s) as [m|] eqn:E2.
  { destruct (level_alias_group s m E2) as (g & -> & Hg). cbn [fmt].
    eexists [_], [_], [_]. unfold push. split; [reflexivity|].
    constructor; [|constructor]. left. symmetry.
    apply (alias_as_eq "1" g); [exact Hg|reflexivity]. }
  destruct (re_match re_path s) as [m|] eqn:E3.
  { pose proof (path_group s m E3) as Hg.
    set (alias := or_default (group 3 m) "path") in *.
    eexists [_], [_], [_]. unfold push. split; [reflexivity|].
    constructor; [|constructor]. left. symmetry.
    apply (alias_as_eq
             ("CONCAT('" ++ fmt (group 2 m) ++ "', CAST("
              ++ fmt (group 1 m) ++ " AS STRING))") alias);
      [exact Hg|rewrite <- !app_assoc; reflexivity]. }
  destruct (re_match re_root s) as [m|] eqn:E4.
  { destruct (root_group s m E4) as (Hr & Hg).
    set (alias := or_default (group 2 m) ("root_" ++ fmt (group 1 m))) in *.
    eexists [_], [_], [_]. unfold push. split; [reflexivity|].
    constructor; [|constructor]. left. symmetry.
    apply (alias_as_eq (fmt (group 1 m)) alias); [exact Hg|reflexivity]. }
  destruct (re_match re_isleaf s) as [mi|]; [discriminate Hleaf|].
  destruct (contains "LEVEL" (upper s)).
  { destruct (re_search re_alias s) as [am|] eqn:Ea.
    - destruct (alias_match_word s am Ea)
        as (Y & d & g & z & Hs & -> & Hd & Hg & Hz).
      cbn [fmt].
      eexists [_], [_], [_]. unfold push. split; [reflexivity|].
      constructor; [|constructor].
      rewrite sub_level_token, Hs.
      destruct (level_expr_tail "1" Y d g z Hd Hg Hz) as (Ra & ->).
      destruct (lit_ok same_letter "LEVEL" g) eqn:L; [right; reflexivity|].
      left. symmetry. apply select_item_alias_word; auto.
    - pose proof (level_expr_name_word (length (anchor_cols l))) as Hg.
      set (alias := "level_expr_" ++ str_of_nat (length (anchor_cols l))) in *.
      eexists [_], [_], [_]. unfold push. split; [reflexivity|].
      constructor; [|constructor]. left. symmetry.
      apply (alias_as_eq (re_sub re_level_token "1" s) alias);
        [exact Hg|reflexivity]. }
  destruct (re_search re_alias s) as [am|] eqn:Ea.
  - destruct (alias_match_word s am Ea)
      as (Y & d & g & z & _ & Eg & _ & Hg & _).
    eexists [_], [_], [_]. unfold push. split; [reflexivity|].
    constructor; [|constructor]. left.
    unfold select_item_alias. rewrite Ea. reflexivity.
  - eexists [_], [_], [_]. unfold push. split; [reflexivity|].
    constructor; [|constructor]. left.
    unfold select_item_alias. rewrite Ea. reflexivity.
Qed.

Lemma classify_fold_names : forall ta cte cols l,
    forallb (fun col => negb (is_isleaf_item col)) cols = true ->
    Forall2 (fun a o => o = select_item_alias a \/
                        lit_ok same_letter "LEVEL" o = true)
      (anchor_cols l) (output_cols l) ->
    Forall2 (fun a o => o = select_item_alias a \/
                        lit_ok same_letter "LEVEL" o = true)
      (anchor_cols (fold_left (classify_column ta cte) cols l))
      (output_cols (fold_left (classify_column ta cte) cols l)).
Proof.
  intros ta cte cols. induction cols as [|col cols IH]; intros l Hc Hl;
    [exact Hl|].
  cbn [forallb] in Hc. apply andb_true_iff in Hc. destruct Hc as (Hcol & Hc).
  apply negb_true_iff in Hcol.
  destruct (classify_column_names ta cte l col Hcol)
    as (da & dr & dout & E & Hd).
  cbn [fold_left]. apply IH; [exact Hc|].
  rewrite E. cbn [anchor_cols output_cols]. apply Forall2_app; assumption.
Qed.

(** X18.  For a select list without [CONNECT_BY_ISLEAF] items the outer
    projection names, column by column, the alias of the anchor column,
    with one exception: an expression that mentions LEVEL and whose own
    alias is the word LEVEL keeps that word in the outer projection while
    the anchor column has lost it to the replacement of LEVEL. *)
Theorem output_names_are_anchor_aliases : forall c ta n,
    forallb (fun col => negb (is_isleaf_item col))
      (_split_select_columns (select_clause c)) = true ->
    let l := column_lists c ta (cte_name_of n) in
    Forall2 (fun a o => o = select_item_alias a \/
                        lit_ok same_letter "LEVEL" o = true)
      (anchor_cols l) (output_cols l).
Proof.
  intros c ta n H. cbv zeta. unfold column_lists, ensure_level.
  pose proof (classify_fold_names ta (cte_name_of n) _ (ColLists [] [] [])
                H (Forall2_nil _)) as Hf.
  fold (classify_columns ta (cte_name_of n)
          (_split_select_columns (select_clause c))) in Hf.
  destruct (negb _ && has_level c); [|exact Hf].
  unfold push. cbn [anchor_cols output_cols].
  apply Forall2_app; [exact Hf|].
  constructor; [|constructor]. left. symmetry.
  apply (alias_as_eq "1" "level"); reflexivity.
Qed.

Lemma output_names_are_anchor_aliases_witness :
  Forall2 (fun a o => o = select_item_alias a \/
                      lit_ok same_letter "LEVEL" o = true)
    (anchor_cols (column_lists sample_components "e" (cte_name_of 1)))
    (output_cols (column_lists sample_components "e" (cte_name_of 1))).
Proof.
  exact (output_names_are_anchor_aliases sample_components "e" 1 eq_refl).
Defined.

(** The exception at work: the anchor column of [salary level] is
    [salary 1], whose alias is [1], and the outer projection names
    [level]. *)
Example level_alias_is_lost :
  let l := classify_columns "e" (cte_name_of 1) [("salary level" : str)] in
  anchor_cols l = [("salary 1" : str)] /\
  output_cols l = [("level" : str)] /\
  select_item_alias "salary 1" = ("1" : str).
Proof. vm_compute. repeat split. Qed.

(** * Invariants of the extracted components *)

Lemma from_group2 : forall s m a,
    re_search re_from s = Some m -> group 2 m = Some a ->
    is_alias_word a = true.
Proof.
  intros s m a E Hg. apply re_search_some in E.
  destruct E as (u & w & t & l & _ & -> & P).
  unfold re_from in P. inv_all.
  all: inv_look.
  all: cbn in Hg; try discriminate Hg; injection Hg as <-;
    apply is_alias_word_spec; auto.
Qed.

Lemma identifier_strip : forall g, is_identifier g = true -> strip g = g.
Proof.
  intros g H. apply is_identifier_spec in H. destruct H as (Hne & H).
  assert (Hs : forall x, forallb is_word_or_dot x = true -> x <> [] ->
                         stops is_space x = true).
  { intros x Hx Hn. apply (stops_class is_space is_word_or_dot); auto.
    exact ident_not_space. }
  unfold strip. rewrite (lstrip_id g (Hs g H Hne)). unfold rstrip.
  rewrite lstrip_id; [apply rev_involutive|].
  apply Hs; [rewrite forallb_rev; exact H|].
  intros C. apply Hne. rewrite <- (rev_involutive g), C. reflexivity.
Qed.

(** The table and the alias that [parse_from] returns. *)
Lemma parse_from_target : forall s fc ta,
    parse_from s = Ok (Some (fc, ta)) ->
    is_identifier fc = true /\
    forall a, ta = Some a ->
              is_alias_word a = true /\ is_clause_keyword a = false.
Proof.
  intros s fc ta H.
  destruct (parse_from_inv s fc ta H) as (g & Hg & ->).
  rewrite (identifier_strip g Hg). split; [exact Hg|].
  intros a ->. unfold parse_from in H.
  destruct (re_search re_from s) as [m|] eqn:E.
  - destruct (group 1 m) as [g1|]; [|discriminate H]. cbn [req bind] in H.
    destruct (lastindex m) as [i|]; [|discriminate H].
    destruct ((2 <=? i) && truthy (group 2 m)).
    + destruct (group 2 m) as [a2|] eqn:E2; [|discriminate H].
      destruct (truthy (Some a2) && is_clause_keyword a2) eqn:K;
        [discriminate H|].
      injection H as _ <-.
      pose proof (from_group2 s m a2 E E2) as Hw.
      split; [exact Hw|].
      apply andb_false_iff in K. destruct K as [K|K]; [|exact K].
      destruct a2; [discriminate Hw|discriminate K].
    + discriminate H.
  - destruct (re_search re_from_simple s) as [m|]; [|discriminate H].
    destruct (group 1 m); [|discriminate H]. cbn [req bind] in H.
    discriminate H.
Qed.

(** X19.  The components that the extractor returns for a hierarchy keep
    these invariants: the table text is a nonempty run of word characters
    and dots; a table alias, when present, is a nonempty word that is none
    of the clause keywords START, CONNECT, WHERE, ORDER, GROUP and HAVING;
    the select list and the CONNECT BY text carry no surrounding
    whitespace; no HAVING text and no level limit are recorded. *)
Theorem extracted_components_invariants : forall sql c,
    _parse_connect_by_query sql = Ok (Some c) ->
    is_sequence_generator c = false ->
    is_identifier (from_clause c) = true /\
    (forall a, table_alias c = Some a ->
               is_alias_word a = true /\ is_clause_keyword a = false) /\
    strip (select_clause c) = select_clause c /\
    (exists cb, connect_by_clause c = Some cb /\ strip cb = cb) /\
    having_clause c = None /\ level_limit c = None.
Proof.
  intros sql c H Hseq.
  destruct (parse_hierarchy_inv sql c H Hseq)
    as (_ & sm & sel & cm & cb & _ & _ & _ & _ & Hsel & Hcb & _ & _ & _ & _
        & _ & _ & Hh & Hl).
  assert (Hfrom : is_identifier (from_clause c) = true /\
                  forall a, table_alias c = Some a ->
                            is_alias_word a = true /\
                            is_clause_keyword a = false).
  { clear Hsel Hcb Hh Hl.
    unfold _parse_connect_by_query in H.
    set (sn := join " " (split_ws sql)) in *.
    destruct (re_search re_dual (upper sn)) as [dm|].
    { destruct (sequence_generator_never_raises sn) as (c0 & E & Hc0).
      rewrite E in H. cbn [bind] in H. injection H as <-. congruence. }
    destruct (re_match re_select sn) as [sm0|]; [|discriminate H].
    destruct (group 1 sm0); [|discriminate H]. cbn [req bind] in H.
    destruct (parse_from sn) as [[[fc ta]|]|] eqn:Eft; try discriminate H.
    cbn [bind] in H.
    destruct (group1_strip (re_search re_start_with sn)); [|discriminate H].
    cbn [bind] in H.
    destruct (re_search re_connect_by sn) as [cm0|]; [|discriminate H].
    destruct (group 2 cm0); [|discriminate H]. cbn [req bind] in H.
    destruct (group1_strip (re_search re_where sn)); [|discriminate H].
    cbn [bind] in H.
    destruct (group1_strip (re_search re_order_siblings sn)) as [os|];
      [|discriminate H].
    cbn [bind] in H.
    destruct (group1_strip
                (if truthy os
                 then re_search re_order_by_after_siblings sn
                 else re_search re_order_by sn)); [|discriminate H].
    cbn [bind] in H.
    destruct (group1_strip (re_search re_group_by sn)); [|discriminate H].
    cbn [bind] in H. injection H as <-.
    cbn [from_clause table_alias].
    exact (parse_from_target sn fc ta Eft). }
  destruct Hfrom as (Hf & Ha).
  split; [exact Hf|]. split; [exact Ha|].
  split; [rewrite Hsel; apply strip_idem|].
  split; [exists (strip cb); split; [exact Hcb|apply strip_idem]|].
  split; assumption.
Qed.

Lemma extracted_components_invariants_witness :
  exists c,
    _parse_connect_by_query
      "SELECT id FROM hr.emp e START WITH mgr IS NULL CONNECT BY PRIOR id = mgr"
    = Ok (Some c) /\
    is_identifier (from_clause c) = true.
Proof.
  assert (Hp : exists c,
             _parse_connect_by_query
               "SELECT id FROM hr.emp e START WITH mgr IS NULL CONNECT BY PRIOR id = mgr"
             = Ok (Some c) /\ is_sequence_generator c = false)
    by (vm_compute; eexists; split; reflexivity).
  destruct Hp as (c & Hp & Hs). exists c. split; [exact Hp|].
  exact (proj1 (extracted_components_invariants _ c Hp Hs)).
Defined.

(** * The converted statement *)

Lemma substring_here : forall a c, substring a (a ++ c).
Proof. intros a c. exists [], c. reflexivity. Qed.

Lemma substring_app_r : forall a b c, substring a c -> substring a (b ++ c).
Proof.
  intros a b c (u & v & ->). exists (b ++ u), v.
  rewrite <- app_assoc. reflexivity.
Qed.

Lemma recursive_comment_in_text :
  forall cte tn ta ac aw rc jc oc rest,
    substring "    -- Recursive member: child nodes (CONNECT BY condition)"
      (cte_text cte tn ta ac aw rc jc oc ++ rest).
Proof.
  intros. unfold cte_text. rewrite <- !app_assoc.
  do 23 apply substring_app_r. apply substring_here.
Qed.

(** X20.  The statement that a successful conversion of a hierarchy
    returns still passes [has_connect_by] and the converter's own gate: its
    comment line on the recursive member spells CONNECT BY, so a caller
    that gates on [has_connect_by] takes the output for a CONNECT BY query
    again. *)
Theorem converted_hierarchy_passes_gate : forall self sql r c,
    snd (convert self sql) = Ok r ->
    success r = true ->
    _parse_connect_by_query sql = Ok (Some c) ->
    is_sequence_generator c = false ->
    has_connect_by (converted_sql r) = true /\
    _is_connect_by_query (converted_sql r) = true.
Proof.
  intros self sql r c Hr Hs Hp Hg.
  assert (H : has_connect_by (converted_sql r) = true).
  { destruct (convert_cases self sql)
      as [(_ & E) | [(_ & _ & E) | [(c' & _ & Hp' & Hg' & E)
         | [(c' & b & _ & _ & _ & Hb & E) | (c' & e & _ & _ & _ & _ & E)]]]];
      rewrite E in Hr; cbn [snd] in Hr; injection Hr as <-;
      try discriminate Hs.
    - rewrite Hp in Hp'. injection Hp' as <-. congruence.
    - apply build_ok_inv in Hb.
      destruct Hb as (tn & toks & ta & parsed & _ & _ & _ & _ & ->).
      cbn [converted_sql b_sql]. unfold has_connect_by.
      apply (contains_substring _
               (upper "    -- Recursive member: child nodes (CONNECT BY condition)"));
        [|reflexivity].
      apply upper_substring. apply recursive_comment_in_text. }
  split; [exact H|].
  unfold _is_connect_by_query. unfold has_connect_by in H. rewrite H.
  reflexivity.
Qed.

Lemma converted_hierarchy_passes_gate_witness :
  exists r,
    snd (convert (Converter 0)
           "SELECT id FROM emp START WITH mgr IS NULL CONNECT BY PRIOR id = mgr")
    = Ok r /\
    has_connect_by (converted_sql r) = true.
Proof.
  set (sql := "SELECT id FROM emp START WITH mgr IS NULL CONNECT BY PRIOR id = mgr" : str).
  destruct (snd (convert (Converter 0) sql)) as [r|] eqn:Hr;
    [|vm_compute in Hr; discriminate].
  assert (Hs : success r = true)
    by (vm_compute in Hr; injection Hr as <-; reflexivity).
  assert (Hp : exists c, _parse_connect_by_query sql = Ok (Some c) /\
                         is_sequence_generator c = false)
    by (vm_compute; eexists; split; reflexivity).
  destruct Hp as (c & Hp & Hg).
  exists r. split; [reflexivity|].
  exact (proj1 (converted_hierarchy_passes_gate (Converter 0) sql r c
                  Hr Hs Hp Hg)).
Defined.

(** * The convenience function *)

(** X21.  [convert_connect_by] starts from a fresh converter, so every
    hierarchy it converts gets the same CTE name: a successful result is
    either the sequence-generator statement or begins with
    [WITH RECURSIVE hierarchy_cte_1 AS (]. *)
Theorem fresh_converter_names_cte_1 : forall sql r,
    convert_connect_by sql = Ok r ->
    success r = true ->
    exists c,
      _parse_connect_by_query sql = Ok (Some c) /\
      ((is_sequence_generator c = true /\
        converted_sql r = _convert_sequence_generator c) \/
       (is_sequence_generator c = false /\
        exists body,
          converted_sql r = "WITH RECURSIVE hierarchy_cte_1 AS (" ++ body)).
Proof.
  intros sql r Hr Hs. unfold convert_connect_by in Hr.
  destruct (convert_cases (Converter 0) sql)
    as [(_ & E) | [(_ & _ & E) | [(c & _ & Hp & Hg & E)
       | [(c & b & _ & Hp & Hg & Hb & E) | (c & e & _ & _ & _ & _ & E)]]]];
    rewrite E in Hr; cbn [snd] in Hr; injection Hr as <-;
    try discriminate Hs.
  - exists c. split; [exact Hp|]. left. auto.
  - exists c. split; [exact Hp|]. right. split; [exact Hg|].
    apply build_ok_inv in Hb.
    destruct Hb as (tn & toks & ta & parsed & _ & _ & _ & _ & ->).
    cbn [converted_sql b_sql cte_counter]. unfold cte_text.
    rewrite <- !app_assoc. eexists. reflexivity.
Qed.

Lemma fresh_converter_names_cte_1_witness :
  exists r c,
    convert_connect_by
      "SELECT id FROM emp START WITH mgr IS NULL CONNECT BY PRIOR id = mgr"
    = Ok r /\
    _parse_connect_by_query
      "SELECT id FROM emp START WITH mgr IS NULL CONNECT BY PRIOR id = mgr"
    = Ok (Some c).
Proof.
  set (sql := "SELECT id FROM emp START WITH mgr IS NULL CONNECT BY PRIOR id = mgr" : str).
  destruct (convert_connect_by sql) as [r|] eqn:Hr;
    [|vm_compute in Hr; discriminate].
  assert (Hs : success r = true)
    by (vm_compute in Hr; injection Hr as <-; reflexivity).
  destruct (fresh_converter_names_cte_1 sql r Hr Hs) as (c & Hp & _).
  exists r, c. split; [reflexivity|exact Hp].
Defined.
